(** * constago: the model-building engine

    A shallow embedding of [lib/model_builder.go], the model aggregator
    ([Model.AddStruct], [Model.AddError]) and the string helpers, with the
    properties of the specification stated and proved against it.

    Conventions of the embedding.
    - A Go [string] is a Rocq [string], byte for byte.  Source text, tags and
      configuration values are taken to be ASCII, so that a rune is a byte
      and [for i, r := range s] visits the bytes of [s] in order.
    - A Go pointer to a [TypePackageOutput] is a location in an explicit
      store; the [Imports] map of a package and the [ValueOutput] of a
      getter return hold the same location, as they hold the same pointer.
    - A Go [map] is a [gmap]; a [range] over it visits its entries in an
      order the run time chooses afresh for every loop.
    - What the engine obtains from outside (the Go parser, the file system,
      glob expansion, import resolution) is gathered in one record of
      oracles, [World]. *)

From stdpp Require Import gmap strings list.
From Stdlib Require Import Ascii String ZArith Lia.

Open Scope string_scope.

(** ** Go library functions used by the engine *)

Module Go.

Definition byte_in (lo hi : nat) (c : ascii) : bool :=
  (lo <=? nat_of_ascii c)%nat && (nat_of_ascii c <=? hi)%nat.

(** [unicode.IsUpper] on an ASCII rune. *)
Definition IsUpper (c : ascii) : bool := byte_in 65 90 c.

(** [unicode.IsLower] on an ASCII rune. *)
Definition IsLower (c : ascii) : bool := byte_in 97 122 c.

Definition IsDigit (c : ascii) : bool := byte_in 48 57 c.

Definition IsLetter (c : ascii) : bool := IsUpper c || IsLower c.

Definition lower_rune (c : ascii) : ascii :=
  if IsUpper c then ascii_of_nat (nat_of_ascii c + 32) else c.

Definition upper_rune (c : ascii) : ascii :=
  if IsLower c then ascii_of_nat (nat_of_ascii c - 32) else c.

Fixpoint map_runes (f : ascii -> ascii) (s : string) : string :=
  match s with
  | EmptyString => EmptyString
  | String c r => String (f c) (map_runes f r)
  end.

(** [strings.ToLower] and [strings.ToUpper]. *)
Definition ToLower : string -> string := map_runes lower_rune.
Definition ToUpper : string -> string := map_runes upper_rune.

(** [cases.Title(language.Und, cases.NoLower).String] of
    golang.org/x/text: the first cased letter of every word is put in
    title case and nothing is lowered.  Letters and digits continue a
    word; in this model every other character ends it (the word-break
    rules keep a few punctuation marks inside a word when they stand
    between letters; no statement below relies on such input). *)
Fixpoint title_from (midWord : bool) (s : string) : string :=
  match s with
  | EmptyString => EmptyString
  | String c r =>
      if IsLetter c then
        String (if midWord then c else upper_rune c) (title_from true r)
      else if IsDigit c then String c (title_from midWord r)
      else String c (title_from false r)
  end.

Definition Title : string -> string := title_from false.

(** [strings.Join]. *)
Fixpoint Join (elems : list string) (sep : string) : string :=
  match elems with
  | [] => ""
  | [w] => w
  | w :: rest => w ++ sep ++ Join rest sep
  end.

(** [strings.HasPrefix], [strings.HasSuffix], [strings.TrimPrefix]. *)
Fixpoint HasPrefix (s p : string) : bool :=
  match p, s with
  | EmptyString, _ => true
  | String a p', String b s' => if decide (a = b) then HasPrefix s' p' else false
  | String _ _, EmptyString => false
  end.

Definition HasSuffix (s p : string) : bool :=
  HasPrefix (String.rev s) (String.rev p).

Fixpoint drop_bytes (n : nat) (s : string) : string :=
  match n, s with
  | S n', String _ r => drop_bytes n' r
  | _, _ => s
  end.

Definition TrimPrefix (s p : string) : string :=
  if HasPrefix s p then drop_bytes (String.length p) s else s.

(** [strings.Contains]. *)
Fixpoint Contains (s sub : string) : bool :=
  HasPrefix s sub ||
  match s with
  | EmptyString => false
  | String _ r => Contains r sub
  end.

(** The white space [strings.TrimSpace] removes, on ASCII. *)
Definition IsSpace (c : ascii) : bool :=
  byte_in 9 13 c || byte_in 32 32 c.

Fixpoint trim_left (s : string) : string :=
  match s with
  | String c r => if IsSpace c then trim_left r else s
  | EmptyString => EmptyString
  end.

Definition TrimSpace (s : string) : string :=
  String.rev (trim_left (String.rev (trim_left s))).

(** [strings.SplitN(s, ",", 2)[0]]: the text before the first comma. *)
Fixpoint before_comma (s : string) : string :=
  match s with
  | EmptyString => EmptyString
  | String c r => if decide (c = ","%char) then EmptyString else String c (before_comma r)
  end.

(** [strings.Trim(s, "`")]. *)
Fixpoint trim_left_backquote (s : string) : string :=
  match s with
  | String c r => if decide (c = "`"%char) then trim_left_backquote r else s
  | EmptyString => EmptyString
  end.

Definition TrimBackquote (s : string) : string :=
  String.rev (trim_left_backquote (String.rev (trim_left_backquote s))).

End Go.

(** ** Configuration ([lib/config.go] and its string enumerations) *)

Inductive InputModeType :=
| InputModeTypeTagThenField | InputModeTypeField | InputModeTypeTag
| InputModeTypeOther (s : string).

Inductive OutputModeType :=
| OutputModeNone | OutputModeStruct | OutputModeConstant
| OutputModeOther (s : string).

Inductive ConstantFormatType :=
| ConstantFormatCamel | ConstantFormatPascal | ConstantFormatSnake
| ConstantFormatSnakeUpper | ConstantFormatOther (s : string).

Inductive TransformCaseType :=
| TransformCaseAsIs | TransformCaseCamel | TransformCasePascal
| TransformCaseUpper | TransformCaseLower | TransformCaseOther (s : string).

Record ConfigInputStruct := {
  cis_Explicit : option bool;
  cis_IncludeUnexported : option bool }.

Record ConfigInputField := {
  cif_Explicit : option bool;
  cif_IncludeUnexported : option bool }.

(** [c.Explicit != nil && *c.Explicit] *)
Definition ptr_true (p : option bool) : bool :=
  match p with Some b => b | None => false end.

Definition struct_isExplicit (c : ConfigInputStruct) : bool := ptr_true (cis_Explicit c).
Definition struct_isIncludeUnexported (c : ConfigInputStruct) : bool :=
  ptr_true (cis_IncludeUnexported c).
Definition field_isExplicit (c : ConfigInputField) : bool := ptr_true (cif_Explicit c).
Definition field_isIncludeUnexported (c : ConfigInputField) : bool :=
  ptr_true (cif_IncludeUnexported c).

Record ConfigInput := {
  Include : list string;
  Exclude : list string;
  Dir : string;
  InStruct : ConfigInputStruct;
  InField : ConfigInputField }.

Record ConfigTagInput := {
  in_Mode : InputModeType;
  TagPriority : list string }.

Record ConfigTagOutputFormat := {
  Holder : ConstantFormatType;
  fmt_Struct : ConstantFormatType;
  fmt_Prefix : string;
  fmt_Suffix : string }.

Record ConfigTagOutputTransform := {
  TagValues : option bool;
  ValueCase : TransformCaseType;
  ValueSeparator : string }.

Record ConfigTagOutput := {
  out_Mode : OutputModeType;
  Format : ConfigTagOutputFormat;
  Transform : ConfigTagOutputTransform }.

Record ConfigTag := {
  el_Name : string;
  el_Input : ConfigTagInput;
  el_Output : ConfigTagOutput }.

Record ConfigGetterOutput := {
  g_Prefix : string;
  g_Suffix : string;
  g_Format : ConstantFormatType }.

Record ConfigGetter := {
  g_Name : string;
  Returns : list string;
  g_Output : ConfigGetterOutput }.

Record Config := {
  Input : ConfigInput;
  Elements : list ConfigTag;
  Getters : list ConfigGetter }.

(** ** Value and name engine *)

(** [isSeparator] *)
Definition isSeparator (r : ascii) : bool :=
  bool_decide (r = "_"%char) || bool_decide (r = "-"%char) ||
  bool_decide (r = " "%char) || bool_decide (r = "."%char) ||
  bool_decide (r = "/"%char).

(** [if currentWord.Len() > 0 { words = append(words, currentWord.String()) }],
    the step that closes the current word in [splitIntoWords]. *)
Definition flush (words : list string) (currentWord : string) : list string :=
  if (0 <? String.length currentWord)%nat then words ++ [currentWord] else words.

(** The loop of [splitIntoWords].  [prev] is the byte [s[i-1]], absent at
    [i = 0]; [words] and [currentWord] are the loop's two variables. *)
Fixpoint splitLoop (prev : option ascii) (s : string)
    (words : list string) (currentWord : string) : list string :=
  match s with
  | EmptyString => flush words currentWord
  | String r rest =>
      if isSeparator r then
        splitLoop (Some r) rest (flush words currentWord) ""
      else if Go.IsUpper r then
        if (0 <? String.length currentWord)%nat
           && negb (from_option Go.IsUpper false prev)
        then splitLoop (Some r) rest (words ++ [currentWord]) (String r "")
        else splitLoop (Some r) rest words (currentWord ++ String r "")
      else splitLoop (Some r) rest words (currentWord ++ String r "")
  end.

(** [splitIntoWords]: words end at a separator and before an uppercase
    letter that follows a letter which is not uppercase. *)
Definition splitIntoWords (s : string) : list string := splitLoop None s [] "".

(** [cases.Title(language.Und, cases.NoLower).String(strings.ToLower(word))],
    the casing of one word: with [NoLower] only the first letter of the
    lowered word is raised. *)
Definition titleWord (w : string) : string := Go.Title (Go.ToLower w).

(** [arrayToPascalCase]: empty words are skipped. *)
Fixpoint arrayToPascalCase (words : list string) : string :=
  match words with
  | [] => ""
  | w :: rest =>
      (if decide (w = "") then "" else titleWord w) ++ arrayToPascalCase rest
  end.

(** [toPascalCase] *)
Definition toPascalCase (s : string) : string :=
  if decide (s = "") then s else arrayToPascalCase (splitIntoWords s).

(** [arrayToCamelCase]: the first word is lowered, the others are
    pascal-cased. *)
Definition arrayToCamelCase (words : list string) : string :=
  match words with
  | [] => ""
  | w0 :: rest => Go.ToLower w0 ++ arrayToPascalCase rest
  end.

(** [toCamelCase] *)
Definition toCamelCase (s : string) : string :=
  if decide (s = "") then s else arrayToCamelCase (splitIntoWords s).

(** One part of a name, kept by [buildName] only when it is not empty. *)
Definition nonEmpty (s : string) : list string :=
  if decide (s = "") then [] else [s].

(** [buildName] *)
Definition buildName (prefix mid mid2 suffix : string)
    (fmtType : ConstantFormatType) : string :=
  let parts :=
    (nonEmpty prefix ++ nonEmpty mid ++ nonEmpty mid2 ++ nonEmpty suffix)%list in
  let base := Go.Join parts " " in
  match fmtType with
  | ConstantFormatCamel => toCamelCase base
  | ConstantFormatPascal => toPascalCase base
  | ConstantFormatSnake => Go.ToLower (Go.Join (splitIntoWords base) "_")
  | ConstantFormatSnakeUpper => Go.ToUpper (Go.Join (splitIntoWords base) "_")
  | ConstantFormatOther _ => toPascalCase base
  end.

(** [caseType == TransformCaseAsIs] *)
Definition isAsIs (c : TransformCaseType) : bool :=
  match c with TransformCaseAsIs => true | _ => false end.

(** The [switch caseType] of [transformFieldValue]; an unknown case leaves
    the value as it is. *)
Definition applyCase (caseType : TransformCaseType) (value : string) : string :=
  match caseType with
  | TransformCaseAsIs => value
  | TransformCaseCamel => toCamelCase value
  | TransformCasePascal => toPascalCase value
  | TransformCaseUpper => Go.ToUpper value
  | TransformCaseLower => Go.ToLower value
  | TransformCaseOther _ => value
  end.

(** [transformFieldValue] *)
Definition transformFieldValue (value : string) (caseType : TransformCaseType)
    (sep : string) : string :=
  let value :=
    if negb (bool_decide (sep = "")) && negb (isAsIs caseType)
    then Go.Join (splitIntoWords value) " " else value in
  let value := applyCase caseType value in
  if negb (bool_decide (sep = "")) then Go.Join (splitIntoWords value) sep else value.

(** ** Produced model ([lib/model.go]) *)

Record TypePackageOutput := {
  tp_Path : string;
  tp_Name : string;
  tp_Alias : string }.

(** A [*TypePackageOutput]: an index into the store of such objects. *)
Abbreviation loc := nat (only parsing).

Record ConstantOutput := { c_Name : string; c_Value : string }.

Record FieldOutput := {
  f_StructName : string;
  f_Name : string;
  f_Value : string }.

Record StructOutput := {
  so_Name : string;
  so_Package : string;
  so_Fields : list FieldOutput }.

Record NoneOutput := { n_Name : string; n_Value : string }.

Record ValueOutput := {
  FieldName : string;
  TypeName : string;
  TypePackage : loc }.

(** A [ReturnOutput] has exactly one of its four pointers set. *)
Inductive ReturnOutput :=
| ReturnField (f : FieldOutput)
| ReturnConstant (c : ConstantOutput)
| ReturnNone (n : NoneOutput)
| ReturnValue (v : ValueOutput).

Record GetterOutput := {
  go_Name : string;
  go_Returns : list ReturnOutput }.

Record StructModel := {
  sm_Name : string;
  sm_File : string;
  sm_LineNumber : Z;
  sm_Constants : list ConstantOutput;
  sm_Structs : list StructOutput;
  sm_Getters : list GetterOutput }.

Record PackageModel := {
  pm_Name : string;
  pm_Path : string;
  pm_Imports : gmap string loc;
  pm_Structs : list StructModel }.

Record ScanError := {
  se_File : string;
  se_Line : Z;
  se_Message : string }.

Record Model := {
  Packages : gmap string PackageModel;
  FilesScanned : Z;
  PackagesFound : Z;
  StructsFound : Z;
  FieldsFound : Z;
  Errors : list ScanError }.

(** [n++] on a Go [int] (64 bits, two's complement). *)
Definition incr (n : Z) : Z :=
  ((n + 1 + 2 ^ 63) mod 2 ^ 64 - 2 ^ 63)%Z.

(** [NewModel] *)
Definition NewModel : Model :=
  {| Packages := ∅; FilesScanned := 0; PackagesFound := 0;
     StructsFound := 0; FieldsFound := 0; Errors := [] |}.

(** [Model.AddError] *)
Definition AddError (m : Model) (file : string) (line : Z) (message : string) : Model :=
  {| Packages := Packages m;
     FilesScanned := FilesScanned m;
     PackagesFound := PackagesFound m;
     StructsFound := StructsFound m;
     FieldsFound := FieldsFound m;
     Errors := (Errors m ++ [ {| se_File := file; se_Line := line; se_Message := message |} ])%list |}.

(** ** Run-time state

    The engine is one sequential run over one [Model].  Besides the model
    the state holds the store of [TypePackageOutput] objects and the number
    of [range] loops over maps started so far, which names the loop whose
    order the run time picks next. *)

Record State := {
  model : Model;
  store : list TypePackageOutput;
  ranges : nat }.

Definition setModel (st : State) (m : Model) : State :=
  {| model := m; store := store st; ranges := ranges st |}.

Definition setStore (st : State) (h : list TypePackageOutput) : State :=
  {| model := model st; store := h; ranges := ranges st |}.

(** [&TypePackageOutput{...}]: a new object, at the next free location. *)
Definition alloc (st : State) (t : TypePackageOutput) : loc * State :=
  (List.length (store st), setStore st (store st ++ [t])%list).

(** How a call ends: with a result, in a run-time panic (a nil or dangling
    pointer is dereferenced), or with the recursion budget of the model
    used up. *)
Inductive result (A : Type) :=
| Ok (a : A)
| Panic
| OutOfFuel.
Arguments Ok {A} a.
Arguments Panic {A}.
Arguments OutOfFuel {A}.

#[global] Instance result_bind : MBind result := λ A B k r,
  match r with
  | Ok a => k a
  | Panic => Panic
  | OutOfFuel => OutOfFuel
  end.

#[global] Instance result_ret : MRet result := λ A a, Ok a.

Definition deref {A} (o : option A) : result A :=
  match o with Some a => Ok a | None => Panic end.

(** [for ... range xs { body }] over a list, with the state threaded. *)
Fixpoint forEach {A S} (xs : list A) (body : A -> S -> result S) (s : S) : result S :=
  match xs with
  | [] => Ok s
  | x :: rest => s' ← body x s ; forEach rest body s'
  end.

(** The order in which the [n]-th [range] over a map visits the entries:
    any rearrangement of them, chosen by the run time. *)
Record RangeOrder := {
  order : nat -> forall A : Type, list A -> list A;
  order_perm : forall n A (l : list A), order n A l ≡ₚ l }.

(** ** Model aggregator *)

Section Aggregator.

Variable R : RangeOrder.

(** [t.Alias = alias] on the value a location holds. *)
Definition setAlias (t : TypePackageOutput) (alias : string) : TypePackageOutput :=
  {| tp_Path := tp_Path t; tp_Name := tp_Name t; tp_Alias := alias |}.

(** Does the entry [imp] of the import map clash with the identifier
    [currentNameOrAlias] requested for [currentImport]? *)
Definition clashes (imp currentImport : TypePackageOutput)
    (currentNameOrAlias : string) : bool :=
  negb (bool_decide (tp_Path imp = tp_Path currentImport)) &&
  (bool_decide (tp_Name imp = currentNameOrAlias) ||
   bool_decide (tp_Alias imp = currentNameOrAlias)).

(** The closure [setRecursiveAlias] of [AddStruct].  [fuel] bounds the
    depth of the recursion. *)
Fixpoint setRecursiveAlias (fuel : nat) (imports : gmap string loc)
    (currentImport : loc) (currentNameOrAlias : string) (level : Z)
    (st : State) : result State :=
  match fuel with
  | O => OutOfFuel
  | S fuel' =>
      let entries := order R (ranges st) _ (map_to_list imports) in
      let st := {| model := model st; store := store st; ranges := S (ranges st) |} in
      forEach entries (fun e st =>
        imp ← deref (store st !! e.2) ;
        cur ← deref (store st !! currentImport) ;
        if clashes imp cur currentNameOrAlias then
          let alias := "_" ++ currentNameOrAlias in
          let st := setStore st (<[currentImport := setAlias cur alias]> (store st)) in
          setRecursiveAlias fuel' imports currentImport alias (level + 1)%Z st
        else Ok st) st
  end.

(** A depth no walk exceeds: every level prefixes one underscore, and a
    level is entered only on a clash with a name or alias in the store. *)
Definition aliasFuel (h : list TypePackageOutput) : nat :=
  2 + foldr (fun t n => (String.length (tp_Name t) `max` String.length (tp_Alias t)) `max` n) 0 h.

(** The returns of all getters of a struct, in the order in which the
    double loop of [AddStruct] meets them. *)
Definition returnValues (sm : StructModel) : list ReturnOutput :=
  g ← sm_Getters sm; go_Returns g.

(** The body of the double loop of [AddStruct] over getters and returns. *)
Definition registerImport (r : ReturnOutput)
    (ps : PackageModel * State) : result (PackageModel * State) :=
  let '(pkg, st) := ps in
  match r with
  | ReturnValue v =>
      tp ← deref (store st !! TypePackage v) ;
      match pm_Imports pkg !! tp_Path tp with
      | Some _ => Ok (pkg, st)
      | None =>
          let pkg := {| pm_Name := pm_Name pkg; pm_Path := pm_Path pkg;
                        pm_Imports := <[tp_Path tp := TypePackage v]> (pm_Imports pkg);
                        pm_Structs := pm_Structs pkg |} in
          st ← setRecursiveAlias (aliasFuel (store st)) (pm_Imports pkg)
                 (TypePackage v) (tp_Name tp) 0 st ;
          Ok (pkg, st)
      end
  | _ => Ok (pkg, st)
  end.

(** [Model.AddStruct] *)
Definition AddStruct (st : State) (packagePath packageName : string)
    (structModel : StructModel) : result State :=
  let m := model st in
  let '(pkg, m) :=
    match Packages m !! packagePath with
    | Some pkg => (pkg, m)
    | None =>
        ({| pm_Name := packageName; pm_Path := packagePath;
            pm_Imports := ∅; pm_Structs := [] |},
         {| Packages := Packages m;
            FilesScanned := FilesScanned m;
            PackagesFound := incr (PackagesFound m);
            StructsFound := StructsFound m;
            FieldsFound := FieldsFound m;
            Errors := Errors m |})
    end in
  '(pkg, st) ← forEach (returnValues structModel) registerImport (pkg, setModel st m) ;
  let pkg := {| pm_Name := pm_Name pkg; pm_Path := pm_Path pkg;
                pm_Imports := pm_Imports pkg;
                pm_Structs := (pm_Structs pkg ++ [structModel])%list |} in
  let m := model st in
  Ok (setModel st
        {| Packages := <[packagePath := pkg]> (Packages m);
           FilesScanned := FilesScanned m;
           PackagesFound := PackagesFound m;
           StructsFound := incr (StructsFound m);
           FieldsFound := FieldsFound m;
           Errors := Errors m |}).

End Aggregator.

#[global] Arguments setRecursiveAlias : simpl never.

(** ** Syntax trees and the outside world *)

(** An [*ast.Field]: its names, the text of its tag literal (back quotes
    included) when it has one, and its type expression, kept as text. *)
Record Field := {
  Names : list string;
  Tag : option string;
  Type_ : string }.

Inductive TypeExpr :=
| StructType (fields : list Field)
| OtherType.

(** An [*ast.TypeSpec]; [ts_Doc] is the text of each comment of its
    comment group, [None] for a nil group; [ts_Line] is the line of
    [fset.Position(typeSpec.Pos())]. *)
Record TypeSpec := {
  ts_Name : string;
  ts_Doc : option (list string);
  ts_Line : Z;
  ts_Type : TypeExpr }.

Inductive Spec :=
| SpecType (t : TypeSpec)
| SpecOther.

(** An [*ast.GenDecl]; [gd_isType] is [genDecl.Tok == token.TYPE]. *)
Record GenDecl := {
  gd_isType : bool;
  gd_Doc : option (list string);
  Specs : list Spec }.

(** A parsed file: its package name and its [GenDecl] nodes in the order
    [ast.Inspect] reaches them. *)
Record File := {
  file_Name : string;
  file_Decls : list GenDecl }.

(** A Go [error] value as [scanFile] looks at it: a [scanner.Error], a
    [scanner.ErrorList] (the lines of its entries), or some other error;
    each with the text [%v] prints. *)
Inductive GoError :=
| ScannerError (line : Z) (text : string)
| ScannerErrorList (lines : list Z) (text : string)
| OtherError (text : string).

Definition errorText (e : GoError) : string :=
  match e with
  | ScannerError _ t | ScannerErrorList _ t | OtherError t => t
  end.

Record WalkEntry := {
  w_path : string;
  w_isDir : bool;
  w_err : option GoError }.

(** Everything the engine asks of the Go tool chain and the file system. *)
Record World := {
  (** [parser.ParseFile(fset, path, nil, parser.ParseComments)] *)
  ParseFile : string -> GoError + File;
  (** [parser.ParseFile(fset, path, nil, parser.PackageClauseOnly)]: the
      package name, [None] on an error. *)
  ParsePackageClause : string -> option string;
  (** [reflect.StructTag(tag).Get(key)] *)
  StructTag_Get : string -> string -> string;
  (** [doublestar.Glob(os.DirFS(dir), pattern)] *)
  Glob : string -> string -> GoError + list string;
  (** The calls [filepath.Walk(dir, fn)] makes to [fn], in order, as long
      as [fn] returns nil. *)
  Walk : string -> list WalkEntry;
  filepath_Join : string -> string -> string;
  filepath_Abs : string -> option string;
  filepath_Dir : string -> string;
  (** What [createValueOutput] finds for a field of a file: the spelling of
      the field's type with the path and the name of the package that owns
      it, [None] when the type cannot be determined (the function returns
      nil). *)
  resolveValue : string -> Field -> string -> string -> option (string * string * string) }.

(** [ast.IsExported] *)
Definition IsExported (name : string) : bool :=
  match name with
  | String c _ => Go.IsUpper c
  | EmptyString => false
  end.

(** The text of a field's tag: [strings.Trim(field.Tag.Value, "`")], empty
    when the field has no tag. *)
Definition fieldTagText (field : Field) : string :=
  match Tag field with Some t => Go.TrimBackquote t | None => "" end.

(** ** Source walker and declaration scanner *)

Section Scanner.

Variable W : World.
Variable R : RangeOrder.
Variable config : Config.

(** [lookupTag] *)
Definition lookupTag (tags key : string) : string * bool :=
  let v := StructTag_Get W tags key in
  if decide (Go.TrimSpace v = "") then ("", false) else (v, true).

(** [mustIncludeField] *)
Definition mustIncludeField (field : Field) : bool :=
  let '(constagoTag, hasConstago) := lookupTag (fieldTagText field) "constago" in
  if hasConstago && bool_decide (constagoTag = "exclude") then false
  else if hasConstago && bool_decide (constagoTag = "include") then true
  else if field_isExplicit (InField (Input config)) && negb hasConstago then false
  else if negb (field_isIncludeUnexported (InField (Input config)))
          && (0 <? List.length (Names field))%nat
          && negb (IsExported (hd "" (Names field))) then false
  else true.

(** The closure [checkCommentGroup] of [structDirectives], as the pair
    of flags after the group. *)
Definition checkCommentGroup (cg : option (list string)) (flags : bool * bool) : bool * bool :=
  match cg with
  | None => flags
  | Some comments =>
      foldl (fun '(hasInclude, hasExclude) c =>
               let txt := Go.TrimSpace c in
               (if Go.Contains txt "constago:include" then true else hasInclude,
                if Go.Contains txt "constago:exclude" then true else hasExclude))
            flags comments
  end.

(** [structDirectives] *)
Definition structDirectives (genDecl : GenDecl) (typeSpec : TypeSpec) : bool * bool :=
  checkCommentGroup (ts_Doc typeSpec) (checkCommentGroup (gd_Doc genDecl) (false, false)).

(** [mustIncludeStruct]: the decision, and the model after it. *)
Definition mustIncludeStruct (m : Model) (genDecl : GenDecl) (typeSpec : TypeSpec)
    (filePath : string) : bool * Model :=
  let '(includeDirective, excludeDirective) := structDirectives genDecl typeSpec in
  if includeDirective && excludeDirective then
    (false, AddError m filePath (ts_Line typeSpec)
              "struct has both include and exclude directives")
  else if excludeDirective
          || (struct_isExplicit (InStruct (Input config)) && negb includeDirective)
  then (false, m)
  else if negb includeDirective
          && negb (struct_isIncludeUnexported (InStruct (Input config)))
          && negb (IsExported (ts_Name typeSpec))
  then (false, m)
  else (true, m).

(** The closure [getFromTags] of [computeElementValue]. *)
Fixpoint tagByPriority (fieldName tags : string) (keys : list string) : string * bool :=
  match keys with
  | [] => ("", false)
  | key :: rest =>
      if decide (key = ":field") then (fieldName, true)
      else
        let '(v, ok) := lookupTag tags key in
        if ok then (Go.before_comma v, true)
        else tagByPriority fieldName tags rest
  end.

(** The closure [getFromTags] of [computeElementValue]: a field without a
    tag has no tag value. *)
Definition getFromTags (fieldName tagText : string) (el : ConfigTag) : string * bool :=
  if decide (tagText = "") then ("", false)
  else tagByPriority fieldName tagText (TagPriority (el_Input el)).

(** The closure [applyTransform] of [computeElementValue]. *)
Definition applyTransform (s : string) (cfg : ConfigTag) : string :=
  transformFieldValue s (ValueCase (Transform (el_Output cfg)))
    (ValueSeparator (Transform (el_Output cfg))).

(** The value of the first tag of the priority list, transformed when
    [TagValues] is set, or [otherwise] when no tag of the list is there. *)
Definition fromTagOr (fieldName tagText : string) (el : ConfigTag)
    (otherwise : string) : string :=
  let '(v, ok) := getFromTags fieldName tagText el in
  if ok then
    if ptr_true (TagValues (Transform (el_Output el))) then applyTransform v el else v
  else otherwise.

(** [computeElementValue] *)
Definition computeElementValue (fieldName tagText : string) (el : ConfigTag) : string :=
  match in_Mode (el_Input el) with
  | InputModeTypeTag => fromTagOr fieldName tagText el ""
  | InputModeTypeField => applyTransform fieldName el
  | InputModeTypeTagThenField =>
      fromTagOr fieldName tagText el (applyTransform fieldName el)
  | InputModeTypeOther _ => ""
  end.

(** *** Per-struct scan

    The loop variables of [scanFile] for one struct: the [StructModel]
    under construction and the four caches.  A [*StructOutput] held by
    [structByElement] is its index in the [Structs] list of the model. *)
Record StructScan := {
  structModel : StructModel;
  constantsByFieldAndElement : gmap string (gmap string ConstantOutput);
  noneByFieldAndElement : gmap string (gmap string NoneOutput);
  structByElement : gmap string nat;
  structFieldByFieldAndElement : gmap string (gmap string FieldOutput) }.

(** [cache[fieldName][name]], with the comma-ok flag as [Some]. *)
Definition lookup2 {A} (cache : gmap string (gmap string A))
    (fieldName name : string) : option A :=
  cache !! fieldName ≫= (.!! name).

(** [cache[fieldName][name] = x], the inner map made when missing. *)
Definition insert2 {A} (cache : gmap string (gmap string A))
    (fieldName name : string) (x : A) : gmap string (gmap string A) :=
  <[fieldName := <[name := x]> (default ∅ (cache !! fieldName))]> cache.

Definition withModel (sc : StructScan) (sm : StructModel) : StructScan :=
  {| structModel := sm;
     constantsByFieldAndElement := constantsByFieldAndElement sc;
     noneByFieldAndElement := noneByFieldAndElement sc;
     structByElement := structByElement sc;
     structFieldByFieldAndElement := structFieldByFieldAndElement sc |}.

Definition addConstant (sm : StructModel) (c : ConstantOutput) : StructModel :=
  {| sm_Name := sm_Name sm; sm_File := sm_File sm; sm_LineNumber := sm_LineNumber sm;
     sm_Constants := (sm_Constants sm ++ [c])%list;
     sm_Structs := sm_Structs sm; sm_Getters := sm_Getters sm |}.

Definition setStructs (sm : StructModel) (l : list StructOutput) : StructModel :=
  {| sm_Name := sm_Name sm; sm_File := sm_File sm; sm_LineNumber := sm_LineNumber sm;
     sm_Constants := sm_Constants sm;
     sm_Structs := l; sm_Getters := sm_Getters sm |}.

Definition addGetter (sm : StructModel) (g : GetterOutput) : StructModel :=
  {| sm_Name := sm_Name sm; sm_File := sm_File sm; sm_LineNumber := sm_LineNumber sm;
     sm_Constants := sm_Constants sm;
     sm_Structs := sm_Structs sm; sm_Getters := (sm_Getters sm ++ [g])%list |}.

Definition addField (so : StructOutput) (f : FieldOutput) : StructOutput :=
  {| so_Name := so_Name so; so_Package := so_Package so;
     so_Fields := (so_Fields so ++ [f])%list |}.

(** The body of the loop over [config.Elements] for one field name. *)
Definition scanElement (packageName fieldName tagText : string) (el : ConfigTag)
    (sc : StructScan) : StructScan :=
  let value := computeElementValue fieldName tagText el in
  if decide (value = "") then sc
  else
    let sm := structModel sc in
    let fmt := Format (el_Output el) in
    match out_Mode (el_Output el) with
    | OutputModeConstant =>
        let constName :=
          buildName (fmt_Prefix fmt) (sm_Name sm) fieldName (fmt_Suffix fmt) (fmt_Struct fmt) in
        let c := {| c_Name := constName; c_Value := value |} in
        {| structModel := addConstant sm c;
           constantsByFieldAndElement :=
             insert2 (constantsByFieldAndElement sc) fieldName (el_Name el) c;
           noneByFieldAndElement := noneByFieldAndElement sc;
           structByElement := structByElement sc;
           structFieldByFieldAndElement := structFieldByFieldAndElement sc |}
    | OutputModeStruct =>
        let '(i, structs, byElement) :=
          match structByElement sc !! el_Name el with
          | Some i => (i, sm_Structs sm, structByElement sc)
          | None =>
              let structName :=
                buildName (fmt_Prefix fmt) (sm_Name sm) "" (fmt_Suffix fmt) (fmt_Struct fmt) in
              let so := {| so_Name := structName; so_Package := packageName;
                           so_Fields := [] |} in
              (List.length (sm_Structs sm), (sm_Structs sm ++ [so])%list,
               <[el_Name el := List.length (sm_Structs sm)]> (structByElement sc))
          end in
        let soName := from_option so_Name "" (structs !! i) in
        let fieldConstName := buildName "" fieldName "" "" (Holder fmt) in
        let fieldOutput :=
          {| f_StructName := soName; f_Name := fieldConstName; f_Value := value |} in
        {| structModel :=
             setStructs sm (alter (fun so => addField so fieldOutput) i structs);
           constantsByFieldAndElement := constantsByFieldAndElement sc;
           noneByFieldAndElement := noneByFieldAndElement sc;
           structByElement := byElement;
           structFieldByFieldAndElement :=
             insert2 (structFieldByFieldAndElement sc) fieldName (el_Name el) fieldOutput |}
    | OutputModeNone =>
        {| structModel := sm;
           constantsByFieldAndElement := constantsByFieldAndElement sc;
           noneByFieldAndElement :=
             insert2 (noneByFieldAndElement sc) fieldName (el_Name el)
               {| n_Name := fieldName; n_Value := value |};
           structByElement := structByElement sc;
           structFieldByFieldAndElement := structFieldByFieldAndElement sc |}
    | OutputModeOther _ => sc
    end.

(** The state of the loop over one getter's [Returns]: the returns
    gathered so far, the caches (a none-output is renamed when it is
    used) and the store (a value return makes a new package object). *)
Definition GetterScan : Type := list ReturnOutput * StructScan * State.

(** [createValueOutput], with the package object it makes placed in the
    store. *)
Definition createValueOutput (filePath : string) (field : Field)
    (fieldName packageName : string) (st : State) : option ValueOutput * State :=
  match resolveValue W filePath field fieldName packageName with
  | None => (None, st)
  | Some (typeName, pkgPath, pkgName) =>
      let '(l, st) := alloc st {| tp_Path := pkgPath; tp_Name := pkgName; tp_Alias := "" |} in
      (Some {| FieldName := fieldName; TypeName := typeName; TypePackage := l |}, st)
  end.

(** The body of the loop over [g.Returns]. *)
Definition scanReturn (filePath packageName : string) (field : Field)
    (fieldName ret : string) (gs : GetterScan) : GetterScan :=
  let '(returns, sc, st) := gs in
  if Go.HasPrefix ret ":" then
    if decide (ret = ":value") then
      match createValueOutput filePath field fieldName packageName st with
      | (Some valueOutput, st) => ((returns ++ [ReturnValue valueOutput])%list, sc, st)
      | (None, st) => (returns, sc, st)
      end
    else gs
  else
    match lookup2 (constantsByFieldAndElement sc) fieldName ret with
    | Some cm => ((returns ++ [ReturnConstant cm])%list, sc, st)
    | None =>
        match lookup2 (noneByFieldAndElement sc) fieldName ret with
        | Some no =>
            let no := {| n_Name := ret; n_Value := n_Value no |} in
            ((returns ++ [ReturnNone no])%list,
             {| structModel := structModel sc;
                constantsByFieldAndElement := constantsByFieldAndElement sc;
                noneByFieldAndElement := insert2 (noneByFieldAndElement sc) fieldName ret no;
                structByElement := structByElement sc;
                structFieldByFieldAndElement := structFieldByFieldAndElement sc |},
             st)
        | None =>
            match lookup2 (structFieldByFieldAndElement sc) fieldName ret with
            | Some so => ((returns ++ [ReturnField so])%list, sc, st)
            | None => gs
            end
        end
    end.

(** The body of the loop over [config.Getters] for one field name. *)
Definition scanGetter (filePath packageName : string) (field : Field)
    (fieldName : string) (g : ConfigGetter) (ss : StructScan * State) : StructScan * State :=
  let '(sc, st) := ss in
  let getterName :=
    buildName (g_Prefix (g_Output g)) fieldName (g_Suffix (g_Output g)) ""
      (g_Format (g_Output g)) in
  let '(returns, sc, st) :=
    foldl (fun gs ret => scanReturn filePath packageName field fieldName ret gs)
      ([], sc, st) (Returns g) in
  if decide (List.length returns = List.length (Returns g)) then
    (withModel sc (addGetter (structModel sc)
                     {| go_Name := getterName; go_Returns := returns |}), st)
  else (sc, st).

(** The body of the loop over [field.Names]. *)
Definition scanIdent (filePath packageName : string) (field : Field)
    (tagText fieldName : string) (ss : StructScan * State) : StructScan * State :=
  let '(sc, st) := ss in
  let sc := foldl (fun sc el => scanElement packageName fieldName tagText el sc)
              sc (Elements config) in
  foldl (fun ss g => scanGetter filePath packageName field fieldName g ss)
    (sc, st) (Getters config).

(** The body of the loop over [structType.Fields.List]. *)
Definition scanField (filePath packageName : string) (field : Field)
    (ss : StructScan * State) : StructScan * State :=
  if decide (List.length (Names field) = 0) then ss
  else if negb (mustIncludeField field) then ss
  else
    let tagText := fieldTagText field in
    foldl (fun ss fieldName => scanIdent filePath packageName field tagText fieldName ss)
      ss (Names field).

(** The struct model and the four caches as [scanFile] creates them for
    one type declaration. *)
Definition newStructScan (name filePath : string) (line : Z) : StructScan :=
  {| structModel := {| sm_Name := name; sm_File := filePath; sm_LineNumber := line;
                       sm_Constants := []; sm_Structs := []; sm_Getters := [] |};
     constantsByFieldAndElement := ∅;
     noneByFieldAndElement := ∅;
     structByElement := ∅;
     structFieldByFieldAndElement := ∅ |}.

(** The loop over [structType.Fields.List]. *)
Definition scanFields (filePath packageName : string) (typeSpec : TypeSpec)
    (fields : list Field) (st : State) : StructScan * State :=
  foldl (fun ss field => scanField filePath packageName field ss)
    (newStructScan (ts_Name typeSpec) filePath (ts_Line typeSpec), st) fields.

(** The body of the loop over [genDecl.Specs]. *)
Definition scanSpec (filePath packagePath packageName : string) (genDecl : GenDecl)
    (spec : Spec) (st : State) : result State :=
  match spec with
  | SpecOther => Ok st
  | SpecType typeSpec =>
      match ts_Type typeSpec with
      | OtherType => Ok st
      | StructType fields =>
          let '(include, m) := mustIncludeStruct (model st) genDecl typeSpec filePath in
          let st := setModel st m in
          if negb include then Ok st
          else
            let '(sc, st) := scanFields filePath packageName typeSpec fields st in
            let sm := structModel sc in
            if (0 <? List.length (sm_Constants sm))%nat
               || (0 <? List.length (sm_Structs sm))%nat
               || (0 <? List.length (sm_Getters sm))%nat
            then AddStruct R st packagePath packageName sm
            else Ok st
      end
  end.

(** The function [ast.Inspect] applies to every node, at a [GenDecl]. *)
Definition scanDecl (filePath packagePath packageName : string) (genDecl : GenDecl)
    (st : State) : result State :=
  if negb (gd_isType genDecl) then Ok st
  else forEach (Specs genDecl) (scanSpec filePath packagePath packageName genDecl) st.

(** [extractPackagePath]; [filepath.ToSlash] changes nothing where the
    separator is a slash. *)
Definition extractPackagePath (filePath : string) : string :=
  let abs := default filePath (filepath_Abs W filePath) in
  Go.TrimPrefix (filepath_Dir W abs) "./".

(** The best-effort line of a parse error: the position of a
    [scanner.Error], of the first entry of a [scanner.ErrorList], else 0. *)
Definition parseErrorLine (err : GoError) : Z :=
  match err with
  | ScannerError line _ => line
  | ScannerErrorList (line :: _) _ => line
  | _ => 0%Z
  end.

(** [model.FilesScanned++] *)
Definition countFile (st : State) : State :=
  let m := model st in
  setModel st {| Packages := Packages m;
                 FilesScanned := incr (FilesScanned m);
                 PackagesFound := PackagesFound m;
                 StructsFound := StructsFound m;
                 FieldsFound := FieldsFound m;
                 Errors := Errors m |}.

(** [scanFile]: the [error] it returns and the state it leaves. *)
Definition scanFile (filePath : string) (st : State) : result (option GoError * State) :=
  let st := countFile st in
  match ParseFile W filePath with
  | inl err =>
      Ok (None, setModel st
                  (AddError (model st) filePath (parseErrorLine err)
                     ("failed to parse file: " ++ errorText err)))
  | inr node =>
      let packagePath := extractPackagePath filePath in
      let packageName := file_Name node in
      st ← forEach (file_Decls node) (scanDecl filePath packagePath packageName) st;
      Ok (None, st)
  end.

(** *** Source walker *)

(** The function [findPackageFiles] hands to [filepath.Walk], run over the
    entries of the walk: the files gathered and the error that stopped the
    walk, if any. *)
Fixpoint walkPackageFiles (packageName : string) (entries : list WalkEntry)
    (files : list string) : list string * option GoError :=
  match entries with
  | [] => (files, None)
  | e :: rest =>
      match w_err e with
      | Some err => (files, Some err)
      | None =>
          if w_isDir e then walkPackageFiles packageName rest files
          else if negb (Go.HasSuffix (w_path e) ".go") then
            walkPackageFiles packageName rest files
          else
            match ParsePackageClause W (w_path e) with
            | None => walkPackageFiles packageName rest files
            | Some name =>
                if decide (name = packageName)
                then walkPackageFiles packageName rest (files ++ [w_path e])%list
                else walkPackageFiles packageName rest files
            end
      end
  end.

(** [findPackageFiles] *)
Definition findPackageFiles (packageName : string) : list string * option GoError :=
  walkPackageFiles packageName (Walk W (Dir (Input config))) [].

(** [fmt.Errorf] with a message that ends in the text of the wrapped error. *)
Definition wrapError (what : string) (err : GoError) : GoError :=
  OtherError (what ++ ": " ++ errorText err).

(** [expandPattern] *)
Definition expandPattern (pattern : string) : list string * option GoError :=
  if Go.HasPrefix pattern "package:" then
    findPackageFiles (Go.TrimPrefix pattern "package:")
  else
    match Glob W (Dir (Input config)) pattern with
    | inl err => ([], Some (wrapError ("invalid glob pattern " ++ pattern) err))
    | inr matches =>
        (filepath_Join W (Dir (Input config)) <$>
           filter (fun m => Go.HasSuffix m ".go" = true) matches, None)
    end.

(** The two loops of [findFiles] over patterns: every path of every
    pattern goes through [add] into the set; the first pattern that fails
    to expand ends the loop with its error. *)
Fixpoint expandAll (add : string -> gmap string bool -> gmap string bool)
    (patterns : list string) (set : gmap string bool) : GoError + gmap string bool :=
  match patterns with
  | [] => inr set
  | pattern :: rest =>
      match expandPattern pattern with
      | (_, Some err) => inl (wrapError ("failed to expand pattern " ++ pattern) err)
      | (paths, None) => expandAll add rest (foldl (fun set p => add p set) set paths)
      end
  end.

(** [findFiles]; the files come out of a [range] over the inclusion set. *)
Definition findFiles (st : State) : (GoError + list string) * State :=
  match expandAll (fun p set => <[p := true]> set) (Exclude (Input config)) ∅ with
  | inl err => (inl err, st)
  | inr mustExclude =>
      match expandAll
              (fun p set => if default false (mustExclude !! p) then set
                            else <[p := true]> set)
              (Include (Input config)) ∅ with
      | inl err => (inl err, st)
      | inr includeSet =>
          (inr ((order R (ranges st) _ (map_to_list includeSet)).*1),
           {| model := model st; store := store st; ranges := S (ranges st) |})
      end
  end.

(** The loop of [scanFiles]: the first error a [scanFile] returns ends it. *)
Fixpoint scanAll (files : list string) (st : State) : result (option GoError * State) :=
  match files with
  | [] => Ok (None, st)
  | file :: rest =>
      r ← scanFile file st;
      match r with
      | (Some err, st) => Ok (Some err, st)
      | (None, st) => scanAll rest st
      end
  end.

(** [scanFiles] *)
Definition scanFiles (st : State) : result (option GoError * State) :=
  match findFiles st with
  | (inl err, st) => Ok (Some err, st)
  | (inr files, st) => scanAll files st
  end.

End Scanner.

(** [NewModelBuilder] followed by [Build]: the model, or the error. *)
Definition Build (W : World) (R : RangeOrder) (config : Config) : result (GoError + Model) :=
  r ← scanFiles W R config {| model := NewModel; store := []; ranges := 0 |};
  match r with
  | (Some err, _) => Ok (inl err)
  | (None, st) => Ok (inr (model st))
  end.

(** ** A small world to run the engine in

    Concrete oracles for the examples below: one source file, a tag reader
    and a path joiner. *)

Definition dquote : ascii := ascii_of_nat 34.

Inductive tagPhase :=
| InKey (name : string)
| InValue (name value : string).

(** [reflect.StructTag.Get] on tags of the conventional form
    [key:"value" key:"value"] whose values carry no escape sequence. *)
Fixpoint tagScan (key : string) (ph : tagPhase) (s : string) : string :=
  match s with
  | EmptyString => ""
  | String c r =>
      match ph with
      | InKey name =>
          if bool_decide (c = " "%char) && bool_decide (name = "") then tagScan key (InKey "") r
          else if bool_decide (c = ":"%char) then
            if bool_decide (name = "") then ""
            else match r with
                 | String q r' =>
                     if bool_decide (q = dquote) then tagScan key (InValue name "") r' else ""
                 | EmptyString => ""
                 end
          else if (nat_of_ascii c <=? 32)%nat || bool_decide (c = dquote)
                  || bool_decide (nat_of_ascii c = 127) then ""
          else tagScan key (InKey (name ++ String c "")) r
      | InValue name value =>
          if bool_decide (c = dquote) then
            if bool_decide (name = key) then value else tagScan key (InKey "") r
          else if bool_decide (c = "\"%char) then ""
          else tagScan key (InValue name (value ++ String c "")) r
      end
  end.

Definition tagGet (tags key : string) : string := tagScan key (InKey "") tags.

Definition joinPath (dir m : string) : string :=
  if decide (dir = "") then m else dir ++ "/" ++ m.

Definition sampleWorld (parse : string -> GoError + File)
    (resolve : string -> Field -> string -> string -> option (string * string * string))
    : World :=
  {| ParseFile := parse;
     ParsePackageClause := fun _ => None;
     StructTag_Get := tagGet;
     Glob := fun _ _ => inr ["a.go"; "b.txt"; "sub/c.go"];
     Walk := fun _ => [];
     filepath_Join := joinPath;
     filepath_Abs := Some;
     filepath_Dir := fun _ => "pkg";
     resolveValue := resolve |}.

Definition noFile (_ : string) : GoError + File :=
  inl (ScannerErrorList [7%Z] "x.go:7:1: expected declaration").

Definition noValue (_ : string) (_ : Field) (_ _ : string)
    : option (string * string * string) := None.

(** Two range orders: the order of the map's listing, and its reverse. *)
Definition inOrder : RangeOrder :=
  {| order := fun _ _ l => l;
     order_perm := fun _ _ l => reflexivity l |}.

Definition reversed : RangeOrder :=
  {| order := fun _ _ l => reverse l;
     order_perm := fun _ _ l => reverse_Permutation l |}.

Definition flags (explicit includeUnexported : bool) : ConfigInputStruct :=
  {| cis_Explicit := Some explicit; cis_IncludeUnexported := Some includeUnexported |}.

Definition fieldFlags (explicit includeUnexported : bool) : ConfigInputField :=
  {| cif_Explicit := Some explicit; cif_IncludeUnexported := Some includeUnexported |}.

Definition sampleConfig (s : ConfigInputStruct) (f : ConfigInputField)
    (els : list ConfigTag) (gs : list ConfigGetter) : Config :=
  {| Input := {| Include := ["**/*.go"]; Exclude := ["**/*_test.go"]; Dir := ".";
                 InStruct := s; InField := f |};
     Elements := els;
     Getters := gs |}.

(** The comments attached to a struct declaration, declaration first. *)
Definition comments (genDecl : GenDecl) (typeSpec : TypeSpec) : list string :=
  (default [] (gd_Doc genDecl) ++ default [] (ts_Doc typeSpec))%list.

(** The test [checkCommentGroup] makes on one comment. *)
Definition hasDirective (marker comment : string) : bool :=
  Go.Contains (Go.TrimSpace comment) marker.

Definition declPlain : GenDecl :=
  {| gd_isType := true; gd_Doc := Some ["// user is a record"]; Specs := [] |}.

Definition declBoth : GenDecl :=
  {| gd_isType := true;
     gd_Doc := Some ["//constago:include"; "// constago:exclude"];
     Specs := [] |}.

Definition specUser (name : string) (doc : option (list string)) (fields : list Field) : TypeSpec :=
  {| ts_Name := name; ts_Doc := doc; ts_Line := 3; ts_Type := StructType fields |}.

(** [key:"value"] *)
Definition tagPair (key value : string) : string :=
  key ++ ":" ++ String dquote value ++ String dquote "".

(** A tag literal: the pairs, separated by spaces, between back quotes. *)
Definition tagLiteral (pairs : list string) : string := "`" ++ Go.Join pairs " " ++ "`".

Definition fieldOf (name : string) (pairs : list string) : Field :=
  {| Names := [name]; Tag := Some (tagLiteral pairs); Type_ := "string" |}.

Definition emptyState : State := {| model := NewModel; store := []; ranges := 0 |}.

(** A path that ends in ".go". *)
Definition goFile (path : string) : Prop := Go.HasSuffix path ".go" = true.

(** Every path of an inclusion or exclusion set ends in ".go". *)
Definition keysGo (set : gmap string bool) : Prop := map_Forall (fun p _ => goFile p) set.

(** Can the token [ret] of a getter be served for the field?  [:value]
    needs the field's type; any other token with the sigil is passed over;
    an element name needs an entry in one of the three caches. *)
Definition satisfied (W : World) (filePath packageName : string) (field : Field)
    (fieldName : string) (sc : StructScan) (ret : string) : bool :=
  if Go.HasPrefix ret ":" then
    bool_decide (ret = ":value")
    && bool_decide (is_Some (resolveValue W filePath field fieldName packageName))
  else
    bool_decide (is_Some (lookup2 (constantsByFieldAndElement sc) fieldName ret))
    || bool_decide (is_Some (lookup2 (noneByFieldAndElement sc) fieldName ret))
    || bool_decide (is_Some (lookup2 (structFieldByFieldAndElement sc) fieldName ret)).

(** The two ways the specification names for a token to be unsatisfiable. *)
Definition unsatisfiable (W : World) (filePath packageName : string) (field : Field)
    (fieldName : string) (sc : StructScan) (ret : string) : Prop :=
  (ret = ":value" ∧ resolveValue W filePath field fieldName packageName = None) ∨
  (Go.HasPrefix ret ":" = false ∧
   lookup2 (constantsByFieldAndElement sc) fieldName ret = None ∧
   lookup2 (noneByFieldAndElement sc) fieldName ret = None ∧
   lookup2 (structFieldByFieldAndElement sc) fieldName ret = None).

(** Two scans agree on everything a getter reads, up to the names of the
    none-outputs. *)
Definition sameCaches (sc sc' : StructScan) : Prop :=
  structModel sc' = structModel sc ∧
  constantsByFieldAndElement sc' = constantsByFieldAndElement sc ∧
  structByElement sc' = structByElement sc ∧
  structFieldByFieldAndElement sc' = structFieldByFieldAndElement sc ∧
  ∀ f r, is_Some (lookup2 (noneByFieldAndElement sc') f r)
         ↔ is_Some (lookup2 (noneByFieldAndElement sc) f r).

(** The number of tokens that can be served. *)
Definition countSatisfied (W : World) (filePath packageName : string) (field : Field)
    (fieldName : string) (sc : StructScan) (rets : list string) : nat :=
  List.length (filter (fun ret => satisfied W filePath packageName field fieldName sc ret = true) rets).

(** An element [json], read from the [json] tag, with the default formats. *)
Definition jsonElement (mode : OutputModeType) : ConfigTag :=
  {| el_Name := "json";
     el_Input := {| in_Mode := InputModeTypeTag; TagPriority := ["json"] |};
     el_Output :=
       {| out_Mode := mode;
          Format := {| Holder := ConstantFormatPascal; fmt_Struct := ConstantFormatPascal;
                       fmt_Prefix := "json"; fmt_Suffix := "" |};
          Transform := {| TagValues := Some false; ValueCase := TransformCaseAsIs;
                          ValueSeparator := "" |} |} |}.

Definition getterOf (name : string) (returns : list string) : ConfigGetter :=
  {| g_Name := name; Returns := returns;
     g_Output := {| g_Prefix := name; g_Suffix := ""; g_Format := ConstantFormatPascal |} |}.

(** The fields of [struct { _ int `json:"a"`; _ int }]. *)
Definition blankFields : list Field :=
  [ {| Names := ["_"]; Tag := Some (tagLiteral [tagPair "json" "a"]); Type_ := "int" |};
    {| Names := ["_"]; Tag := None; Type_ := "int" |} ].

Definition blankConfig : Config :=
  sampleConfig (flags false false) (fieldFlags false true)
    [jsonElement OutputModeConstant] [getterOf "Get" ["json"]].

(** A world in which nothing parses and no field type resolves. *)
Definition plainWorld : World := sampleWorld noFile noValue.

(** Nothing was produced for the field name and the element name. *)
Definition noEntry (sc : StructScan) (fieldName name : string) : Prop :=
  lookup2 (constantsByFieldAndElement sc) fieldName name = None ∧
  lookup2 (noneByFieldAndElement sc) fieldName name = None ∧
  lookup2 (structFieldByFieldAndElement sc) fieldName name = None.

(** A world in which every field is of the built-in type [string]. *)
Definition stringValue (_ : string) (_ : Field) (_ packageName : string)
    : option (string * string * string) :=
  Some ("string", "", packageName).

(** Do all the bytes of [s] satisfy [P]? *)
Fixpoint allRunes (P : ascii → bool) (s : string) : bool :=
  match s with
  | EmptyString => true
  | String c r => P c && allRunes P r
  end.

(** The words of "correct pascal casing" as the specification words it:
    an upper-case letter followed by characters that are not upper case. *)
Definition pascalWord (w : string) : bool :=
  match w with
  | String c rest => Go.IsUpper c && allRunes (fun x => negb (Go.IsUpper x)) rest
  | EmptyString => false
  end.

Definition lowerOrDigit (x : ascii) : bool := Go.IsLower x || Go.IsDigit x.

(** The same with the tail narrowed: at least one character, each a
    lower-case letter or a digit. *)
Definition properWord (w : string) : bool :=
  match w with
  | String c (String d rest) => Go.IsUpper c && allRunes lowerOrDigit (String d rest)
  | _ => false
  end.

(** The words written one after the other. *)
Definition concatWords (ws : list string) : string := foldr String.append "" ws.

(** The byte before the current one, if any, is not upper case. *)
Definition calm (prev : option ascii) : Prop := from_option Go.IsUpper false prev = false.

(** The byte before the position reached after [t], [prev] being the one
    before [t]. *)
Fixpoint lastRune (prev : option ascii) (t : string) : option ascii :=
  match t with
  | EmptyString => prev
  | String x r => lastRune (Some x) r
  end.

(** [name] with [k] underscores in front. *)
Definition prefixed (k : nat) (name : string) : string := Nat.iter k (String "_"%char) name.

(** Does the object at [l] clash with [name] requested for the object at
    [cur]? *)
Definition hit (h : list TypePackageOutput) (cur l : loc) (name : string) : bool :=
  match h !! l, h !! cur with
  | Some imp, Some c => clashes imp c name
  | _, _ => false
  end.

(** Some entry of the import map clashes with [name]. *)
Definition taken (h : list TypePackageOutput) (imports : gmap string loc)
    (cur : loc) (name : string) : Prop :=
  ∃ p l, imports !! p = Some l ∧ hit h cur l name = true.

(** [taken], as a test over the entries of the map. *)
Definition takenb (h : list TypePackageOutput) (imports : gmap string loc)
    (cur : loc) (name : string) : bool :=
  existsb (fun e => hit h cur e.2 name) (map_to_list imports).

(** [d] is the least number of underscores that makes [name] free. *)
Definition leastFree (h : list TypePackageOutput) (imports : gmap string loc)
    (cur : loc) (name : string) (d : nat) : Prop :=
  (∀ i, (i < d)%nat → taken h imports cur (prefixed i name)) ∧
  ¬ taken h imports cur (prefixed d name).

(** Every entry of the import map points into the store. *)
Definition inStore (h : list TypePackageOutput) (imports : gmap string loc) : Prop :=
  ∀ p l, imports !! p = Some l → is_Some (h !! l).

(** The length of the longest name or alias in the store. *)
Definition maxLen (h : list TypePackageOutput) : nat :=
  foldr (fun t n => (String.length (tp_Name t) `max` String.length (tp_Alias t)) `max` n) 0%nat h.

(** The identifier an import goes by: its alias if it has one, else its
    name. *)
Definition effective (t : TypePackageOutput) : string :=
  if decide (tp_Alias t = "") then tp_Name t else tp_Alias t.

(** The invariant of an import map: an entry sits under its own path, and
    no two entries go by the same identifier. *)
Definition importsOk (h : list TypePackageOutput) (imports : gmap string loc) : Prop :=
  (∀ p l, imports !! p = Some l → ∃ t, h !! l = Some t ∧ tp_Path t = p) ∧
  (∀ p1 p2 l1 l2 t1 t2,
     p1 ≠ p2 → imports !! p1 = Some l1 → imports !! p2 = Some l2 →
     h !! l1 = Some t1 → h !! l2 = Some t2 → effective t1 ≠ effective t2).

(** No entry of the map is one of the locations [F]. *)
Definition apartFrom (F : list loc) (imports : gmap string loc) : Prop :=
  ∀ p l, imports !! p = Some l → l ∉ F.

(** The package with another import map. *)
Definition withImports (pkg : PackageModel) (imports : gmap string loc) : PackageModel :=
  {| pm_Name := pm_Name pkg; pm_Path := pm_Path pkg;
     pm_Imports := imports; pm_Structs := pm_Structs pkg |}.

Definition valueOf (r : ReturnOutput) : option ValueOutput :=
  match r with ReturnValue v => Some v | _ => None end.

(** The value returns of a struct, in the order [AddStruct] visits them. *)
Definition values (sm : StructModel) : list ValueOutput := omap valueOf (returnValues sm).

(** The package objects they point to. *)
Definition valueLocs (sm : StructModel) : list loc := TypePackage <$> values sm.

(** The locations [F] hold package objects that are not yet registered
    anywhere and have no alias. *)
Definition fresh (h : list TypePackageOutput) (F : list loc) : Prop :=
  NoDup F ∧ ∀ l, l ∈ F → ∃ t, h !! l = Some t ∧ tp_Alias t = "".

(** The invariant of the aggregator, [F] being the package objects of the
    structs still to be added. *)
Definition aggregatorOk (st : State) (F : list loc) : Prop :=
  fresh (store st) F ∧
  ∀ path pkg, Packages (model st) !! path = Some pkg →
    importsOk (store st) (pm_Imports pkg) ∧ apartFrom F (pm_Imports pkg).

(** A run of [AddStruct] calls, each with its package path, package name
    and struct. *)
Definition AddStructs (R : RangeOrder) (calls : list (string * string * StructModel))
    (st : State) : result State :=
  forEach calls (fun '(packagePath, packageName, sm) st =>
                   AddStruct R st packagePath packageName sm) st.

(** What registering the package object of [v] does to an import map and
    the store: nothing if the path is there already; otherwise the object
    is entered under its path, and gets as alias its name with the least
    number of underscores, if any is needed, that nothing else goes by. *)
Definition registeredOne (v : ValueOutput)
    (a b : gmap string loc * list TypePackageOutput) : Prop :=
  ∃ tp, a.2 !! TypePackage v = Some tp ∧
    match a.1 !! tp_Path tp with
    | Some _ => b = a
    | None =>
        b.1 = <[tp_Path tp := TypePackage v]> a.1 ∧
        ∃ d, leastFree a.2 b.1 (TypePackage v) (tp_Name tp) d ∧
             b.2 = match d with
                   | O => a.2
                   | S _ => <[TypePackage v := setAlias tp (prefixed d (tp_Name tp))]> a.2
                   end
    end.

(** [registeredOne] for each value in turn. *)
Fixpoint registered (vs : list ValueOutput)
    (a b : gmap string loc * list TypePackageOutput) : Prop :=
  match vs with
  | [] => b = a
  | v :: vs => ∃ a', registeredOne v a a' ∧ registered vs a' b
  end.

(** The import map of the package at [path], empty when there is none. *)
Definition importsAt (st : State) (path : string) : gmap string loc :=
  from_option pm_Imports ∅ (Packages (model st) !! path).

(** A package named [strings] at an import path. *)
Definition stringsAt (path alias : string) : TypePackageOutput :=
  {| tp_Path := path; tp_Name := "strings"; tp_Alias := alias |}.

(** A struct model whose only outputs are getters returning the values at
    the given locations of the store. *)
Definition structWithValues (name : string) (locs : list loc) : StructModel :=
  {| sm_Name := name; sm_File := "x.go"; sm_LineNumber := 3;
     sm_Constants := []; sm_Structs := [];
     sm_Getters :=
       [ {| go_Name := "Get";
            go_Returns :=
              (fun l => ReturnValue {| FieldName := "F"; TypeName := "strings.Builder";
                                       TypePackage := l |}) <$> locs |} ] |}.

Definition threeStrings : list TypePackageOutput :=
  [stringsAt "strings" ""; stringsAt "a/strings" ""; stringsAt "b/strings" ""].

(** The package objects a list of returns points to. *)
Definition retLocs (rs : list ReturnOutput) : list loc := TypePackage <$> omap valueOf rs.

(** The store [h] is [h0] with package objects without alias added. *)
Definition grown (h0 h : list TypePackageOutput) : Prop :=
  ∃ extra, h = (h0 ++ extra)%list ∧ Forall (fun t => tp_Alias t = "") extra.

(** The locations [ls] are distinct and were added to [h0] to make [h]. *)
Definition added (h0 h : list TypePackageOutput) (ls : list loc) : Prop :=
  NoDup ls ∧ ∀ l, l ∈ ls → (List.length h0 ≤ l < List.length h)%nat.

(** The invariant of the scan of one struct, begun with the store [h0]. *)
Definition scanOk (h0 : list TypePackageOutput) (ss : StructScan * State) : Prop :=
  grown h0 (store ss.2) ∧ added h0 (store ss.2) (valueLocs (structModel ss.1)).

(** ** Notions for the properties of a run *)

(** An integer as a Go [int]: 64 bits, two's complement. *)
Definition int (z : Z) : Z := ((z + 2 ^ 63) mod 2 ^ 64 - 2 ^ 63)%Z.

(** The test [scanFile] makes before it hands a struct to [AddStruct]. *)
Definition hasOutput (sm : StructModel) : bool :=
  (0 <? List.length (sm_Constants sm))%nat
  || (0 <? List.length (sm_Structs sm))%nat
  || (0 <? List.length (sm_Getters sm))%nat.

(** The number of structs in the packages of a model. *)
Definition structCount (m : Model) : nat :=
  map_fold (fun _ pkg n => (List.length (pm_Structs pkg) + n)%nat) 0%nat (Packages m).

(** The model with [FilesScanned] counted up, as [scanFile] begins. *)
Definition withFile (m : Model) : Model :=
  {| Packages := Packages m;
     FilesScanned := incr (FilesScanned m);
     PackagesFound := PackagesFound m;
     StructsFound := StructsFound m;
     FieldsFound := FieldsFound m;
     Errors := Errors m |}.

(** The model as [AddStruct] leaves it, [imports] being the import map the
    package ends with. *)
Definition withStruct (m : Model) (path name : string) (sm : StructModel)
    (imports : gmap string loc) : Model :=
  let old := Packages m !! path in
  {| Packages :=
       <[path := {| pm_Name := from_option pm_Name name old;
                    pm_Path := from_option pm_Path path old;
                    pm_Imports := imports;
                    pm_Structs := (from_option pm_Structs [] old ++ [sm])%list |}]>
         (Packages m);
     FilesScanned := FilesScanned m;
     PackagesFound := match old with
                      | Some _ => PackagesFound m
                      | None => incr (PackagesFound m)
                      end;
     StructsFound := incr (StructsFound m);
     FieldsFound := FieldsFound m;
     Errors := Errors m |}.

(** The steps by which a run changes its model: a file is counted; a file
    that does not parse is recorded; a struct declaration with both
    directives is recorded; the struct scanned from a declaration that the
    policy admits, and that has some output, is added under the package
    path of its file. *)
Inductive change (W : World) (config : Config) (m : Model) : Model -> Prop :=
| change_file : change W config m (withFile m)
| change_parse_error file err :
    ParseFile W file = inl err ->
    change W config m
      (AddError m file (parseErrorLine err) ("failed to parse file: " ++ errorText err))
| change_both file node genDecl typeSpec fields :
    ParseFile W file = inr node ->
    genDecl ∈ file_Decls node ->
    gd_isType genDecl = true ->
    SpecType typeSpec ∈ Specs genDecl ->
    ts_Type typeSpec = StructType fields ->
    structDirectives genDecl typeSpec = (true, true) ->
    change W config m
      (AddError m file (ts_Line typeSpec) "struct has both include and exclude directives")
| change_struct file node genDecl typeSpec fields st imports :
    ParseFile W file = inr node ->
    genDecl ∈ file_Decls node ->
    gd_isType genDecl = true ->
    SpecType typeSpec ∈ Specs genDecl ->
    ts_Type typeSpec = StructType fields ->
    (mustIncludeStruct config m genDecl typeSpec file).1 = true ->
    hasOutput (structModel (scanFields W config file (file_Name node) typeSpec fields st).1)
      = true ->
    change W config m
      (withStruct m (extractPackagePath W file) (file_Name node)
         (structModel (scanFields W config file (file_Name node) typeSpec fields st).1)
         imports).

(** A struct output as the scan keeps it: in the package of the file, with
    one field at least, each field naming its holder and carrying a value. *)
Definition structOutputOk (packageName : string) (so : StructOutput) : Prop :=
  so_Package so = packageName ∧ so_Fields so ≠ [] ∧
  Forall (fun f => f_StructName f = so_Name so ∧ f_Value f ≠ "") (so_Fields so).

(** The invariant of the scan of one struct: the header is that of the
    declaration, the struct outputs are in order, no constant is empty,
    and [structByElement] points at struct outputs of the model. *)
Definition structScanOk (name filePath : string) (line : Z) (packageName : string)
    (sc : StructScan) : Prop :=
  let sm := structModel sc in
  (sm_Name sm = name ∧ sm_File sm = filePath ∧ sm_LineNumber sm = line) ∧
  Forall (structOutputOk packageName) (sm_Structs sm) ∧
  Forall (fun c => c_Value c ≠ "") (sm_Constants sm) ∧
  ∀ el i, structByElement sc !! el = Some i → (i < List.length (sm_Structs sm))%nat.

(** A struct of the model comes from a declaration: a struct type, declared
    in a file that parses, which the inclusion policy admits, under the
    package path of the file, with the name, the file and the line of the
    declaration. *)
Definition declaredIn (W : World) (config : Config) (path : string) (sm : StructModel) : Prop :=
  ∃ file node genDecl typeSpec fields,
    ParseFile W file = inr node ∧
    genDecl ∈ file_Decls node ∧ gd_isType genDecl = true ∧
    SpecType typeSpec ∈ Specs genDecl ∧ ts_Type typeSpec = StructType fields ∧
    (mustIncludeStruct config NewModel genDecl typeSpec file).1 = true ∧
    extractPackagePath W file = path ∧
    sm_Name sm = ts_Name typeSpec ∧ sm_File sm = file ∧
    sm_LineNumber sm = ts_Line typeSpec.

(** One of the two errors a scan records: a file that does not parse, or
    a struct declaration that carries both directives. *)
Definition knownError (W : World) (e : ScanError) : Prop :=
  (∃ err, ParseFile W (se_File e) = inl err ∧
          se_Line e = parseErrorLine err ∧
          se_Message e = "failed to parse file: " ++ errorText err) ∨
  (∃ node genDecl typeSpec fields,
      ParseFile W (se_File e) = inr node ∧
      genDecl ∈ file_Decls node ∧ gd_isType genDecl = true ∧
      SpecType typeSpec ∈ Specs genDecl ∧ ts_Type typeSpec = StructType fields ∧
      structDirectives genDecl typeSpec = (true, true) ∧
      se_Line e = ts_Line typeSpec ∧
      se_Message e = "struct has both include and exclude directives").

(** The invariant of the packages of a model: a package sits under its own
    path and is not empty, and each of its structs has some output and
    comes from a declaration. *)
Definition packagesOk (W : World) (config : Config) (m : Model) : Prop :=
  ∀ path pkg, Packages m !! path = Some pkg →
    pm_Path pkg = path ∧ pm_Structs pkg ≠ [] ∧
    ∀ sm, sm ∈ pm_Structs pkg → hasOutput sm = true ∧ declaredIn W config path sm.

(** All paths the patterns expand to, pattern by pattern. *)
Definition allPaths (W : World) (config : Config) (patterns : list string) : list string :=
  pattern ← patterns; (expandPattern W config pattern).1.

(** The first pattern that fails to expand, with its error. *)
Fixpoint firstFailure (W : World) (config : Config) (patterns : list string)
    : option (string * GoError) :=
  match patterns with
  | [] => None
  | pattern :: rest =>
      match (expandPattern W config pattern).2 with
      | Some err => Some (pattern, err)
      | None => firstFailure W config rest
      end
  end.

(** The entries of a walk up to the first one that comes with an error. *)
Fixpoint beforeError (entries : list WalkEntry) : list WalkEntry :=
  match entries with
  | [] => []
  | e :: rest =>
      match w_err e with
      | Some _ => []
      | None => e :: beforeError rest
      end
  end.

(** Is the entry a Go file whose package clause reads [packageName]? *)
Definition inPackage (W : World) (packageName : string) (e : WalkEntry) : bool :=
  negb (w_isDir e) && Go.HasSuffix (w_path e) ".go"
  && bool_decide (ParsePackageClause W (w_path e) = Some packageName).

(** A directory with three Go files, one of them a test, and some notes;
    [a.go] declares [User] with one tagged field, [b.go] does not parse. *)
Definition userFile : File :=
  {| file_Name := "main";
     file_Decls :=
       [ {| gd_isType := true; gd_Doc := None;
            Specs := [SpecType (specUser "User" None
                                  [fieldOf "Name" [tagPair "json" "name"]])] |} ] |}.

Definition treeWorld : World :=
  {| ParseFile := fun path =>
       if decide (path = "./a.go") then inr userFile
       else inl (ScannerErrorList [7%Z] (path ++ ":7:1: expected declaration"));
     ParsePackageClause := fun path =>
       if decide (path = "a.go") then Some "main"
       else if decide (path = "a_test.go") then Some "main_test"
       else None;
     StructTag_Get := tagGet;
     Glob := fun _ pattern =>
       if decide (pattern = "**/*_test.go") then inr ["a_test.go"]
       else if decide (pattern = "[") then inl (OtherError "syntax error in pattern")
       else inr ["a.go"; "a_test.go"; "b.go"; "notes.txt"];
     Walk := fun _ =>
       [ {| w_path := "."; w_isDir := true; w_err := None |};
         {| w_path := "a.go"; w_isDir := false; w_err := None |};
         {| w_path := "a_test.go"; w_isDir := false; w_err := None |};
         {| w_path := "b.go"; w_isDir := false; w_err := None |};
         {| w_path := "notes.txt"; w_isDir := false; w_err := None |} ];
     filepath_Join := joinPath;
     filepath_Abs := Some;
     filepath_Dir := fun _ => "pkg";
     resolveValue := noValue |}.

Definition treeConfig : Config :=
  sampleConfig (flags false false) (fieldFlags false false)
    [jsonElement OutputModeConstant] [getterOf "Get" ["json"]].

(** A state with one package, [main] under the path [pkg], holding the
    struct [A]. *)
Definition onePackage : State :=
  {| model :=
       {| Packages :=
            {[ "pkg" := {| pm_Name := "main"; pm_Path := "pkg"; pm_Imports := ∅;
                           pm_Structs := [structWithValues "A" []] |} ]};
          FilesScanned := 1; PackagesFound := 1; StructsFound := 1; FieldsFound := 0;
          Errors := [] |};
     store := [];
     ranges := 0 |}.

(** ** Identifiers ([lib/utils.go]) *)

(** The test [isValidGoIdentifier] makes on the first byte, and on each of
    the others. *)
Definition isIdentStart (c : ascii) : bool :=
  Go.byte_in 97 122 c || Go.byte_in 65 90 c || bool_decide (c = "_"%char).

Definition isIdentPart (c : ascii) : bool :=
  Go.byte_in 97 122 c || Go.byte_in 65 90 c || Go.byte_in 48 57 c
  || bool_decide (c = "_"%char).

(** [isValidGoIdentifier] *)
Definition isValidGoIdentifier (s : string) : bool :=
  match s with
  | EmptyString => false
  | String c rest => isIdentStart c && allRunes isIdentPart rest
  end.

(** The string without its word separators. *)
Fixpoint dropSeparators (s : string) : string :=
  match s with
  | EmptyString => EmptyString
  | String c r => if isSeparator c then dropSeparators r else String c (dropSeparators r)
  end.

(** Does the string begin with a letter? *)
Definition beginsWithLetter (s : string) : bool :=
  match s with
  | String c _ => Go.IsLetter c
  | EmptyString => false
  end.

(** A letter or a digit. *)
Definition isAlnum (c : ascii) : bool := Go.IsLetter c || Go.IsDigit c.
(** ** More of the Go library *)

Module GoLib.

(** [strings.Split(s, sep)] for a separator of one byte. *)
Fixpoint Split (s : string) (sep : ascii) : list string :=
  match s with
  | EmptyString => [""]
  | String x r =>
      if decide (x = sep) then "" :: Split r sep
      else match Split r sep with
           | w :: ws => String x w :: ws
           | [] => [String x ""]
           end
  end.

End GoLib.

(** [importPathHasSegment] *)
Definition importPathHasSegment (path seg : string) : bool :=
  if decide (seg = "") then false
  else existsb (fun p => bool_decide (p = seg)) (GoLib.Split path "/").

(** Does the byte [c] occur nowhere in the string? *)
Definition without (c : ascii) (s : string) : bool :=
  allRunes (fun x => negb (bool_decide (x = c))) s.

(** ** Configuration defaults ([lib/config.go]) *)

(** The text of a value of each string enumeration. *)
Definition inputModeText (m : InputModeType) : string :=
  match m with
  | InputModeTypeTagThenField => "tagThenField"
  | InputModeTypeField => "field"
  | InputModeTypeTag => "tag"
  | InputModeTypeOther s => s
  end.

Definition outputModeText (m : OutputModeType) : string :=
  match m with
  | OutputModeNone => "none"
  | OutputModeStruct => "struct"
  | OutputModeConstant => "constant"
  | OutputModeOther s => s
  end.

Definition formatText (f : ConstantFormatType) : string :=
  match f with
  | ConstantFormatCamel => "camel"
  | ConstantFormatPascal => "pascal"
  | ConstantFormatSnake => "snake"
  | ConstantFormatSnakeUpper => "snakeUpper"
  | ConstantFormatOther s => s
  end.

Definition caseText (c : TransformCaseType) : string :=
  match c with
  | TransformCaseAsIs => "asIs"
  | TransformCaseCamel => "camel"
  | TransformCasePascal => "pascal"
  | TransformCaseUpper => "upper"
  | TransformCaseLower => "lower"
  | TransformCaseOther s => s
  end.

(** [isStringBlank] *)
Definition isStringBlank (s : string) : bool :=
  bool_decide (String.length (Go.TrimSpace s) = 0%nat).

(** [config.output] *)
Record ConfigOutput := { FileName : string }.

(** The [Config] struct whole: the fields the scanner reads, and [Output]. *)
Record ConfigFile := {
  cf_Scan : Config;
  cf_Output : ConfigOutput }.

(** [if p == nil { p = boolPtr(false) }] *)
Definition orFalse (p : option bool) : option bool :=
  match p with
  | None => Some false
  | Some b => Some b
  end.

(** The body of the loop of [setDefaults] over [config.Elements]. *)
Definition elementDefaults (element : ConfigTag) : ConfigTag :=
  let input := el_Input element in
  let output := el_Output element in
  let format := Format output in
  let transform := Transform output in
  {| el_Name := el_Name element;
     el_Input :=
       {| in_Mode := if decide (inputModeText (in_Mode input) = "")
                     then InputModeTypeTagThenField else in_Mode input;
          TagPriority := if decide (List.length (TagPriority input) = 0%nat)
                         then ["field"; "json"; "xml"; "yaml"; "toml"; "sql"]
                         else TagPriority input |};
     el_Output :=
       {| out_Mode := if decide (outputModeText (out_Mode output) = "")
                      then OutputModeConstant else out_Mode output;
          Format :=
            {| Holder := if decide (formatText (Holder format) = "")
                         then ConstantFormatPascal else Holder format;
               fmt_Struct := if decide (formatText (fmt_Struct format) = "")
                             then ConstantFormatPascal else fmt_Struct format;
               fmt_Prefix := if isStringBlank (fmt_Prefix format)
                             then el_Name element else fmt_Prefix format;
               fmt_Suffix := if isStringBlank (fmt_Suffix format)
                             then "" else fmt_Suffix format |};
          Transform :=
            {| TagValues := orFalse (TagValues transform);
               ValueCase := if decide (caseText (ValueCase transform) = "")
                            then TransformCaseAsIs else ValueCase transform;
               ValueSeparator := if decide (ValueSeparator transform = "")
                                 then "" else ValueSeparator transform |} |} |}.

(** The body of the loop of [setDefaults] over [config.Getters]. *)
Definition getterDefaults (getter : ConfigGetter) : ConfigGetter :=
  let output := g_Output getter in
  {| g_Name := g_Name getter;
     Returns := Returns getter;
     g_Output :=
       {| g_Prefix := if isStringBlank (g_Prefix output) then g_Name getter
                      else g_Prefix output;
          g_Suffix := g_Suffix output;
          g_Format := if isStringBlank (formatText (g_Format output))
                      then ConstantFormatPascal else g_Format output |} |}.

(** [Config.setDefaults] *)
Definition setDefaults (config : ConfigFile) : ConfigFile :=
  let input := Input (cf_Scan config) in
  {| cf_Scan :=
       {| Input :=
            {| Include := if decide (List.length (Include input) = 0%nat)
                          then ["**/*.go"] else Include input;
               Exclude := if decide (List.length (Exclude input) = 0%nat)
                          then ["**/*_test.go"] else Exclude input;
               Dir := if isStringBlank (Dir input) then "." else Dir input;
               InStruct :=
                 {| cis_Explicit := orFalse (cis_Explicit (InStruct input));
                    cis_IncludeUnexported :=
                      orFalse (cis_IncludeUnexported (InStruct input)) |};
               InField :=
                 {| cif_Explicit := orFalse (cif_Explicit (InField input));
                    cif_IncludeUnexported :=
                      orFalse (cif_IncludeUnexported (InField input)) |} |};
          Elements := elementDefaults <$> Elements (cf_Scan config);
          Getters := getterDefaults <$> Getters (cf_Scan config) |};
     cf_Output :=
       {| FileName := if isStringBlank (FileName (cf_Output config))
                      then "constago_gen.go" else FileName (cf_Output config) |} |}.

(** A configuration file that sets nothing but the name of one element and
    of one getter over it. *)
Definition bareConfig : ConfigFile :=
  {| cf_Scan :=
       {| Input := {| Include := []; Exclude := []; Dir := "";
                      InStruct := {| cis_Explicit := None; cis_IncludeUnexported := None |};
                      InField := {| cif_Explicit := None; cif_IncludeUnexported := None |} |};
          Elements :=
            [ {| el_Name := "json";
                 el_Input := {| in_Mode := InputModeTypeOther ""; TagPriority := [] |};
                 el_Output :=
                   {| out_Mode := OutputModeOther "";
                      Format := {| Holder := ConstantFormatOther "";
                                   fmt_Struct := ConstantFormatOther "";
                                   fmt_Prefix := ""; fmt_Suffix := "  " |};
                      Transform := {| TagValues := None; ValueCase := TransformCaseOther "";
                                      ValueSeparator := "" |} |} |} ];
          Getters :=
            [ {| g_Name := "Get"; Returns := ["json"];
                 g_Output := {| g_Prefix := " "; g_Suffix := "";
                                g_Format := ConstantFormatOther "" |} |} ] |};
     cf_Output := {| FileName := "" |} |}.

(** ** Import resolution ([lib/model_builder.go], second half) *)

Module GoText.

(** [strings.Trim(s, cutset)] for a cutset of one byte. *)
Fixpoint trim_left (c : ascii) (s : string) : string :=
  match s with
  | String x r => if decide (x = c) then trim_left c r else s
  | EmptyString => EmptyString
  end.

Definition Trim (s : string) (c : ascii) : string :=
  String.rev (trim_left c (String.rev (trim_left c s))).

(** [s[strings.LastIndex(s, sep)+1:]] when [sep] occurs in [s], else [s]:
    the text after the last separator. *)
Definition afterLast (s : string) (sep : ascii) : string :=
  List.last (GoLib.Split s sep) s.

(** [strings.SplitN(s, sep, 2)[0]] and [strings.Split(s, sep)[0]]: the
    text before the first separator. *)
Definition beforeFirst (s : string) (sep : ascii) : string :=
  hd s (GoLib.Split s sep).

End GoText.

Module Resolver.

(** What import resolution asks of the operating system and the Go tool. *)
Record DirEntry := {
  de_Name : string;
  de_IsDir : bool }.

Record Env := {
  (** [os.Stat(path)] returned no error. *)
  os_Stat : string -> bool;
  (** [os.ReadFile], [None] on an error. *)
  os_ReadFile : string -> option string;
  (** [os.ReadDir], [None] on an error. *)
  os_ReadDir : string -> option (list DirEntry);
  (** The output of [go list -f {{.Name}} importPath] run in the directory
      given (in the current one for the empty string), [None] on an error. *)
  go_list : string -> string -> option string;
  os_Getenv : string -> string;
  (** [filepath.Join] of three elements. *)
  filepath_Join3 : string -> string -> string -> string;
  filepath_Base : string -> string;
  filepath_FromSlash : string -> string }.

(** An [ast.Expr] in the position of a type. *)
Inductive ChanDir := SEND | RECV | SENDRECV.

#[local] Unset Elimination Schemes.

Inductive Expr :=
| Ident (Name : string)
| SelectorExpr (X : Expr) (Sel : string)
| ArrayType (Len : option Expr) (Elt : Expr)
| MapType (Key Value : Expr)
| StarExpr (X : Expr)
| ChanType (Dir : ChanDir) (Value : Expr)
| FuncType
| InterfaceType
| StructTypeExpr
| IndexExpr (X Index : Expr)
| IndexListExpr (X : Expr) (Indices : list Expr)
| OtherExpr.

#[local] Set Elimination Schemes.

(** An [*ast.ImportSpec]: the local name, when one is written, and the
    path literal, quotes included. *)
Record ImportSpec := {
  imp_Name : option string;
  imp_Path : string }.

(** The import index of a file: identifier to package object.  The objects
    are never changed once stored, so the map holds them by value; a nil
    pointer is [None]. *)
Abbreviation ImportIndex := (gmap string (option TypePackageOutput)) (only parsing).

(** [&TypePackageOutput{Path: path, Name: name}] *)
Definition newPackage (path name : string) : TypePackageOutput :=
  {| tp_Path := path; tp_Name := name; tp_Alias := "" |}.

Section Resolution.

Variable W : World.
Variable E : Env.
Variable R : RangeOrder.

(** The entries of a map in the order of the [range] loop that starts now. *)
Definition rangeOver {A : Type} (m : gmap string A) (st : State)
    : list (string * A) * State :=
  (order R (ranges st) _ (map_to_list m),
   {| model := model st; store := store st; ranges := S (ranges st) |}).

(** A loop over the entries that stops at the first entry which is not
    nil and passes the test. *)
Fixpoint firstImport (test : string -> TypePackageOutput -> bool)
    (entries : list (string * option TypePackageOutput))
    : option (string * TypePackageOutput) :=
  match entries with
  | [] => None
  | (key, Some imp) :: rest =>
      if test key imp then Some (key, imp) else firstImport test rest
  | (_, None) :: rest => firstImport test rest
  end.

(** The secondary lookup of [extractTypeInfo]: an import of that name with
    a path ends the loop; one without a path is kept if it is the first. *)
Fixpoint bestMatchLoop (name : string)
    (entries : list (string * option TypePackageOutput))
    (bestMatch : option TypePackageOutput) : option TypePackageOutput :=
  match entries with
  | [] => bestMatch
  | (_, None) :: rest => bestMatchLoop name rest bestMatch
  | (_, Some imp) :: rest =>
      if decide (tp_Name imp = name) then
        if decide (tp_Path imp = "") then
          bestMatchLoop name rest
            (match bestMatch with
             | None => Some imp
             | Some b => Some b
             end)
        else Some imp
      else bestMatchLoop name rest bestMatch
  end.

(** The qualified and the local rendering of [ident.Sel] for a package
    object found. *)
Definition selectorOf (ident sel : string) (imp : TypePackageOutput)
    : string * option TypePackageOutput :=
  if decide (tp_Path imp = "")
  then (sel, Some (newPackage (tp_Path imp) (tp_Name imp)))
  else (ident ++ "." ++ sel, Some (newPackage (tp_Path imp) (tp_Name imp))).

(** The case [*ast.SelectorExpr] of [extractTypeInfo], [X] being the
    identifier [ident]. *)
Definition extractSelector (ident sel : string) (importIndex : ImportIndex) (st : State)
    : result (string * option TypePackageOutput * State) :=
  match importIndex !! ident with
  | Some None => Panic
  | Some (Some imp) => Ok (selectorOf ident sel imp, st)
  | None =>
      let '(entries, st) := rangeOver importIndex st in
      match bestMatchLoop ident entries None with
      | Some bestMatch => Ok (selectorOf ident sel bestMatch, st)
      | None =>
          let '(entries, st) := rangeOver importIndex st in
          match firstImport
                  (fun _ imp => importPathHasSegment (tp_Path imp) ident
                                && negb (bool_decide (tp_Path imp = "")))
                  entries with
          | Some (_, imp) =>
              Ok (ident ++ "." ++ sel, Some (newPackage (tp_Path imp) (tp_Name imp)), st)
          | None => Ok (ident ++ "." ++ sel, Some (newPackage "" ident), st)
          end
      end
  end.

(** The loop of [extractTypeInfo] over [t.Indices], [extract] being the
    function itself. *)
Fixpoint extractEach (extract : Expr -> State -> result (string * option TypePackageOutput * State))
    (indices : list Expr) (st : State) : result (list string * State) :=
  match indices with
  | [] => Ok ([], st)
  | index :: rest =>
      '(indexType, _, st) ← extract index st;
      '(indexTypes, st) ← extractEach extract rest st;
      Ok (indexType :: indexTypes, st)
  end.

(** [extractTypeInfo] *)
Fixpoint extractTypeInfo (expr : Expr) (importIndex : ImportIndex) (modulePath : string)
    (st : State) {struct expr} : result (string * option TypePackageOutput * State) :=
  match expr with
  | Ident name => Ok (name, None, st)
  | SelectorExpr (Ident ident) sel => extractSelector ident sel importIndex st
  | SelectorExpr _ _ => Ok ("", None, st)
  | ArrayType _ elt =>
      '(elementType, elementPkg, st) ← extractTypeInfo elt importIndex modulePath st;
      Ok ("[]" ++ elementType, elementPkg, st)
  | MapType key value =>
      '(keyType, _, st) ← extractTypeInfo key importIndex modulePath st;
      '(valueType, valuePkg, st) ← extractTypeInfo value importIndex modulePath st;
      Ok ("map[" ++ keyType ++ "]" ++ valueType, valuePkg, st)
  | StarExpr x =>
      '(elementType, elementPkg, st) ← extractTypeInfo x importIndex modulePath st;
      Ok ("*" ++ elementType, elementPkg, st)
  | ChanType dir value =>
      '(elementType, elementPkg, st) ← extractTypeInfo value importIndex modulePath st;
      let dir := match dir with
                 | SEND => "chan<- "
                 | RECV => "<-chan "
                 | SENDRECV => "chan "
                 end in
      Ok (dir ++ elementType, elementPkg, st)
  | FuncType => Ok ("func", None, st)
  | InterfaceType => Ok ("interface{}", None, st)
  | StructTypeExpr => Ok ("struct{}", None, st)
  | IndexExpr x index =>
      '(baseType, basePkg, st) ← extractTypeInfo x importIndex modulePath st;
      '(indexType, _, st) ← extractTypeInfo index importIndex modulePath st;
      Ok (baseType ++ "[" ++ indexType ++ "]", basePkg, st)
  | IndexListExpr x indices =>
      '(baseType, basePkg, st) ← extractTypeInfo x importIndex modulePath st;
      '(indexTypes, st) ←
        extractEach (fun index st => extractTypeInfo index importIndex modulePath st)
          indices st;
      Ok (baseType ++ "[" ++ Go.Join indexTypes ", " ++ "]", basePkg, st)
  | OtherExpr => Ok ("", None, st)
  end.

(** [getPackageNameFromGoList] *)
Definition getPackageNameFromGoList (importPath moduleDir : string) : string :=
  match go_list E importPath moduleDir with
  | None => ""
  | Some output =>
      let name := Go.TrimSpace output in
      if bool_decide (name ≠ "") && bool_decide (name ≠ "main") then name else ""
  end.

(** The loop of [readPackageName] over the entries of the directory. *)
Fixpoint firstPackageName (dir : string) (entries : list DirEntry) : string :=
  match entries with
  | [] => ""
  | e :: rest =>
      if de_IsDir e then firstPackageName dir rest
      else if negb (Go.HasSuffix (de_Name e) ".go") then firstPackageName dir rest
      else
        match ParsePackageClause W (filepath_Join W dir (de_Name e)) with
        | None => firstPackageName dir rest
        | Some name => if decide (name = "") then firstPackageName dir rest else name
        end
  end.

(** [readPackageName] *)
Definition readPackageName (dir : string) : string :=
  match os_ReadDir E dir with
  | None => ""
  | Some entries => firstPackageName dir entries
  end.

(** The loop of [locateGoModule] over the lines of [go.mod]. *)
Fixpoint moduleLine (lines : list string) : string :=
  match lines with
  | [] => ""
  | l :: rest =>
      let l := Go.TrimSpace l in
      if Go.HasPrefix l "module " then Go.TrimSpace (Go.TrimPrefix l "module ")
      else moduleLine rest
  end.

(** The loop of [locateGoModule] up the directories, [fuel] bounding the
    number of directories tried. *)
Fixpoint locateFrom (fuel : nat) (dir : string) : result (string * string) :=
  match fuel with
  | O => OutOfFuel
  | S fuel =>
      let goModPath := filepath_Join W dir "go.mod" in
      if os_Stat E goModPath then
        match os_ReadFile E goModPath with
        | None => Ok (dir, "")
        | Some data => Ok (dir, moduleLine (GoLib.Split data (ascii_of_nat 10)))
        end
      else
        let parent := filepath_Dir W dir in
        if decide (parent = dir) then Ok ("", "") else locateFrom fuel parent
  end.

(** [locateGoModule]: the module directory and the module path. *)
Definition locateGoModule (fuel : nat) (currentFilePath : string) : result (string * string) :=
  locateFrom fuel (filepath_Dir W currentFilePath).

(** [isVersionSuffix] of [readPackageNameFromImportPath]: [v] and digits. *)
Definition isVersionSuffix (lastSegment : string) : bool :=
  (2 <=? String.length lastSegment)%nat
  && match lastSegment with
     | String c rest => bool_decide (c = "v"%char) && allRunes Go.IsDigit rest
     | EmptyString => false
     end.

(** The loop of [readPackageNameFromImportPath] over the entries of the
    parent directory of the module: the name found, if any. *)
Fixpoint versionedPackageName (parentDir moduleName lastSegment : string)
    (entries : list DirEntry) : string :=
  match entries with
  | [] => ""
  | entry :: rest =>
      if negb (de_IsDir entry) then
        versionedPackageName parentDir moduleName lastSegment rest
      else if Go.HasPrefix (de_Name entry) (moduleName ++ "@") then
        let moduleDir := filepath_Join W parentDir (de_Name entry) in
        let versionedPath := filepath_Join W moduleDir lastSegment in
        let name := readPackageName versionedPath in
        if decide (name = "") then
          let name := readPackageName moduleDir in
          if decide (name = "") then
            versionedPackageName parentDir moduleName lastSegment rest
          else name
        else name
      else versionedPackageName parentDir moduleName lastSegment rest
  end.

(** The body of the loop of [readPackageNameFromImportPath] over the search
    paths: the name found under [basePath], if any. *)
Definition packageNameUnder (importPath basePath : string) : string :=
  let parts := GoLib.Split importPath "/" in
  if (List.length parts <? 2)%nat then ""
  else
    let moduleBase := Go.Join (removelast parts) "/" in
    let lastSegment := List.last parts "" in
    let versioned :=
      if isVersionSuffix lastSegment then
        let moduleBaseDir := filepath_Join W basePath (filepath_FromSlash E moduleBase) in
        let parentDir := filepath_Dir W moduleBaseDir in
        let moduleName := filepath_Base E moduleBaseDir in
        match os_ReadDir E parentDir with
        | Some entries => versionedPackageName parentDir moduleName lastSegment entries
        | None => ""
        end
      else "" in
    if decide (versioned = "") then
      readPackageName (filepath_Join W basePath (filepath_FromSlash E importPath))
    else versioned.

(** [readPackageNameFromImportPath] *)
Definition readPackageNameFromImportPath (importPath : string) : string :=
  let gopath := os_Getenv E "GOPATH" in
  let gomodcache := os_Getenv E "GOMODCACHE" in
  let searchPaths :=
    ((if decide (gomodcache = "") then [] else [gomodcache])
     ++ (if decide (gopath = "") then [] else [filepath_Join3 E gopath "pkg" "mod"]))%list in
  (fix search (basePaths : list string) : string :=
     match basePaths with
     | [] => ""
     | basePath :: rest =>
         let name := packageNameUnder importPath basePath in
         if decide (name = "") then search rest else name
     end) searchPaths.

(** The identifier an import goes by in the code of the file: the local
    name if one is written, else the last element of the path. *)
Definition importIdent (imp : ImportSpec) : string :=
  let path := GoText.Trim (imp_Path imp) dquote in
  match imp_Name imp with
  | Some name => if decide (name = "") then GoText.afterLast path "/" else name
  | None => GoText.afterLast path "/"
  end.

(** The real name of the package an import brings in, as far as the
    sources within reach tell; the identifier if they do not. *)
Definition importRealName (moduleDir modulePath : string) (imp : ImportSpec) : string :=
  let path := GoText.Trim (imp_Path imp) dquote in
  let ident := importIdent imp in
  if bool_decide (moduleDir ≠ "") && bool_decide (modulePath ≠ "")
     && Go.HasPrefix path modulePath then
    let rel := Go.TrimPrefix (Go.TrimPrefix path modulePath) "/" in
    let pkgDir := filepath_Join W moduleDir (filepath_FromSlash E rel) in
    let name := readPackageName pkgDir in
    if decide (name = "") then ident else name
  else
    let pkgName := getPackageNameFromGoList path moduleDir in
    if decide (pkgName = "") then
      let pkgName := readPackageNameFromImportPath path in
      if decide (pkgName = "") then ident else pkgName
    else pkgName.

(** The body of the loop of [buildImportIndex] over [node.Imports]. *)
Definition indexImport (moduleDir modulePath : string) (imp : ImportSpec)
    (idx : ImportIndex) : result ImportIndex :=
  let path := GoText.Trim (imp_Path imp) dquote in
  let ident := importIdent imp in
  if bool_decide (ident = "_") || bool_decide (ident = ".") then Ok idx
  else
    let realName := importRealName moduleDir modulePath imp in
    let idx := <[ident := Some (newPackage path realName)]> idx in
    if decide (ident = realName) then Ok idx
    else
      match idx !! realName with
      | None => Ok (<[realName := Some (newPackage path realName)]> idx)
      | Some None => Panic
      | Some (Some existing) =>
          if decide (tp_Path existing = "")
          then Ok (<[realName := Some (newPackage path realName)]> idx)
          else Ok idx
      end.

(** [buildImportIndex]: the index and the module path. *)
Definition buildImportIndex (fuel : nat) (imports : list ImportSpec)
    (currentFilePath : string) : result (ImportIndex * string) :=
  '(moduleDir, modulePath) ← locateGoModule fuel currentFilePath;
  idx ← forEach imports (indexImport moduleDir modulePath) ∅;
  Ok (idx, modulePath).

(** The package name the last loop of [createValueOutput] settles on for
    an entry whose own name reads like an identifier with dots. *)
Definition dottedName (imp : TypePackageOutput) (moduleDir : string) : string :=
  let name := tp_Name imp in
  if Go.Contains name "." then
    let realPkgName := getPackageNameFromGoList (tp_Path imp) moduleDir in
    if decide (realPkgName = "") then
      if Go.HasPrefix (tp_Path imp) "gopkg.in/" then
        GoText.beforeFirst (Go.TrimPrefix (tp_Path imp) "gopkg.in/") "."
      else name
    else realPkgName
  else name.

(** The second rescue of [createValueOutput]: by the text before the dot of
    the type name. *)
Definition rescueByTypeName (typeName : string) (pkg : option TypePackageOutput)
    (importIndex : ImportIndex) (moduleDir : string) (st : State)
    : option TypePackageOutput * State :=
  let pkgName := GoText.beforeFirst typeName "." in
  let '(entries, st) := rangeOver importIndex st in
  let pkg :=
    match firstImport (fun _ imp => bool_decide (tp_Name imp = pkgName)
                                    && negb (bool_decide (tp_Path imp = "")))
            entries with
    | Some (_, imp) => Some (newPackage (tp_Path imp) (tp_Name imp))
    | None => pkg
    end in
  if bool_decide (pkg = None) || bool_decide (from_option tp_Path "" pkg = "") then
    let '(entries, st) := rangeOver importIndex st in
    match firstImport
            (fun key imp =>
               Go.Contains key pkgName && negb (bool_decide (tp_Path imp = ""))
               && (Go.Contains (tp_Path imp) pkgName
                   || importPathHasSegment (tp_Path imp) pkgName))
            entries with
    | Some (_, imp) => (Some (newPackage (tp_Path imp) (dottedName imp moduleDir)), st)
    | None => (pkg, st)
    end
  else (pkg, st).

(** [createValueOutput], the package object of the value placed in the
    store. *)
Definition createValueOutput (fieldType : option Expr) (fieldName packageName : string)
    (importIndex : ImportIndex) (modulePath moduleDir : string) (st : State)
    : result (option ValueOutput * State) :=
  match fieldType with
  | None => Ok (None, st)
  | Some expr =>
      '(typeName, pkg, st) ← extractTypeInfo expr importIndex modulePath st;
      if decide (typeName = "") then Ok (None, st)
      else
        let '(pkg, st) :=
          match pkg with
          | Some p =>
              if bool_decide (tp_Path p = "") && negb (bool_decide (tp_Name p = "")) then
                let '(entries, st) := rangeOver importIndex st in
                match firstImport
                        (fun _ imp => bool_decide (tp_Name imp = tp_Name p)
                                      && negb (bool_decide (tp_Path imp = "")))
                        entries with
                | Some (_, imp) => (Some (newPackage (tp_Path imp) (tp_Name imp)), st)
                | None => (pkg, st)
                end
              else (pkg, st)
          | None => (pkg, st)
          end in
        let '(pkg, st) :=
          if (bool_decide (pkg = None) || bool_decide (from_option tp_Path "" pkg = ""))
             && Go.Contains typeName "."
          then rescueByTypeName typeName pkg importIndex moduleDir st
          else (pkg, st) in
        let '(l, st) := alloc st (default (newPackage "" packageName) pkg) in
        Ok (Some {| FieldName := fieldName; TypeName := typeName; TypePackage := l |}, st)
  end.

End Resolution.

End Resolver.

#[global] Arguments Resolver.rangeOver : simpl never.
(** Notions for the properties of import resolution. *)

(** No entry of the index is a nil pointer. *)
Definition noNil (idx : Resolver.ImportIndex) : Prop :=
  ∀ k v, idx !! k = Some v → is_Some v.

(** The package object stands for nothing the index does not hold: it has
    no alias, and its path is empty or the path of an entry. *)
Definition fromIndex (idx : Resolver.ImportIndex) (t : TypePackageOutput) : Prop :=
  tp_Alias t = "" ∧
  (tp_Path t = "" ∨ ∃ k imp, idx !! k = Some (Some imp) ∧ tp_Path imp = tp_Path t).

(** The model and the store of the two states are the same. *)
Definition sameHeap (st st' : State) : Prop :=
  model st' = model st ∧ store st' = store st.
(** The invariant of the import index of a file: no entry is nil; every
    entry has no alias, carries the path of an import of the file that is
    neither blank nor a dot import and the real name found for it, and sits
    under the identifier of that import or under its own name; and the name
    of every entry is itself a key. *)
Definition indexOk (W : World) (E : Resolver.Env) (moduleDir modulePath : string)
    (imports : list Resolver.ImportSpec) (idx : Resolver.ImportIndex) : Prop :=
  ∀ k v, idx !! k = Some v →
    ∃ t imp,
      v = Some t ∧ tp_Alias t = "" ∧ imp ∈ imports ∧
      Resolver.importIdent imp ≠ "_" ∧ Resolver.importIdent imp ≠ "." ∧
      tp_Path t = GoText.Trim (Resolver.imp_Path imp) dquote ∧
      tp_Name t = Resolver.importRealName W E moduleDir modulePath imp ∧
      (k = Resolver.importIdent imp ∨ k = tp_Name t) ∧
      is_Some (idx !! tp_Name t).

(** A type that names no package: identifiers without a dot, and nothing
    qualified anywhere in it. *)
Fixpoint plainType (e : Resolver.Expr) : bool :=
  match e with
  | Resolver.Ident name => negb (bool_decide (name = "")) && without "." name
  | Resolver.SelectorExpr _ _ => false
  | Resolver.ArrayType _ elt => plainType elt
  | Resolver.MapType key value => plainType key && plainType value
  | Resolver.StarExpr x => plainType x
  | Resolver.ChanType _ value => plainType value
  | Resolver.FuncType => true
  | Resolver.InterfaceType => true
  | Resolver.StructTypeExpr => true
  | Resolver.IndexExpr x index => plainType x && plainType index
  | Resolver.IndexListExpr x indices => plainType x && forallb plainType indices
  | Resolver.OtherExpr => false
  end.

(** The type name the engine gives a plain type: its Go spelling, but an
    array without its length, and a function, interface or struct type
    without what is between its braces or after [func]. *)
Fixpoint spelling (e : Resolver.Expr) : string :=
  match e with
  | Resolver.Ident name => name
  | Resolver.SelectorExpr _ _ => ""
  | Resolver.ArrayType _ elt => "[]" ++ spelling elt
  | Resolver.MapType key value => "map[" ++ spelling key ++ "]" ++ spelling value
  | Resolver.StarExpr x => "*" ++ spelling x
  | Resolver.ChanType dir value =>
      match dir with
      | Resolver.SEND => "chan<- "
      | Resolver.RECV => "<-chan "
      | Resolver.SENDRECV => "chan "
      end ++ spelling value
  | Resolver.FuncType => "func"
  | Resolver.InterfaceType => "interface{}"
  | Resolver.StructTypeExpr => "struct{}"
  | Resolver.IndexExpr x index => spelling x ++ "[" ++ spelling index ++ "]"
  | Resolver.IndexListExpr x indices =>
      spelling x ++ "[" ++ Go.Join (spelling <$> indices) ", " ++ "]"
  | Resolver.OtherExpr => ""
  end.

(** The directory [locateGoModule] tries after [i] steps up. *)
Definition dirAt (W : World) (currentFilePath : string) (i : nat) : string :=
  Nat.iter i (filepath_Dir W) (filepath_Dir W currentFilePath).
(** A small file tree for the examples: a module [example.com/m] rooted at
    [src], the file [src/app/main.go], and a Go tool that knows the
    package of [gopkg.in/yaml.v3]. *)
Definition parentOf (path : string) : string :=
  match GoLib.Split path "/" with
  | [_] => "."
  | parts => Go.Join (removelast parts) "/"
  end.

Definition moduleWorld : World :=
  {| ParseFile := noFile;
     ParsePackageClause := fun _ => None;
     StructTag_Get := tagGet;
     Glob := fun _ _ => inr [];
     Walk := fun _ => [];
     filepath_Join := joinPath;
     filepath_Abs := Some;
     filepath_Dir := parentOf;
     resolveValue := noValue |}.

Definition moduleEnv : Resolver.Env :=
  {| Resolver.os_Stat := fun path => bool_decide (path = "src/go.mod");
     Resolver.os_ReadFile := fun _ =>
       Some ("// the module" ++ String (ascii_of_nat 10)
               ("module example.com/m" ++ String (ascii_of_nat 10) "go 1.21"));
     Resolver.os_ReadDir := fun _ => None;
     Resolver.go_list := fun importPath _ =>
       if decide (importPath = "gopkg.in/yaml.v3") then Some "yaml" else None;
     Resolver.os_Getenv := fun _ => "";
     Resolver.filepath_Join3 := fun a b c => joinPath (joinPath a b) c;
     Resolver.filepath_Base := fun path => GoText.afterLast path "/";
     Resolver.filepath_FromSlash := fun path => path |}.

(** [import "strings"] and [import y "gopkg.in/yaml.v3"]. *)
Definition quoted (path : string) : string := String dquote path ++ String dquote "".

Definition twoImports : list Resolver.ImportSpec :=
  [ {| Resolver.imp_Name := None; Resolver.imp_Path := quoted "strings" |};
    {| Resolver.imp_Name := Some "y"; Resolver.imp_Path := quoted "gopkg.in/yaml.v3" |} ].
(** The index a file has that imports the package [yaml] of
    [gopkg.in/yaml.v3] under the name [y] when the real name is not found
    out, so that no key of the index reads [yaml]. *)
Definition yamlIndex : gmap string (option TypePackageOutput) :=
  {[ "y" := Some (Resolver.newPackage "gopkg.in/yaml.v3" "yaml") ]}.

(** A byte that neither separates words nor begins one. *)
Definition plainRune (c : ascii) : bool := negb (isSeparator c) && negb (Go.IsUpper c).

(** Every entry of the index has its name among the keys. *)
Definition closedIndex (idx : gmap string (option TypePackageOutput)) : Prop :=
  ∀ k t, idx !! k = Some (Some t) → is_Some (idx !! tp_Name t).

(** The index of a file that imports [gopkg.in/yaml.v3] as [y], the real
    name [yaml] found. *)
Definition closedYamlIndex : gmap string (option TypePackageOutput) :=
  <[ "yaml" := Some (Resolver.newPackage "gopkg.in/yaml.v3" "yaml") ]> yamlIndex.

(** ** Source patterns ([lib/utils.go]) *)

Section Sources.

(** [filepath.ToSlash(filepath.Clean(pattern))] and
    [doublestar.ValidatePattern]. *)
Variable cleanSlash : string -> string.
Variable ValidatePattern : string -> bool.

(** [isValidSource] *)
Definition isValidSource (pattern : string) : bool :=
  if Go.HasPrefix pattern "package:" then
    isValidGoIdentifier (Go.TrimPrefix pattern "package:")
  else if negb (Go.HasSuffix pattern ".go") then false
  else if negb (ValidatePattern (cleanSlash pattern)) then false
  else true.

End Sources.

(** The constant one element gives for one field name, if any. *)
Definition constantOf (W : World) (structName fieldName tagText : string) (el : ConfigTag)
    : list ConstantOutput :=
  let value := computeElementValue W fieldName tagText el in
  if decide (value = "") then []
  else
    match out_Mode (el_Output el) with
    | OutputModeConstant =>
        [ {| c_Name := buildName (fmt_Prefix (Format (el_Output el))) structName fieldName
                         (fmt_Suffix (Format (el_Output el)))
                         (fmt_Struct (Format (el_Output el)));
             c_Value := value |} ]
    | _ => []
    end.

(** The constants of a struct: field by field among those the policy
    keeps, name by name, element by element. *)
Definition constantsOf (W : World) (config : Config) (structName : string)
    (fields : list Field) : list ConstantOutput :=
  field ← filter (fun field => mustIncludeField W config field = true) fields;
  fieldName ← Names field;
  el ← Elements config;
  constantOf W structName fieldName (fieldTagText field) el.

(** A struct scan has this name and, so far, these constants. *)
Definition collected (name : string) (sc : StructScan) (l : list ConstantOutput) : Prop :=
  sm_Name (structModel sc) = name ∧ sm_Constants (structModel sc) = l.

(** * Properties *)

(** ** Value and name engine *)

(** C7: [transformFieldValue] turns "first_name" into "First Name" with
    pascal case and a space separator, and "FirstName" into "first_name"
    with lower case and an underscore separator.  The separators are
    exactly [_ - space . /]; with a separator and a case other than as-is
    the value is split into words, the case applied, and the words split
    again and joined with the separator; the splitting loop ends the
    current word at a separator, and at any other character starts a new
    word exactly when the character is upper case, the current word is not
    empty and the previous byte is not upper case. *)
Theorem transformFieldValue_examples :
  transformFieldValue "first_name" TransformCasePascal " " = "First Name" ∧
  transformFieldValue "FirstName" TransformCaseLower "_" = "first_name" ∧
  (∀ r, isSeparator r =
          bool_decide (r ∈ ["_"%char; "-"%char; " "%char; "."%char; "/"%char])) ∧
  (∀ value c a sep,
     transformFieldValue value c (String a sep) =
       Go.Join (splitIntoWords
                  (applyCase c (if isAsIs c then value
                                else Go.Join (splitIntoWords value) " ")))
               (String a sep)) ∧
  (∀ prev r rest words cur,
     splitLoop prev (String r rest) words cur =
       if isSeparator r then splitLoop (Some r) rest (flush words cur) ""
       else if Go.IsUpper r && (0 <? String.length cur)%nat
               && negb (from_option Go.IsUpper false prev)
       then splitLoop (Some r) rest (words ++ [cur]) (String r "")
       else splitLoop (Some r) rest words (cur ++ String r "")).
Proof.
  split; [vm_compute; reflexivity|].
  split; [vm_compute; reflexivity|].
  split.
  { intros r. unfold isSeparator.
    repeat (rewrite bool_decide_decide; destruct (decide _) as [->|?]);
      simpl; try reflexivity.
    symmetry. apply bool_decide_eq_false.
    rewrite !elem_of_cons, elem_of_nil. intuition congruence. }
  split.
  { intros value c a sep. unfold transformFieldValue.
    rewrite (bool_decide_eq_false_2 (String a sep = "")) by discriminate.
    simpl. destruct (isAsIs c); reflexivity. }
  intros prev r rest words cur. simpl.
  destruct (isSeparator r); [reflexivity|].
  destruct (Go.IsUpper r); simpl; [|reflexivity].
  destruct ((0 <? String.length cur)%nat && negb (from_option Go.IsUpper false prev));
    reflexivity.
Qed.

(** ** Declaration scanner: inclusion policy *)

Lemma checkCommentGroup_spec cg inc exc :
  checkCommentGroup cg (inc, exc) =
    (inc || existsb (hasDirective "constago:include") (default [] cg),
     exc || existsb (hasDirective "constago:exclude") (default [] cg)).
Proof.
  destruct cg as [cs|]; simpl; [|by rewrite !orb_false_r].
  revert inc exc. induction cs as [|c cs IH]; intros inc exc; simpl.
  - by rewrite !orb_false_r.
  - rewrite IH. unfold hasDirective.
    destruct (Go.Contains (Go.TrimSpace c) "constago:include"),
             (Go.Contains (Go.TrimSpace c) "constago:exclude");
      simpl; rewrite ?orb_true_r, ?orb_false_r; try reflexivity;
      destruct inc, exc; reflexivity.
Qed.

Lemma structDirectives_spec genDecl typeSpec :
  structDirectives genDecl typeSpec =
    (existsb (hasDirective "constago:include") (comments genDecl typeSpec),
     existsb (hasDirective "constago:exclude") (comments genDecl typeSpec)).
Proof.
  unfold structDirectives, comments.
  rewrite (checkCommentGroup_spec (gd_Doc genDecl)), checkCommentGroup_spec.
  simpl. by rewrite !existsb_app.
Qed.

(** C2: a struct whose documentation comments carry neither directive is
    included exactly when struct-explicit mode is off and either
    unexported structs are included or its name is exported; the model is
    left as it was. *)
Theorem mustIncludeStruct_without_directive config m genDecl typeSpec filePath :
  Forall (fun c => hasDirective "constago:include" c = false
                   ∧ hasDirective "constago:exclude" c = false)
         (comments genDecl typeSpec) →
  mustIncludeStruct config m genDecl typeSpec filePath =
    (negb (struct_isExplicit (InStruct (Input config)))
     && (struct_isIncludeUnexported (InStruct (Input config))
         || IsExported (ts_Name typeSpec)), m).
Proof.
  intros Hno. unfold mustIncludeStruct. rewrite structDirectives_spec.
  assert (existsb (hasDirective "constago:include") (comments genDecl typeSpec) = false) as ->.
  { induction Hno as [|c cs [Hi _] _ IH]; simpl; [done|]. by rewrite Hi, IH. }
  assert (existsb (hasDirective "constago:exclude") (comments genDecl typeSpec) = false) as ->.
  { induction Hno as [|c cs [_ He] _ IH]; simpl; [done|]. by rewrite He, IH. }
  simpl.
  destruct (struct_isExplicit _), (struct_isIncludeUnexported _), (IsExported _); reflexivity.
Qed.

Lemma forEach_invariant {A S} (P : S → Prop) (xs : list A) (body : A → S → result S) :
  (∀ x s s', x ∈ xs → P s → body x s = Ok s' → P s') →
  ∀ s s', P s → forEach xs body s = Ok s' → P s'.
Proof.
  induction xs as [|x xs IH]; intros Hbody s s' HP Hrun; simpl in Hrun.
  - by injection Hrun as <-.
  - destruct (body x s) as [s1| |] eqn:Hx; simpl in Hrun; try discriminate.
    eapply IH; [| |exact Hrun].
    + intros y t t' Hy. apply Hbody. by right.
    + eapply Hbody; [by left|exact HP|exact Hx].
Qed.

Lemma setRecursiveAlias_model R fuel imports cur name level st st' :
  setRecursiveAlias R fuel imports cur name level st = Ok st' →
  model st' = model st.
Proof.
  revert name level st st'. induction fuel as [|fuel IH]; intros name level st st' Hrun;
    simpl in Hrun; [discriminate|].
  eapply (forEach_invariant (fun s => model s = model st)) in Hrun; [exact Hrun| |reflexivity].
  intros e s s' _ Hs Hbody.
  destruct (store s !! e.2) as [imp|]; simpl in Hbody; [|discriminate].
  destruct (store s !! cur) as [c|]; simpl in Hbody; [|discriminate].
  destruct (clashes imp c name).
  - apply IH in Hbody. by rewrite Hbody.
  - by injection Hbody as <-.
Qed.

Lemma registerImport_model R r pkg st pkg' st' :
  registerImport R r (pkg, st) = Ok (pkg', st') → model st' = model st.
Proof.
  unfold registerImport. destruct r as [| | |v]; try (by intros [= _ <-]).
  destruct (store st !! TypePackage v) as [tp|]; simpl; [|discriminate].
  destruct (pm_Imports pkg !! tp_Path tp); [by intros [= _ <-]|].
  simpl.
  match goal with |- context [setRecursiveAlias ?a ?b ?c ?d ?e ?f ?g] =>
    destruct (setRecursiveAlias a b c d e f g) as [s1| |] eqn:Hs end; simpl; try discriminate.
  intros [= _ <-]. by eapply setRecursiveAlias_model.
Qed.

Lemma AddStruct_Errors R st path name sm st' :
  AddStruct R st path name sm = Ok st' →
  Errors (model st') = Errors (model st).
Proof.
  unfold AddStruct.
  destruct (Packages (model st) !! path) as [pkg|].
  - destruct (forEach _ _ _) as [[pkg' s1]| |] eqn:Hrun; simpl; try discriminate.
    intros [= <-]. simpl.
    eapply (forEach_invariant (fun ps => model ps.2 = model st)) in Hrun;
      [simpl in Hrun; by rewrite Hrun| |by destruct st].
    intros r [p s] [p' s'] _ Hs Hr. simpl in *. apply registerImport_model in Hr. congruence.
  - destruct (forEach _ _ _) as [[pkg' s1]| |] eqn:Hrun; simpl; try discriminate.
    intros [= <-]. simpl.
    eapply (forEach_invariant (fun ps => Errors (model ps.2) = Errors (model st))) in Hrun;
      [exact Hrun| |reflexivity].
    intros r [p s] [p' s'] _ Hs Hr. simpl in *. apply registerImport_model in Hr. congruence.
Qed.

Lemma mustIncludeStruct_Errors config m genDecl typeSpec filePath b m' :
  mustIncludeStruct config m genDecl typeSpec filePath = (b, m') →
  Errors m `prefix_of` Errors m'.
Proof.
  unfold mustIncludeStruct. destruct (structDirectives genDecl typeSpec) as [i e].
  repeat case_match; intros [= _ <-]; try reflexivity.
  simpl. by apply prefix_app_r.
Qed.

Lemma foldl_invariant {A S} (P : S → Prop) (f : S → A → S) (xs : list A) :
  (∀ x s, x ∈ xs → P s → P (f s x)) → ∀ s, P s → P (foldl f s xs).
Proof.
  induction xs as [|x xs IH]; intros Hf s HP; simpl; [done|].
  apply IH; [intros y t Hy; apply Hf; by right|]. apply Hf; [by left|done].
Qed.

Lemma createValueOutput_model W filePath field fieldName packageName st :
  model (createValueOutput W filePath field fieldName packageName st).2 = model st.
Proof.
  unfold createValueOutput. destruct (resolveValue _ _ _ _ _) as [[[t p] n]|]; reflexivity.
Qed.

Lemma scanReturn_model W filePath packageName field fieldName ret gs :
  model (scanReturn W filePath packageName field fieldName ret gs).2 = model gs.2.
Proof.
  destruct gs as [[returns sc] st]. unfold scanReturn.
  destruct (Go.HasPrefix ret ":").
  - destruct (decide _); [|reflexivity].
    pose proof (createValueOutput_model W filePath field fieldName packageName st) as H.
    destruct (createValueOutput _ _ _ _ _ _) as [[v|] s1]; exact H.
  - repeat case_match; reflexivity.
Qed.

Lemma scanGetter_model W filePath packageName field fieldName g ss :
  model (scanGetter W filePath packageName field fieldName g ss).2 = model ss.2.
Proof.
  destruct ss as [sc st]. unfold scanGetter.
  assert (model (foldl (fun gs ret => scanReturn W filePath packageName field fieldName ret gs)
                   (([], sc, st) : GetterScan) (Returns g)).2 = model st) as H.
  { apply (foldl_invariant (fun gs : GetterScan => model gs.2 = model st)); [|done].
    intros x s _ Hs. by rewrite scanReturn_model. }
  destruct (foldl _ _ _) as [[returns sc1] s1]. simpl in H.
  case_decide; exact H.
Qed.

Lemma scanIdent_model W config filePath packageName field tagText fieldName ss :
  model (scanIdent W config filePath packageName field tagText fieldName ss).2 = model ss.2.
Proof.
  destruct ss as [sc st]. unfold scanIdent.
  apply (foldl_invariant (fun ss : StructScan * State => model ss.2 = model st)); [|done].
  intros g s _ Hs. by rewrite scanGetter_model.
Qed.

Lemma scanField_model W config filePath packageName field ss :
  model (scanField W config filePath packageName field ss).2 = model ss.2.
Proof.
  unfold scanField. destruct (decide _); [done|]. destruct (negb _); [done|].
  apply (foldl_invariant (fun s : StructScan * State => model s.2 = model ss.2)); [|done].
  intros g0 s0 _ Hs. by rewrite scanIdent_model.
Qed.

Lemma scanFields_model W config filePath packageName typeSpec fields st :
  model (scanFields W config filePath packageName typeSpec fields st).2 = model st.
Proof.
  unfold scanFields.
  apply (foldl_invariant (fun s : StructScan * State => model s.2 = model st)); [|done].
  intros g s _ Hs. by rewrite scanField_model.
Qed.

Lemma scanSpec_Errors W R config filePath packagePath packageName genDecl spec st st' :
  scanSpec W R config filePath packagePath packageName genDecl spec st = Ok st' →
  Errors (model st) `prefix_of` Errors (model st').
Proof.
  unfold scanSpec. destruct spec as [typeSpec|]; [|by intros [= <-]].
  destruct (ts_Type typeSpec) as [fields|]; [|by intros [= <-]].
  destruct (mustIncludeStruct config (model st) genDecl typeSpec filePath) as [b m] eqn:Hm.
  apply mustIncludeStruct_Errors in Hm.
  destruct b; simpl; [|by intros [= <-]].
  pose proof (scanFields_model W config filePath packageName typeSpec fields (setModel st m)) as Hf.
  destruct (scanFields _ _ _ _ _ _ _) as [sc s1]. simpl in Hf.
  case_match; [|intros [= <-]; by rewrite Hf].
  intros Hadd%AddStruct_Errors. by rewrite Hadd, Hf.
Qed.

Lemma scanDecl_Errors W R config filePath packagePath packageName genDecl st st' :
  scanDecl W R config filePath packagePath packageName genDecl st = Ok st' →
  Errors (model st) `prefix_of` Errors (model st').
Proof.
  unfold scanDecl. destruct (gd_isType genDecl); simpl; [|by intros [= <-]].
  apply (forEach_invariant (fun s => Errors (model st) `prefix_of` Errors (model s)));
    [|reflexivity].
  intros spec s s' _ Hs Hrun%scanSpec_Errors. by etrans.
Qed.

Lemma scanFile_Errors W R config filePath st e st' :
  scanFile W R config filePath st = Ok (e, st') →
  e = None ∧ Errors (model st) `prefix_of` Errors (model st').
Proof.
  unfold scanFile. destruct (ParseFile W filePath) as [err|node].
  - intros [= <- <-]. split; [done|]. simpl. by apply prefix_app_r.
  - destruct (forEach _ _ _) as [s1| |] eqn:Hrun; simpl; try discriminate.
    intros [= <- <-]. split; [done|].
    eapply (forEach_invariant (fun s => Errors (model st) `prefix_of` Errors (model s)))
      in Hrun; [exact Hrun| |reflexivity].
    intros d s s' _ Hs Hd%scanDecl_Errors. by etrans.
Qed.

Lemma scanAll_Errors W R config files st e st' :
  scanAll W R config files st = Ok (e, st') →
  e = None ∧ Errors (model st) `prefix_of` Errors (model st').
Proof.
  revert st. induction files as [|f files IH]; intros st; simpl.
  - by intros [= <- <-].
  - destruct (scanFile W R config f st) as [[e1 s1]| |] eqn:Hf; simpl; try discriminate.
    apply scanFile_Errors in Hf as [-> Hp].
    intros [-> Hq]%IH. split; [done|by etrans].
Qed.

Lemma mustIncludeStruct_without_directive_witness :
  mustIncludeStruct (sampleConfig (flags false false) (fieldFlags false false) [] [])
    NewModel declPlain (specUser "user" None []) "x.go" = (false, NewModel).
Proof.
  apply (mustIncludeStruct_without_directive
           (sampleConfig (flags false false) (fieldFlags false false) [] [])
           NewModel declPlain (specUser "user" None []) "x.go").
  repeat constructor.
Defined.

Lemma lookupTag_value W tags key v :
  StructTag_Get W tags key = v → Go.TrimSpace v ≠ "" → lookupTag W tags key = (v, true).
Proof. intros <- Hv. unfold lookupTag. by destruct (decide _). Qed.

(** C5: a field whose reserved tag reads "exclude" is dropped and one whose
    reserved tag reads "include" is kept, whatever the field policy of the
    configuration and whatever its name; and a struct that carries both
    directives is dropped with one error before any of its fields is looked
    at, whatever their tags. *)
Theorem field_tag_overrides W R config :
  (∀ field,
     StructTag_Get W (fieldTagText field) "constago" = "exclude" →
     mustIncludeField W config field = false) ∧
  (∀ field,
     StructTag_Get W (fieldTagText field) "constago" = "include" →
     mustIncludeField W config field = true) ∧
  (∀ filePath packagePath packageName genDecl typeSpec fields st,
     structDirectives genDecl typeSpec = (true, true) →
     ts_Type typeSpec = StructType fields →
     scanSpec W R config filePath packagePath packageName genDecl (SpecType typeSpec) st =
       Ok (setModel st (AddError (model st) filePath (ts_Line typeSpec)
                          "struct has both include and exclude directives"))).
Proof.
  split; [|split].
  - intros field Hget. unfold mustIncludeField. fold (fieldTagText field).
    rewrite (lookupTag_value _ _ _ _ Hget) by (vm_compute; discriminate). reflexivity.
  - intros field Hget. unfold mustIncludeField. fold (fieldTagText field).
    rewrite (lookupTag_value _ _ _ _ Hget) by (vm_compute; discriminate). reflexivity.
  - intros filePath packagePath packageName genDecl typeSpec fields st Hd Ht.
    unfold scanSpec, mustIncludeStruct. rewrite Ht, Hd. reflexivity.
Qed.

Lemma field_tag_overrides_witness :
  mustIncludeField (sampleWorld noFile noValue)
    (sampleConfig (flags false false) (fieldFlags false true) [] [])
    (fieldOf "Name" [tagPair "json" "name"; tagPair "constago" "exclude"]) = false ∧
  mustIncludeField (sampleWorld noFile noValue)
    (sampleConfig (flags false false) (fieldFlags true false) [] [])
    (fieldOf "name" [tagPair "constago" "include"]) = true ∧
  scanSpec (sampleWorld noFile noValue) inOrder
    (sampleConfig (flags false false) (fieldFlags true false) [] [])
    "x.go" "pkg" "main" declBoth
    (SpecType (specUser "User" None [fieldOf "name" [tagPair "constago" "include"]]))
    emptyState =
  Ok (setModel emptyState
        (AddError NewModel "x.go" 3 "struct has both include and exclude directives")).
Proof.
  pose proof (field_tag_overrides (sampleWorld noFile noValue) inOrder
                (sampleConfig (flags false false) (fieldFlags false true) [] []))
    as (Hex & _ & _).
  pose proof (field_tag_overrides (sampleWorld noFile noValue) inOrder
                (sampleConfig (flags false false) (fieldFlags true false) [] []))
    as (_ & Hin & Hboth).
  split; [apply Hex; vm_compute; reflexivity|].
  split; [apply Hin; vm_compute; reflexivity|].
  apply (Hboth "x.go" "pkg" "main" declBoth
           (specUser "User" None [fieldOf "name" [tagPair "constago" "include"]])
           [fieldOf "name" [tagPair "constago" "include"]] emptyState);
    vm_compute; reflexivity.
Defined.


(** ** Source walker *)

Lemma append_assoc (a b c : string) : (a ++ b) ++ c = a ++ b ++ c.
Proof.
  induction a as [|x a IH]; [reflexivity|].
  change (String x ((a ++ b) ++ c) = String x (a ++ b ++ c)). by rewrite IH.
Qed.

Lemma rev_app_append a b acc :
  String.rev_app (a ++ b) acc = String.rev_app b (String.rev_app a acc).
Proof.
  revert acc. induction a as [|c a IH]; intros acc; [reflexivity|].
  change (String.rev_app (a ++ b) (String c acc)
          = String.rev_app b (String.rev_app a (String c acc))).
  apply IH.
Qed.

Lemma rev_app_acc s acc : String.rev_app s acc = String.rev_app s "" ++ acc.
Proof.
  revert acc. induction s as [|c s IH]; intros acc; [reflexivity|]. simpl.
  rewrite IH, (IH (String c "")). by rewrite append_assoc.
Qed.

Lemma HasPrefix_app s t p : Go.HasPrefix s p = true → Go.HasPrefix (s ++ t) p = true.
Proof.
  revert s. induction p as [|a p IH]; intros s; [intros _; by destruct (s ++ t)|].
  destruct s as [|b s]; [discriminate|].
  change (String b s ++ t) with (String b (s ++ t)). simpl.
  destruct (decide (a = b)); [apply IH|discriminate].
Qed.

Lemma HasSuffix_app a s p : Go.HasSuffix s p = true → Go.HasSuffix (a ++ s) p = true.
Proof.
  unfold Go.HasSuffix, String.rev. intros H.
  rewrite rev_app_append, rev_app_acc. by apply HasPrefix_app.
Qed.

Lemma joinPath_go dir m : goFile m → goFile (joinPath dir m).
Proof.
  unfold goFile, joinPath. intros H. destruct (decide (dir = "")); [done|].
  rewrite <- append_assoc. by apply HasSuffix_app.
Qed.

Section Walker.

Variable W : World.
Variable R : RangeOrder.
Variable config : Config.
Hypothesis Join_keeps_go : ∀ dir m, goFile m → goFile (filepath_Join W dir m).

Lemma walkPackageFiles_go packageName entries files :
  Forall goFile files → Forall goFile (walkPackageFiles W packageName entries files).1.
Proof.
  revert files. induction entries as [|e entries IH]; intros files Hfiles; simpl; [done|].
  destruct (w_err e); [done|].
  destruct (w_isDir e); [by apply IH|].
  destruct (Go.HasSuffix (w_path e) ".go") eqn:Hgo; simpl; [|by apply IH].
  destruct (ParsePackageClause W (w_path e)); [|by apply IH].
  destruct (decide _); apply IH; [|done].
  apply Forall_app; split; [done|]. by constructor.
Qed.

Lemma expandPattern_go pattern : Forall goFile (expandPattern W config pattern).1.
Proof.
  unfold expandPattern. destruct (Go.HasPrefix pattern "package:").
  - by apply walkPackageFiles_go.
  - destruct (Glob W _ pattern) as [err|matches]; simpl; [done|].
    apply Forall_fmap, Forall_forall. intros m [Hm _]%list_elem_of_filter.
    by apply Join_keeps_go.
Qed.

Lemma expandAll_go add patterns set set' :
  (∀ p s, goFile p → keysGo s → keysGo (add p s)) →
  keysGo set → expandAll W config add patterns set = inr set' → keysGo set'.
Proof.
  intros Hadd. revert set. induction patterns as [|pattern patterns IH]; intros set Hset; simpl.
  - by intros [= <-].
  - pose proof (expandPattern_go pattern) as Hgo.
    destruct (expandPattern W config pattern) as [paths [err|]]; [discriminate|].
    simpl in Hgo. apply IH. clear IH. revert set Hset.
    induction Hgo as [|p paths Hp _ IHp]; intros set Hset; simpl; [done|].
    apply IHp. by apply Hadd.
Qed.

(** C10: every path a pattern expands to ends in ".go", be it a glob match
    (other matches are filtered out before the directory is joined on) or a
    file of the package pseudo-pattern; so does every file [findFiles]
    returns, and these are the files [scanFiles] scans.  [filepath.Join] is
    taken to keep the last element of the path, as it is documented to. *)
Theorem expanded_files_are_go_files :
  (∀ pattern, Forall goFile (expandPattern W config pattern).1) ∧
  (∀ packageName, Forall goFile (findPackageFiles W config packageName).1) ∧
  (∀ st files st', findFiles W R config st = (inr files, st') → Forall goFile files) ∧
  (∀ st, scanFiles W R config st =
           match findFiles W R config st with
           | (inl err, st) => Ok (Some err, st)
           | (inr files, st) => scanAll W R config files st
           end).
Proof.
  split; [exact expandPattern_go|].
  split; [intros packageName; by apply walkPackageFiles_go|].
  split; [|reflexivity].
  intros st files st'. unfold findFiles.
  destruct (expandAll W config _ (Exclude _) ∅) as [err|mustExclude]; [discriminate|].
  destruct (expandAll W config _ (Include _) ∅) as [err|includeSet] eqn:Hinc; [discriminate|].
  intros [= <- _].
  apply expandAll_go in Hinc; [| |apply map_Forall_empty].
  - apply Forall_forall. intros p Hp.
    apply list_elem_of_fmap in Hp as [[p' b] [-> Hp]]. simpl.
    rewrite (order_perm R) in Hp. apply elem_of_map_to_list in Hp.
    exact (Hinc _ _ Hp).
  - intros p s Hp Hs. destruct (default false (mustExclude !! p)); [done|].
    by apply map_Forall_insert_2.
Qed.

End Walker.

Lemma expanded_files_are_go_files_witness :
  Forall goFile
    (expandPattern (sampleWorld noFile noValue)
       (sampleConfig (flags false false) (fieldFlags false false) [] []) "**/*").1 ∧
  (expandPattern (sampleWorld noFile noValue)
       (sampleConfig (flags false false) (fieldFlags false false) [] []) "**/*").1
    = ["./a.go"; "./sub/c.go"].
Proof.
  split; [|vm_compute; reflexivity].
  apply (expanded_files_are_go_files (sampleWorld noFile noValue) inOrder
           (sampleConfig (flags false false) (fieldFlags false false) [] [])).
  intros dir m. apply joinPath_go.
Defined.

(** ** Getter assembler *)

Lemma lookup2_insert2 {A} (cache : gmap string (gmap string A)) f r x f' r' :
  lookup2 (insert2 cache f r x) f' r' =
    if decide (f = f' ∧ r = r') then Some x else lookup2 cache f' r'.
Proof.
  unfold lookup2, insert2. destruct (decide (f = f')) as [->|Hf].
  - rewrite lookup_insert_eq. simpl. destruct (decide (r = r')) as [->|Hr].
    + rewrite lookup_insert_eq. by rewrite decide_True.
    + rewrite lookup_insert_ne by done. rewrite decide_False by (intros [? ?]; congruence).
      destruct (cache !! f'); simpl; [done|]. by rewrite lookup_empty.
  - rewrite lookup_insert_ne by done. by rewrite decide_False by (intros [? ?]; congruence).
Qed.

Lemma sameCaches_refl sc : sameCaches sc sc.
Proof. by repeat split. Qed.

Lemma sameCaches_trans sc1 sc2 sc3 : sameCaches sc1 sc2 → sameCaches sc2 sc3 → sameCaches sc1 sc3.
Proof.
  intros (H1 & H2 & H3 & H4 & H5) (G1 & G2 & G3 & G4 & G5).
  repeat split; try congruence; intros H; [by apply H5, G5|by apply G5, H5].
Qed.

Lemma satisfied_sameCaches W filePath packageName field fieldName sc sc' ret :
  sameCaches sc sc' →
  satisfied W filePath packageName field fieldName sc' ret
  = satisfied W filePath packageName field fieldName sc ret.
Proof.
  intros (_ & Hc & _ & Hf & Hn). unfold satisfied. rewrite Hc, Hf.
  destruct (Go.HasPrefix ret ":"); [done|].
  f_equal. f_equal. apply bool_decide_ext, Hn.
Qed.

Lemma isSome_Some {A} (x : A) : bool_decide (is_Some (Some x)) = true.
Proof. by apply bool_decide_eq_true_2. Qed.

Lemma isSome_None {A} : bool_decide (is_Some (@None A)) = false.
Proof. apply bool_decide_eq_false_2. by intros [? ?]. Qed.

Lemma scanReturn_step W filePath packageName field fieldName ret returns sc st :
  ∃ returns' sc' st',
    scanReturn W filePath packageName field fieldName ret (returns, sc, st)
      = (returns', sc', st') ∧
    sameCaches sc sc' ∧
    List.length returns' =
      List.length returns
      + (if satisfied W filePath packageName field fieldName sc ret then 1 else 0).
Proof.
  assert (∀ {A} (x : A), bool_decide (is_Some (Some x)) = true) as HS
    by (intros; by apply bool_decide_eq_true_2).
  assert (∀ A, bool_decide (is_Some (@None A)) = false) as HN
    by (intros; apply bool_decide_eq_false_2; by intros [? ?]).
  unfold scanReturn, satisfied, createValueOutput.
  destruct (Go.HasPrefix ret ":").
  - destruct (decide (ret = ":value")) as [->|Hne].
    + rewrite bool_decide_eq_true_2 by done.
      destruct (resolveValue W filePath field fieldName packageName) as [[[t p] n]|].
      * eexists _, _, _. split; [reflexivity|]. split; [apply sameCaches_refl|].
        by rewrite HS, length_app.
      * eexists _, _, _. split; [reflexivity|]. split; [apply sameCaches_refl|].
        rewrite HN. simpl. lia.
    + rewrite (bool_decide_eq_false_2 (ret = ":value")) by done.
      eexists _, _, _. split; [reflexivity|]. split; [apply sameCaches_refl|]. simpl. lia.
  - destruct (lookup2 (constantsByFieldAndElement sc) fieldName ret) as [cm|] eqn:Hc.
    { eexists _, _, _. split; [reflexivity|]. split; [apply sameCaches_refl|].
      by rewrite HS, length_app. }
    destruct (lookup2 (noneByFieldAndElement sc) fieldName ret) as [no|] eqn:Hn.
    { eexists _, _, _. split; [reflexivity|]. split.
      - repeat split; try reflexivity; simpl; rewrite lookup2_insert2;
          case_decide as Hd; try done.
        intros _. destruct Hd as [<- <-]. by rewrite Hn.
      - by rewrite HN, HS, length_app. }
    destruct (lookup2 (structFieldByFieldAndElement sc) fieldName ret) as [so|] eqn:Hs.
    { eexists _, _, _. split; [reflexivity|]. split; [apply sameCaches_refl|].
      by rewrite !HN, HS, length_app. }
    eexists _, _, _. split; [reflexivity|]. split; [apply sameCaches_refl|].
    rewrite !HN. simpl. lia.
Qed.

Lemma scanReturns_fold W filePath packageName field fieldName rets returns sc st :
  ∃ returns' sc' st',
    foldl (fun gs ret => scanReturn W filePath packageName field fieldName ret gs)
      (returns, sc, st) rets = (returns', sc', st') ∧
    sameCaches sc sc' ∧
    List.length returns' =
      List.length returns + countSatisfied W filePath packageName field fieldName sc rets.
Proof.
  revert returns sc st. induction rets as [|ret rets IH]; intros returns sc st; cbn [foldl].
  - eexists _, _, _. split; [reflexivity|]. split; [apply sameCaches_refl|].
    unfold countSatisfied. simpl. lia.
  - destruct (scanReturn_step W filePath packageName field fieldName ret returns sc st)
      as (r1 & sc1 & st1 & -> & Hsame & Hlen).
    destruct (IH r1 sc1 st1) as (r2 & sc2 & st2 & -> & Hsame2 & Hlen2).
    eexists _, _, _. split; [reflexivity|]. split; [by eapply sameCaches_trans|].
    rewrite Hlen2, Hlen. unfold countSatisfied. rewrite filter_cons.
    assert (List.length (filter (fun ret => satisfied W filePath packageName field fieldName sc1 ret = true) rets)
            = List.length (filter (fun ret => satisfied W filePath packageName field fieldName sc ret = true) rets)) as ->.
    { f_equal. apply list_filter_iff. intros x. by rewrite (satisfied_sameCaches _ _ _ _ _ sc sc1). }
    destruct (satisfied W filePath packageName field fieldName sc ret) eqn:Hs.
    + rewrite decide_True by done. simpl. lia.
    + rewrite decide_False by done. lia.
Qed.

Lemma countSatisfied_le W filePath packageName field fieldName sc rets :
  (countSatisfied W filePath packageName field fieldName sc rets ≤ List.length rets)%nat.
Proof. apply length_filter. Qed.

Lemma countSatisfied_lt W filePath packageName field fieldName sc rets ret :
  ret ∈ rets → satisfied W filePath packageName field fieldName sc ret = false →
  (countSatisfied W filePath packageName field fieldName sc rets < List.length rets)%nat.
Proof.
  intros Hin Hs. unfold countSatisfied.
  induction rets as [|r rets IH]; [by apply elem_of_nil in Hin|].
  rewrite filter_cons. apply elem_of_cons in Hin as [<-|Hin].
  - rewrite decide_False by (by rewrite Hs). simpl.
    pose proof (length_filter (fun r => satisfied W filePath packageName field fieldName sc r = true) rets). lia.
  - specialize (IH Hin). destruct (decide _); simpl; lia.
Qed.

Lemma unsatisfiable_not_satisfied W filePath packageName field fieldName sc ret :
  unsatisfiable W filePath packageName field fieldName sc ret →
  satisfied W filePath packageName field fieldName sc ret = false.
Proof.
  unfold satisfied, unsatisfiable.
  intros [H|H]; [destruct H as [-> Hv]|destruct H as (Hp & Hc & Hn & Hs)].
  - rewrite Hv. rewrite (bool_decide_eq_false_2 (is_Some None)) by (by intros [? ?]).
    apply andb_false_r.
  - rewrite Hp, Hc, Hn, Hs.
    by rewrite !(bool_decide_eq_false_2 (is_Some None)) by (by intros [? ?]).
Qed.

(** C1: for a field and a configured getter with N return tokens, the
    getter list of the struct either stays as it was or gains one getter
    whose return list has length exactly N; if some token cannot be
    served (a [:value] token whose field type cannot be determined, or an
    element token with no constant, no none-value and no struct-accessor
    field in the caches under the field's name) the list stays as it was;
    and in either case the model, and with it the error list, and the
    constants and accessor structs of the struct are left alone. *)
Theorem getter_has_all_returns_or_is_absent W filePath packageName field fieldName g sc st :
  let after := scanGetter W filePath packageName field fieldName g (sc, st) in
  let getters := sm_Getters (structModel sc) in
  let getters' := sm_Getters (structModel after.1) in
  (getters' = getters ∨
   ∃ getter, getters' = (getters ++ [getter])%list ∧
             List.length (go_Returns getter) = List.length (Returns g)) ∧
  ((∃ ret, ret ∈ Returns g ∧
           unsatisfiable W filePath packageName field fieldName sc ret) →
   getters' = getters) ∧
  model after.2 = model st ∧
  sm_Constants (structModel after.1) = sm_Constants (structModel sc) ∧
  sm_Structs (structModel after.1) = sm_Structs (structModel sc).
Proof.
  intros after getters getters'. subst after getters getters'.
  pose proof (scanGetter_model W filePath packageName field fieldName g (sc, st)) as Hmodel.
  unfold scanGetter in *.
  destruct (scanReturns_fold W filePath packageName field fieldName (Returns g) [] sc st)
    as (returns & sc1 & st1 & Hfold & (Hsm & _) & Hlen).
  rewrite Hfold in *. simpl in Hlen.
  destruct (decide (List.length returns = List.length (Returns g))) as [Heq|Hne]; simpl in *.
  - rewrite Hsm. repeat split; try done.
    + right. eexists. split; [reflexivity|]. exact Heq.
    + intros (ret & Hin & Hun). exfalso.
      apply unsatisfiable_not_satisfied in Hun.
      pose proof (countSatisfied_lt _ _ _ _ _ _ _ _ Hin Hun). lia.
  - rewrite Hsm. repeat split; try done. by left.
Qed.

Lemma scanElement_empty_value W packageName fieldName tagText el sc :
  computeElementValue W fieldName tagText el = "" →
  scanElement W packageName fieldName tagText el sc = sc.
Proof. intros Hv. unfold scanElement. by rewrite Hv. Qed.

Lemma scanElement_other_name W packageName fieldName tagText el sc name :
  el_Name el ≠ name → noEntry sc fieldName name →
  noEntry (scanElement W packageName fieldName tagText el sc) fieldName name.
Proof.
  intros Hne (Hc & Hn & Hs). unfold scanElement.
  destruct (decide _); [done|].
  destruct (out_Mode (el_Output el)); [| | |done].
  - repeat split; simpl; try done.
    rewrite lookup2_insert2. by rewrite decide_False by (intros [? ?]; congruence).
  - destruct (structByElement sc !! el_Name el); repeat split; simpl; try done;
      rewrite lookup2_insert2; by rewrite decide_False by (intros [? ?]; congruence).
  - repeat split; simpl; try done.
    rewrite lookup2_insert2. by rewrite decide_False by (intros [? ?]; congruence).
Qed.

Lemma empty_value_leaves_no_entry W packageName fieldName tagText elements sc name :
  (∀ el, el ∈ elements → el_Name el = name →
         computeElementValue W fieldName tagText el = "") →
  noEntry sc fieldName name →
  noEntry (foldl (fun sc el => scanElement W packageName fieldName tagText el sc) sc elements)
    fieldName name.
Proof.
  revert sc. induction elements as [|el elements IH]; intros sc Hempty Hno; simpl; [done|].
  apply IH; [intros e He; apply Hempty; by right|].
  destruct (decide (el_Name el = name)) as [Heq|Hne].
  - rewrite scanElement_empty_value; [done|]. apply Hempty; [by left|done].
  - by apply scanElement_other_name.
Qed.

(** C9, at the input where the code departs from it: in
    [struct { _ int `json:"a"`; _ int }] the element value of the second
    field is empty, and yet the getter over [json] is produced for it, out
    of the constant of the first field of the same name; scanned alone,
    the second field gets no getter. *)
Theorem empty_value_satisfied_through_namesake :
  computeElementValue plainWorld "_" "" (jsonElement OutputModeConstant) = "" ∧
  sm_Getters (structModel (scanFields plainWorld blankConfig "t.go" "main"
                             (specUser "T" None blankFields) blankFields emptyState).1)
  = [ {| go_Name := "Get";
         go_Returns := [ReturnConstant {| c_Name := "JsonT"; c_Value := "a" |}] |};
      {| go_Name := "Get";
         go_Returns := [ReturnConstant {| c_Name := "JsonT"; c_Value := "a" |}] |} ] ∧
  sm_Getters (structModel (scanFields plainWorld blankConfig "t.go" "main"
                             (specUser "T" None blankFields) (drop 1 blankFields) emptyState).1)
  = [].
Proof. vm_compute. repeat split; reflexivity. Qed.

Lemma getter_has_all_returns_or_is_absent_witness :
  sm_Getters
    (structModel
       (scanGetter (sampleWorld noFile stringValue) "t.go" "main" (fieldOf "Name" [])
          "Name" (getterOf "Get" [":value"; "json"])
          (newStructScan "T" "t.go" 3, emptyState)).1) = [].
Proof.
  apply (getter_has_all_returns_or_is_absent (sampleWorld noFile stringValue)
           "t.go" "main" (fieldOf "Name" []) "Name" (getterOf "Get" [":value"; "json"])
           (newStructScan "T" "t.go" 3) emptyState).
  exists "json". split; [by right; left|]. right. by vm_compute.
Defined.

(** ** Name formats *)

(** C8 as stated fails: "A_b" and "AB" are concatenations of words made of
    an upper-case letter followed by characters that are not upper case,
    and the pascal format turns them into "AB" and "Ab". *)
Lemma pascal_words_not_fixed :
  Forall (fun w => pascalWord w = true) ["A_b"] ∧ concatWords ["A_b"] = "A_b" ∧
  toPascalCase "A_b" = "AB" ∧
  buildName "" "A_b" "" "" ConstantFormatPascal = "AB" ∧
  Forall (fun w => pascalWord w = true) ["A"; "B"] ∧ concatWords ["A"; "B"] = "AB" ∧
  toPascalCase "AB" = "Ab" ∧
  buildName "" "AB" "" "" ConstantFormatPascal = "Ab".
Proof. repeat split; repeat constructor. Qed.

Lemma append_nil_r (s : string) : s ++ "" = s.
Proof.
  induction s as [|c s IH]; [reflexivity|].
  change (String c (s ++ "") = String c s). by rewrite IH.
Qed.

Lemma upper_not_separator c : Go.IsUpper c = true → isSeparator c = false.
Proof. destruct c as [[] [] [] [] [] [] [] []]; vm_compute; congruence. Qed.

Lemma lowerOrDigit_plain x :
  lowerOrDigit x = true → isSeparator x = false ∧ Go.IsUpper x = false.
Proof. destruct x as [[] [] [] [] [] [] [] []]; vm_compute; intuition congruence. Qed.

Lemma upper_lower_rune c : Go.IsUpper c = true →
  Go.IsLetter (Go.lower_rune c) = true ∧ Go.upper_rune (Go.lower_rune c) = c.
Proof. destruct c as [[] [] [] [] [] [] [] []]; vm_compute; intuition congruence. Qed.

Lemma lowerOrDigit_cases x : lowerOrDigit x = true →
  Go.lower_rune x = x ∧
  (Go.IsLetter x = true ∨ (Go.IsLetter x = false ∧ Go.IsDigit x = true)).
Proof. destruct x as [[] [] [] [] [] [] [] []]; vm_compute; intuition congruence. Qed.

Lemma calm_lastRune t prev :
  allRunes lowerOrDigit t = true → calm prev → calm (lastRune prev t).
Proof.
  revert prev. induction t as [|x t IH]; intros prev Ht Hprev; simpl in *; [done|].
  apply andb_prop in Ht as [Hx Ht]. apply IH; [done|].
  unfold calm. simpl. by apply lowerOrDigit_plain.
Qed.

Lemma splitLoop_lower t :
  allRunes lowerOrDigit t = true →
  ∀ prev rest words cur,
    splitLoop prev (t ++ rest) words cur = splitLoop (lastRune prev t) rest words (cur ++ t).
Proof.
  induction t as [|x t IH]; intros Ht prev rest words cur.
  - by rewrite append_nil_r.
  - simpl in Ht. apply andb_prop in Ht as [Hx Ht].
    destruct (lowerOrDigit_plain x Hx) as [Hsep Hup].
    change (String x t ++ rest) with (String x (t ++ rest)).
    cbn [splitLoop lastRune]. rewrite Hsep, Hup.
    rewrite (IH Ht). by rewrite append_assoc.
Qed.

Lemma flush_word words c s : flush words (String c s) = (words ++ [String c s])%list.
Proof. reflexivity. Qed.

Lemma splitLoop_word w prev rest words cur :
  properWord w = true → calm prev →
  ∃ prev', calm prev' ∧
    splitLoop prev (w ++ rest) words cur = splitLoop prev' rest (flush words cur) w.
Proof.
  intros Hw Hprev. destruct w as [|c [|d t]]; try discriminate.
  simpl in Hw. apply andb_prop in Hw as [Hc Ht].
  change (allRunes lowerOrDigit (String d t) = true) in Ht.
  exists (lastRune (Some c) (String d t)). split.
  { simpl. simpl in Ht. apply andb_prop in Ht as [Hd Ht]. apply calm_lastRune; [done|].
    unfold calm. simpl. by apply lowerOrDigit_plain. }
  change (String c (String d t) ++ rest) with (String c (String d t ++ rest)).
  cbn [splitLoop]. rewrite (upper_not_separator c Hc), Hc.
  unfold calm in Hprev. rewrite Hprev. simpl negb. rewrite andb_true_r.
  destruct cur as [|a cur].
  - change (0 <? String.length "")%nat with false. cbv iota.
    rewrite (splitLoop_lower _ Ht). reflexivity.
  - change (0 <? String.length (String a cur))%nat with true. cbv iota.
    rewrite (splitLoop_lower _ Ht). reflexivity.
Qed.

Lemma proper_nonempty w : properWord w = true → w ≠ "".
Proof. by destruct w. Qed.

Lemma splitLoop_words ws :
  Forall (fun w => properWord w = true) ws →
  ∀ prev words cur, calm prev →
    splitLoop prev (concatWords ws) words cur = (flush words cur ++ ws)%list.
Proof.
  induction 1 as [|w ws Hw _ IH]; intros prev words cur Hprev.
  - simpl. by rewrite app_nil_r.
  - simpl concatWords.
    destruct (splitLoop_word w prev (concatWords ws) words cur Hw Hprev) as (prev' & Hcalm & ->).
    rewrite (IH _ _ _ Hcalm). destruct w as [|c s]; [discriminate|].
    rewrite flush_word. by rewrite <- app_assoc.
Qed.

Lemma title_mid_tail t : allRunes lowerOrDigit t = true → Go.title_from true t = t.
Proof.
  induction t as [|x t IH]; intros Ht; simpl in *; [done|].
  apply andb_prop in Ht as [Hx Ht]. rewrite (IH Ht).
  destruct (lowerOrDigit_cases x Hx) as [_ [->|[-> ->]]]; reflexivity.
Qed.

Lemma lower_tail t : allRunes lowerOrDigit t = true → Go.ToLower t = t.
Proof.
  induction t as [|x t IH]; intros Ht; simpl in *; [done|].
  apply andb_prop in Ht as [Hx Ht]. unfold Go.ToLower in *. simpl. rewrite (IH Ht).
  by destruct (lowerOrDigit_cases x Hx) as [-> _].
Qed.

Lemma titleWord_proper w : properWord w = true → titleWord w = w.
Proof.
  intros Hw. destruct w as [|c [|d t]]; try discriminate.
  simpl in Hw. apply andb_prop in Hw as [Hc Ht].
  change (allRunes lowerOrDigit (String d t) = true) in Ht.
  unfold titleWord. change (Go.ToLower (String c (String d t)))
    with (String (Go.lower_rune c) (Go.ToLower (String d t))).
  rewrite (lower_tail _ Ht). unfold Go.Title.
  generalize dependent (String d t). intros tail Htail.
  cbn [Go.title_from].
  destruct (upper_lower_rune c Hc) as [-> ->]. by rewrite (title_mid_tail _ Htail).
Qed.

Lemma arrayToPascalCase_proper ws :
  Forall (fun w => properWord w = true) ws → arrayToPascalCase ws = concatWords ws.
Proof.
  induction 1 as [|w ws Hw _ IH]; simpl; [done|].
  rewrite decide_False by by apply proper_nonempty.
  by rewrite titleWord_proper, IH.
Qed.

(** C8, amended: the pascal format returns unchanged every string that is
    a concatenation of words each made of an upper-case letter followed by
    one or more lower-case letters or digits. *)
Theorem pascal_format_fixes_pascal_words ws :
  Forall (fun w => properWord w = true) ws →
  toPascalCase (concatWords ws) = concatWords ws ∧
  buildName "" (concatWords ws) "" "" ConstantFormatPascal = concatWords ws.
Proof.
  intros Hws.
  assert (toPascalCase (concatWords ws) = concatWords ws) as Hp.
  { unfold toPascalCase. destruct (decide _); [done|].
    unfold splitIntoWords. rewrite (splitLoop_words ws Hws) by done.
    by apply arrayToPascalCase_proper. }
  split; [done|]. unfold buildName, nonEmpty. simpl.
  destruct (decide (concatWords ws = "")) as [->|Hne]; [reflexivity|]. exact Hp.
Qed.

Lemma pascal_format_fixes_pascal_words_witness :
  toPascalCase "FirstName2" = "FirstName2" ∧
  buildName "" "FirstName2" "" "" ConstantFormatPascal = "FirstName2".
Proof.
  apply (pascal_format_fixes_pascal_words ["First"; "Name2"]).
  repeat constructor.
Defined.

(** ** Model aggregator *)

Lemma takenb_spec h imports cur name :
  takenb h imports cur name = true ↔ taken h imports cur name.
Proof.
  unfold takenb, taken. rewrite existsb_exists. split.
  - intros ([p l] & Hin & Hhit). apply list_elem_of_In, elem_of_map_to_list in Hin. eauto.
  - intros (p & l & Hp & Hhit). exists (p, l). split; [|done].
    by apply list_elem_of_In, elem_of_map_to_list.
Qed.

Lemma prefixed_S k name : prefixed (S k) name = prefixed k ("_" ++ name).
Proof. unfold prefixed. by rewrite Nat.iter_succ_r. Qed.

Lemma clashes_setAlias imp c a name : clashes imp (setAlias c a) name = clashes imp c name.
Proof. reflexivity. Qed.

Lemma hit_setAlias h cur c a l name :
  h !! cur = Some c →
  hit (<[cur := setAlias c a]> h) cur l name = hit h cur l name.
Proof.
  intros Hc. unfold hit. assert (cur < List.length h)%nat by (eapply lookup_lt_Some; eauto).
  rewrite (list_lookup_insert_eq h cur) by done.
  destruct (decide (l = cur)) as [->|Hne].
  - rewrite list_lookup_insert_eq by done. rewrite Hc.
    unfold clashes. simpl. by rewrite !(bool_decide_eq_true_2 (tp_Path c = tp_Path c)) by done.
  - rewrite list_lookup_insert_ne by congruence. rewrite Hc. destruct (h !! l); reflexivity.
Qed.

Lemma taken_setAlias h imports cur c a name :
  h !! cur = Some c →
  taken (<[cur := setAlias c a]> h) imports cur name ↔ taken h imports cur name.
Proof.
  intros Hc. unfold taken. by setoid_rewrite (hit_setAlias h cur c a _ name Hc).
Qed.

Lemma inStore_setAlias h imports cur t :
  inStore h imports → inStore (<[cur := t]> h) imports.
Proof.
  intros Hin p l Hp. apply lookup_lt_is_Some. rewrite length_insert.
  apply lookup_lt_is_Some. by eapply Hin.
Qed.

Lemma setAlias_setAlias c a b : setAlias (setAlias c a) b = setAlias c b.
Proof. reflexivity. Qed.

Section Walk.

Variable R : RangeOrder.
Variable imports : gmap string loc.
Variable cur : loc.

(** One pass of the loop of [setRecursiveAlias] over entries none of which
    clashes leaves the state alone. *)
Lemma setRecursiveAlias_free fuel name level st c :
  inStore (store st) imports → store st !! cur = Some c →
  ¬ taken (store st) imports cur name →
  ∃ st', setRecursiveAlias R (S fuel) imports cur name level st = Ok st' ∧
         model st' = model st ∧ store st' = store st.
Proof.
  intros Hin Hc Hfree. cbn [setRecursiveAlias].
  set (s0 := {| model := model st; store := store st; ranges := S (ranges st) |}).
  assert (∀ xs, (∀ e, e ∈ xs → imports !! e.1 = Some e.2) →
    forEach xs (fun e st0 =>
      imp ← deref (store st0 !! e.2); cur0 ← deref (store st0 !! cur);
      if clashes imp cur0 name
      then setRecursiveAlias R fuel imports cur ("_" ++ name) (level + 1)
             (setStore st0 (<[cur := setAlias cur0 ("_" ++ name)]> (store st0)))
      else Ok st0) s0 = Ok s0) as Hloop.
  { induction xs as [|e xs IH]; intros Hxs; [reflexivity|]. cbn [forEach].
    assert (imports !! e.1 = Some e.2) as He by (apply Hxs; by left).
    destruct (Hin _ _ He) as [imp Himp]. simpl store. rewrite Himp, Hc. simpl.
    destruct (clashes imp c name) eqn:Hcl.
    - exfalso. apply Hfree. exists e.1, e.2. split; [done|]. unfold hit. by rewrite Himp, Hc.
    - apply IH. intros e' He'. apply Hxs. by right. }
  exists s0. split; [|done]. apply Hloop.
  intros [p l] He. rewrite (order_perm R) in He. by apply elem_of_map_to_list in He.
Qed.

Lemma setRecursiveAlias_run d : ∀ fuel name level st c,
  inStore (store st) imports → store st !! cur = Some c →
  leastFree (store st) imports cur name d → (d < fuel)%nat →
  ∃ st', setRecursiveAlias R fuel imports cur name level st = Ok st' ∧
         model st' = model st ∧
         store st' = match d with
                     | O => store st
                     | S _ => <[cur := setAlias c (prefixed d name)]> (store st)
                     end.
Proof.
  induction d as [|d IH]; intros fuel name level st c Hin Hc [Hbelow Hfree] Hfuel.
  - destruct fuel as [|fuel]; [lia|]. by apply setRecursiveAlias_free with c.
  - destruct fuel as [|fuel]; [lia|].
    set (h := store st). set (H := <[cur := setAlias c (prefixed (S d) name)]> h).
    assert (cur < List.length h)%nat as Hlen by (eapply lookup_lt_Some; eauto).
    (* what a recursive call does, from either store *)
    assert (∀ lvl s c', model s = model st → store s !! cur = Some c' →
              (store s = h ∨ store s = H) →
              ∃ s', setRecursiveAlias R fuel imports cur ("_" ++ name) lvl
                      (setStore s (<[cur := setAlias c' ("_" ++ name)]> (store s))) = Ok s' ∧
                    model s' = model st ∧ store s' = H) as Hrec.
    { intros lvl s c' Hm Hc' Hs.
      assert (<[cur := setAlias c' ("_" ++ name)]> (store s)
              = <[cur := setAlias c ("_" ++ name)]> h) as Hh1.
      { destruct Hs as [Hs|Hs]; rewrite Hs in Hc' |- *.
        - fold h in Hc. by replace c' with c by congruence.
        - unfold H in Hc' |- *. rewrite list_lookup_insert_eq in Hc' by done.
          injection Hc' as <-. by rewrite list_insert_insert_eq. }
      rewrite Hh1.
      destruct (IH fuel ("_" ++ name) lvl
                  (setStore s (<[cur := setAlias c ("_" ++ name)]> h))
                  (setAlias c ("_" ++ name))) as (s' & Hrun & Hm' & Hst').
      - simpl. by apply inStore_setAlias.
      - simpl. by apply list_lookup_insert_eq.
      - simpl. split.
        + intros i Hi. apply taken_setAlias; [done|]. rewrite <- prefixed_S. apply Hbelow. lia.
        + rewrite taken_setAlias by done. by rewrite <- prefixed_S.
      - lia.
      - exists s'. split; [exact Hrun|]. split; [by rewrite Hm'|].
        rewrite Hst'. simpl. unfold H. rewrite prefixed_S.
        destruct d; [reflexivity|]. by rewrite list_insert_insert_eq. }
    (* the loop *)
    assert (∀ xs, (∀ e, e ∈ xs → imports !! e.1 = Some e.2) →
      ∀ s, model s = model st → (store s = h ∨ store s = H) →
      ∃ s', forEach xs (fun e st0 =>
              imp ← deref (store st0 !! e.2); cur0 ← deref (store st0 !! cur);
              if clashes imp cur0 name
              then setRecursiveAlias R fuel imports cur ("_" ++ name) (level + 1)
                     (setStore st0 (<[cur := setAlias cur0 ("_" ++ name)]> (store st0)))
              else Ok st0) s = Ok s' ∧
            model s' = model st ∧
            (store s' = H ∨
             (store s' = store s ∧ ∀ e, e ∈ xs → hit h cur e.2 name = false))) as Hloop.
    { induction xs as [|e xs IHxs]; intros Hxs s Hm Hs.
      - exists s. split; [reflexivity|]. split; [done|]. right. split; [done|].
        intros e He. by apply elem_of_nil in He.
      - cbn [forEach].
        assert (imports !! e.1 = Some e.2) as He by (apply Hxs; by left).
        assert (∃ c', store s !! cur = Some c' ∧ ∃ a, c' = setAlias c a) as (c' & Hc' & a & Ha).
        { destruct Hs as [-> | ->].
          - exists c. split; [done|]. exists (tp_Alias c). by destruct c.
          - unfold H. rewrite list_lookup_insert_eq by done. eauto. }
        assert (hit (store s) cur e.2 name = hit h cur e.2 name) as Hhit.
        { destruct Hs as [-> | ->]; [done|]. by apply hit_setAlias. }
        assert (is_Some (store s !! e.2)) as [imp Himp].
        { destruct Hs as [-> | ->]; [by eapply Hin|].
          apply (inStore_setAlias h imports cur _ Hin _ _ He). }
        rewrite Himp, Hc'. simpl.
        unfold hit in Hhit at 1. rewrite Himp, Hc' in Hhit. rewrite Hhit.
        destruct (hit h cur e.2 name) eqn:Hh.
        + destruct (Hrec (level + 1)%Z s c' Hm Hc' Hs) as (s1 & -> & Hm1 & Hs1). simpl.
          destruct (IHxs (fun e' He' => Hxs e' (list_elem_of_further _ _ _ He')) s1 Hm1
                      (or_intror Hs1)) as (s' & Hrun & Hm' & Hs').
          exists s'. split; [exact Hrun|]. split; [done|]. left.
          destruct Hs' as [Hs'|[Hs' _]]; congruence.
        + destruct (IHxs (fun e' He' => Hxs e' (list_elem_of_further _ _ _ He')) s Hm Hs)
            as (s' & Hrun & Hm' & Hs').
          exists s'. split; [exact Hrun|]. split; [done|].
          destruct Hs' as [Hs'|[Hs' Hno]]; [by left|]. right. split; [done|].
          intros e' [->|He']%elem_of_cons; [done|by apply Hno]. }
    cbn [setRecursiveAlias].
    destruct (Hloop (order R (ranges st) _ (map_to_list imports))
                (fun e He => proj1 (elem_of_map_to_list imports e.1 e.2)
                               ltac:(rewrite (order_perm R) in He; by destruct e))
                {| model := model st; store := store st; ranges := S (ranges st) |}
                eq_refl (or_introl eq_refl)) as (s' & Hrun & Hm' & Hs').
    exists s'. split; [exact Hrun|]. split; [done|].
    destruct Hs' as [Hs'|[_ Hno]]; [done|]. exfalso.
    destruct (Hbelow 0%nat ltac:(lia)) as (p & l & Hp & Hhit).
    specialize (Hno (p, l)). simpl in Hno. unfold h in Hno.
    change (prefixed 0 name) with name in Hhit.
    rewrite Hno in Hhit; [done|].
    rewrite (order_perm R). by apply elem_of_map_to_list.
Qed.

End Walk.

(** *** Enough fuel *)

Lemma aliasFuel_maxLen h : aliasFuel h = S (S (maxLen h)).
Proof. reflexivity. Qed.

Lemma maxLen_lookup h l t :
  h !! l = Some t →
  (String.length (tp_Name t) ≤ maxLen h ∧ String.length (tp_Alias t) ≤ maxLen h)%nat.
Proof.
  revert l. induction h as [|x h IH]; intros l Hl; [done|].
  destruct l as [|l]; simpl in Hl.
  - injection Hl as ->. simpl. lia.
  - apply IH in Hl. simpl. lia.
Qed.

Lemma taken_length h imports cur name :
  taken h imports cur name → (String.length name ≤ maxLen h)%nat.
Proof.
  intros (p & l & _ & Hhit). unfold hit in Hhit.
  destruct (h !! l) as [imp|] eqn:Himp; [|done]. destruct (h !! cur); [|done].
  apply maxLen_lookup in Himp as [Hn Ha].
  unfold clashes in Hhit. apply andb_prop in Hhit as [_ Hor].
  apply orb_prop in Hor as [Heq|Heq]; apply bool_decide_eq_true_1 in Heq; by subst.
Qed.

Lemma prefixed_length k name : String.length (prefixed k name) = (k + String.length name)%nat.
Proof. induction k as [|k IH]; [done|]. unfold prefixed in *. simpl. by rewrite IH. Qed.

Lemma leastFree_search h imports cur B : ∀ name,
  ¬ taken h imports cur (prefixed B name) →
  ∃ d, (d ≤ B)%nat ∧ leastFree h imports cur name d.
Proof.
  induction B as [|B IH]; intros name Hfree.
  - exists 0%nat. split; [done|]. split; [intros i Hi; lia|done].
  - destruct (takenb h imports cur name) eqn:Ht.
    + rewrite prefixed_S in Hfree. destruct (IH _ Hfree) as (d & Hd & Hbelow & Hd').
      exists (S d). split; [lia|]. split.
      * intros [|i] Hi; [by apply takenb_spec|]. rewrite prefixed_S. apply Hbelow. lia.
      * by rewrite prefixed_S.
    + exists 0%nat. split; [lia|]. split; [intros i Hi; lia|].
      intros Htk%takenb_spec. simpl in Htk. congruence.
Qed.

Lemma leastFree_exists h imports cur name :
  ∃ d, (d < aliasFuel h)%nat ∧ leastFree h imports cur name d.
Proof.
  destruct (leastFree_search h imports cur (S (maxLen h)) name) as (d & Hd & Hleast).
  - intros Htk%taken_length. rewrite prefixed_length in Htk. lia.
  - exists d. split; [|done]. rewrite aliasFuel_maxLen. lia.
Qed.

(** *** Registering an import *)

Lemma prefixed_nonempty d name : prefixed (S d) name ≠ "".
Proof. unfold prefixed. simpl. discriminate. Qed.

Lemma importsOk_inStore h imports : importsOk h imports → inStore h imports.
Proof. intros [Hkey _] p l Hp. destruct (Hkey _ _ Hp) as (t & Ht & _). eauto. Qed.

Lemma importsOk_other h imports l t :
  importsOk h imports → apartFrom [l] imports → importsOk (<[l := t]> h) imports.
Proof.
  intros [Hkey Hdist] Hapart.
  assert (∀ p l0, imports !! p = Some l0 → (<[l := t]> h) !! l0 = h !! l0) as Hsame.
  { intros p l0 Hp. apply list_lookup_insert_ne. intros ->.
    apply (Hapart _ _ Hp). by left. }
  split.
  - intros p l0 Hp. rewrite (Hsame _ _ Hp). by apply Hkey.
  - intros p1 p2 l1 l2 t1 t2 Hne Hp1 Hp2. rewrite (Hsame _ _ Hp1), (Hsame _ _ Hp2).
    by apply (Hdist p1 p2).
Qed.

Section Register.

Variable R : RangeOrder.

Lemma registerImport_other r pkg st :
  (∀ v, r ≠ ReturnValue v) → registerImport R r (pkg, st) = Ok (pkg, st).
Proof. intros Hr. destruct r; try reflexivity. by destruct (Hr v). Qed.

Lemma registerImport_value v pkg st tp :
  store st !! TypePackage v = Some tp → tp_Alias tp = "" →
  importsOk (store st) (pm_Imports pkg) → apartFrom [TypePackage v] (pm_Imports pkg) →
  ∃ imports' st',
    registerImport R (ReturnValue v) (pkg, st) = Ok (withImports pkg imports', st') ∧
    model st' = model st ∧
    importsOk (store st') imports' ∧
    (∃ t', store st' = <[TypePackage v := t']> (store st)) ∧
    (∀ F, TypePackage v ∉ F → apartFrom F (pm_Imports pkg) → apartFrom F imports') ∧
    match pm_Imports pkg !! tp_Path tp with
    | Some _ => imports' = pm_Imports pkg ∧ store st' = store st
    | None =>
        imports' = <[tp_Path tp := TypePackage v]> (pm_Imports pkg) ∧
        ∃ d, leastFree (store st) imports' (TypePackage v) (tp_Name tp) d ∧
             store st' = match d with
                         | O => store st
                         | S _ => <[TypePackage v :=
                                     setAlias tp (prefixed d (tp_Name tp))]> (store st)
                         end
    end.
Proof.
  intros Htp Halias Hok Hapart. unfold registerImport. rewrite Htp. simpl.
  destruct (pm_Imports pkg !! tp_Path tp) as [l0|] eqn:Hpath.
  { exists (pm_Imports pkg), st. split; [by destruct pkg|]. split; [done|].
    split; [done|]. split; [exists tp; by rewrite list_insert_id|]. split; [done|done]. }
  set (l := TypePackage v) in *. set (imports' := <[tp_Path tp := l]> (pm_Imports pkg)).
  assert (inStore (store st) imports') as Hin.
  { intros p l1. unfold imports'. rewrite lookup_insert. case_decide.
    - intros [= <-]. eauto.
    - by apply importsOk_inStore. }
  destruct (leastFree_exists (store st) imports' l (tp_Name tp)) as (d & Hd & Hleast).
  destruct (setRecursiveAlias_run R imports' l d (aliasFuel (store st)) (tp_Name tp) 0%Z st tp
              Hin Htp Hleast Hd) as (st' & Hrun & Hm & Hst).
  exists imports', st'. rewrite Hrun. simpl.
  split; [reflexivity|]. split; [done|].
  assert (∃ t', store st' = <[l := t']> (store st) ∧ tp_Path t' = tp_Path tp
                ∧ effective t' = prefixed d (tp_Name tp)) as (t' & Hst' & Hpath' & Heff).
  { rewrite Hst. destruct d as [|d].
    - exists tp. split; [by rewrite list_insert_id|]. split; [done|].
      unfold effective. by rewrite Halias.
    - eexists. split; [reflexivity|]. split; [done|]. unfold effective.
      cbn [tp_Alias setAlias].
      destruct (decide _) as [E|_]; [by apply prefixed_nonempty in E|done]. }
  assert (l < List.length (store st))%nat as Hlen by (eapply lookup_lt_Some; eauto).
  split; [|split; [eauto|split]].
  - destruct Hok as [Hkey Hdist].
    assert (∀ p l0, pm_Imports pkg !! p = Some l0 → l ≠ l0) as Hne.
    { intros p l0 Hp Heq. apply (Hapart _ _ Hp). rewrite <- Heq. by left. }
    assert (∀ p0 l0 t0, pm_Imports pkg !! p0 = Some l0 → store st !! l0 = Some t0 →
              effective t0 ≠ effective t') as Hnew.
    { intros p0 l0 t0 Hp0 Ht0 Heq. rewrite Heff in Heq.
      destruct Hleast as [_ Hfree]. apply Hfree. exists p0, l0. split.
      - unfold imports'. rewrite lookup_insert_ne; [done|]. intros <-. congruence.
      - unfold hit. rewrite Ht0, Htp. unfold clashes.
        destruct (Hkey _ _ Hp0) as (t0' & Ht0' & Hp0').
        assert (t0' = t0) as -> by congruence.
        rewrite bool_decide_eq_false_2 by (rewrite Hp0'; intros ->; congruence).
        simpl. unfold effective in Heq. destruct (decide (tp_Alias t0 = "")).
        + by rewrite (bool_decide_eq_true_2 _ Heq).
        + rewrite (bool_decide_eq_true_2 (tp_Alias t0 = _) Heq). apply orb_true_r. }
    split.
    + intros p l1. unfold imports'. rewrite lookup_insert. case_decide as Hp.
      * intros [= <-]. subst p. exists t'. split; [|done].
        rewrite Hst'. by apply list_lookup_insert_eq.
      * intros Hl1. rewrite Hst'.
        rewrite list_lookup_insert_ne by exact (Hne _ _ Hl1).
        by apply Hkey.
    + intros p1 p2 l1 l2 t1 t2 Hp12. unfold imports'. rewrite !lookup_insert.
      rewrite Hst'. case_decide as H1; case_decide as H2.
      * congruence.
      * intros [= <-] Hl2. rewrite list_lookup_insert_eq by done.
        rewrite list_lookup_insert_ne by exact (Hne _ _ Hl2).
        intros [= <-] Ht2 Heq. by eapply Hnew.
      * intros Hl1 [= <-]. rewrite list_lookup_insert_eq by done.
        rewrite list_lookup_insert_ne by exact (Hne _ _ Hl1).
        intros Ht1 [= <-] Heq. by eapply Hnew.
      * intros Hl1 Hl2.
        rewrite (list_lookup_insert_ne _ _ l1) by exact (Hne _ _ Hl1).
        rewrite (list_lookup_insert_ne _ _ l2) by exact (Hne _ _ Hl2).
        by apply (Hdist p1 p2).
  - intros F HF Hap p l1. unfold imports'. rewrite lookup_insert. case_decide.
    + by intros [= <-].
    + by apply Hap.
  - split; [reflexivity|]. exists d. split; [done|]. exact Hst.
Qed.

End Register.

(** *** Adding structs *)

Lemma registered_app vs1 vs2 a b c :
  registered vs1 a b → registered vs2 b c → registered (vs1 ++ vs2) a c.
Proof.
  revert a. induction vs1 as [|v vs1 IH]; intros a; simpl.
  - by intros ->.
  - intros (a' & H1 & H2) H3. exists a'. split; [done|]. by apply IH.
Qed.

Lemma apartFrom_weaken F F' imports :
  (∀ l, l ∈ F' → l ∈ F) → apartFrom F imports → apartFrom F' imports.
Proof. intros Hsub Hap p l Hp Hl. by apply (Hap _ _ Hp), Hsub. Qed.

Lemma withImports_id pkg : withImports pkg (pm_Imports pkg) = pkg.
Proof. by destruct pkg. Qed.

Section AddStruct.

Variable R : RangeOrder.

Lemma registerImports_run rs : ∀ pkg st F,
  fresh (store st) ((TypePackage <$> omap valueOf rs) ++ F) →
  importsOk (store st) (pm_Imports pkg) →
  apartFrom ((TypePackage <$> omap valueOf rs) ++ F) (pm_Imports pkg) →
  ∃ imports' st',
    forEach rs (registerImport R) (pkg, st) = Ok (withImports pkg imports', st') ∧
    model st' = model st ∧
    fresh (store st') F ∧
    importsOk (store st') imports' ∧ apartFrom F imports' ∧
    registered (omap valueOf rs) (pm_Imports pkg, store st) (imports', store st') ∧
    ∀ M, importsOk (store st) M → apartFrom ((TypePackage <$> omap valueOf rs) ++ F) M →
         importsOk (store st') M.
Proof.
  induction rs as [|r rs IH]; intros pkg st F Hfresh Hok Hap.
  - exists (pm_Imports pkg), st. rewrite withImports_id.
    split; [reflexivity|]. split; [reflexivity|]. split; [exact Hfresh|].
    split; [exact Hok|]. split; [exact Hap|]. split; [reflexivity|]. by intros.
  - destruct r as [f|c|n|v].
    1-3: destruct (IH pkg st F Hfresh Hok Hap) as (i' & st' & Hrun & H');
         exists i', st'; split; [exact Hrun|exact H'].
    change ((TypePackage <$> omap valueOf (ReturnValue v :: rs)) ++ F)%list
      with (TypePackage v :: ((TypePackage <$> omap valueOf rs) ++ F))%list in Hfresh, Hap.
    destruct Hfresh as [Hnd Hfr].
    apply NoDup_cons in Hnd as [Hnotin Hnd].
    destruct (Hfr (TypePackage v) ltac:(by left)) as (tp & Htp & Halias).
    destruct (registerImport_value R v pkg st tp Htp Halias Hok)
      as (i1 & st1 & Hrun1 & Hm1 & Hok1 & (t' & Hst1) & Hap1 & Hone).
    { eapply apartFrom_weaken; [|exact Hap]. intros l ->%list_elem_of_singleton. by left. }
    assert (∀ l, l ∈ ((TypePackage <$> omap valueOf rs) ++ F)%list →
                 store st1 !! l = store st !! l) as Hsame.
    { intros l Hl. rewrite Hst1. apply list_lookup_insert_ne. intros Heq. by subst l. }
    destruct (IH (withImports pkg i1) st1 F)
      as (i2 & st2 & Hrun2 & Hm2 & Hfr2 & Hok2 & Hap2 & Hreg2 & Hoth2).
    + split; [done|]. intros l Hl. rewrite (Hsame _ Hl). apply Hfr. by right.
    + exact Hok1.
    + apply Hap1; [done|]. eapply apartFrom_weaken; [|exact Hap]. intros l Hl. by right.
    + exists i2, st2. cbn [forEach]. rewrite Hrun1. simpl. rewrite Hrun2.
      split; [reflexivity|]. split; [congruence|]. split; [done|]. split; [done|].
      split; [done|].
      split.
      { exists (i1, store st1). split; [|exact Hreg2]. exists tp. split; [exact Htp|].
        simpl. destruct (pm_Imports pkg !! tp_Path tp).
        - destruct Hone as [-> ->]. reflexivity.
        - exact Hone. }
      change ((TypePackage <$> omap valueOf (ReturnValue v :: rs)) ++ F)%list
        with (TypePackage v :: ((TypePackage <$> omap valueOf rs) ++ F))%list.
      intros M HM HapM. apply Hoth2.
      * rewrite Hst1. apply importsOk_other; [done|].
        eapply apartFrom_weaken; [|exact HapM]. intros l ->%list_elem_of_singleton. by left.
      * eapply apartFrom_weaken; [|exact HapM]. intros l Hl. by right.
Qed.

Lemma AddStruct_ok st packagePath packageName sm F :
  aggregatorOk st (valueLocs sm ++ F) →
  ∃ st', AddStruct R st packagePath packageName sm = Ok st' ∧ aggregatorOk st' F ∧
         registered (values sm) (importsAt st packagePath, store st)
           (importsAt st' packagePath, store st').
Proof.
  intros [Hfresh Hpk]. unfold AddStruct.
  set (pm := match Packages (model st) !! packagePath with
             | Some pkg => (pkg, model st)
             | None => _ end).
  assert (importsOk (store st) (pm_Imports pm.1) ∧
          apartFrom (valueLocs sm ++ F) (pm_Imports pm.1) ∧
          Packages pm.2 = Packages (model st) ∧
          pm_Imports pm.1 = importsAt st packagePath) as (Hok & Hap & HP & Hat).
  { unfold pm, importsAt.
    destruct (Packages (model st) !! packagePath) as [pkg|] eqn:Hp; simpl.
    - destruct (Hpk _ _ Hp). done.
    - repeat split; try done; intros ? * Hl; by rewrite lookup_empty in Hl. }
  destruct pm as [pkg m]. simpl in Hok, Hap, HP, Hat.
  destruct (registerImports_run (returnValues sm) pkg (setModel st m) F Hfresh Hok Hap)
    as (i' & st' & Hrun & Hm & Hfr & Hok' & Hap' & Hreg & Hoth).
  rewrite Hrun. simpl. eexists. split; [reflexivity|]. split; [split; [exact Hfr|]|].
  - simpl. intros path pkg0. rewrite Hm. simpl. rewrite HP. rewrite lookup_insert.
    case_decide.
    + intros [= <-]. simpl. done.
    + intros Hp0. destruct (Hpk _ _ Hp0) as [Hok0 Hap0]. split.
      * by apply Hoth.
      * eapply apartFrom_weaken; [|exact Hap0]. intros l Hl. apply elem_of_app. by right.
  - unfold importsAt at 2. simpl. rewrite lookup_insert_eq. simpl.
    rewrite <- Hat. exact Hreg.
Qed.

Lemma AddStructs_ok calls : ∀ st,
  aggregatorOk st (calls ≫= (fun c => valueLocs c.2)) →
  ∃ st', AddStructs R calls st = Ok st' ∧ aggregatorOk st' [] ∧
         ∀ path, Forall (fun c => c.1.1 = path) calls →
                 registered (calls ≫= (fun c => values c.2))
                   (importsAt st path, store st) (importsAt st' path, store st').
Proof.
  induction calls as [|[[path name] sm] calls IH]; intros st Hok.
  - exists st. split; [done|]. split; [done|]. by intros.
  - rewrite bind_cons in Hok.
    destruct (AddStruct_ok st path name sm _ Hok) as (st1 & Hrun & Hok1 & Hreg1).
    destruct (IH st1 Hok1) as (st' & Hrun' & Hok' & Hreg').
    exists st'. split; [|split; [done|]].
    + unfold AddStructs in *. cbn [forEach]. rewrite Hrun. exact Hrun'.
    + intros path' Hall. apply Forall_cons in Hall as [Hp Hall]. simpl in Hp. subst path'.
      rewrite bind_cons.
      eapply registered_app; [exact Hreg1|]. by apply Hreg'.
Qed.

(** C4: a run of [AddStruct] calls from a fresh model, over structs whose
    value returns point to pairwise distinct package objects with no alias,
    ends normally whatever the order of the map walks, and leaves every
    package with an import map in which each entry sits under its own path
    and no two entries go by the same identifier, the alias when it is not
    empty and the name otherwise. *)
Theorem imports_have_distinct_identifiers calls h n :
  NoDup (calls ≫= (fun c => valueLocs c.2)) →
  (∀ l, l ∈ calls ≫= (fun c => valueLocs c.2) → ∃ t, h !! l = Some t ∧ tp_Alias t = "") →
  ∃ st',
    AddStructs R calls {| model := NewModel; store := h; ranges := n |} = Ok st' ∧
    ∀ path pkg, Packages (model st') !! path = Some pkg →
      (∀ p l, pm_Imports pkg !! p = Some l →
              ∃ t, store st' !! l = Some t ∧ tp_Path t = p) ∧
      (∀ p1 p2 l1 l2 t1 t2,
         p1 ≠ p2 → pm_Imports pkg !! p1 = Some l1 → pm_Imports pkg !! p2 = Some l2 →
         store st' !! l1 = Some t1 → store st' !! l2 = Some t2 →
         effective t1 ≠ effective t2).
Proof.
  intros Hnd Hfr.
  destruct (AddStructs_ok calls {| model := NewModel; store := h; ranges := n |})
    as (st' & Hrun & [_ Hpk] & _).
  - split; [by split|]. intros path pkg Hp. simpl in Hp. by rewrite lookup_empty in Hp.
  - exists st'. split; [exact Hrun|]. intros path pkg Hp. by destruct (Hpk _ _ Hp).
Qed.

End AddStruct.

(** *** Three imports named alike *)

Lemma leastFree_unique h imports cur name d1 d2 :
  leastFree h imports cur name d1 → leastFree h imports cur name d2 → d1 = d2.
Proof.
  intros [Hb1 Hf1] [Hb2 Hf2].
  destruct (Nat.lt_trichotomy d1 d2) as [Hlt|[Heq|Hlt]]; [|done|].
  - by destruct (Hf1 (Hb2 _ Hlt)).
  - by destruct (Hf2 (Hb1 _ Hlt)).
Qed.

Lemma hit_self h cur c name : h !! cur = Some c → hit h cur cur name = false.
Proof.
  intros Hc. unfold hit. rewrite Hc. unfold clashes.
  by rewrite (bool_decide_eq_true_2 (tp_Path c = tp_Path c)).
Qed.

Lemma hit_other h cur l imp c name :
  h !! l = Some imp → h !! cur = Some c → tp_Path imp ≠ tp_Path c →
  hit h cur l name =
    bool_decide (tp_Name imp = name) || bool_decide (tp_Alias imp = name).
Proof.
  intros Hl Hc Hne. unfold hit. rewrite Hl, Hc. unfold clashes.
  by rewrite (bool_decide_eq_false_2 (tp_Path imp = tp_Path c)).
Qed.

Lemma valueLocs_values (calls : list (string * string * StructModel)) :
  calls ≫= (fun c => valueLocs c.2) = TypePackage <$> (calls ≫= (fun c => values c.2)).
Proof.
  induction calls as [|c calls IH]; [done|].
  rewrite !bind_cons, fmap_app, IH. reflexivity.
Qed.

Section Strings.

Variable R : RangeOrder.
Variables p1 p2 p3 : string.
Hypothesis p12 : p1 ≠ p2.
Hypothesis p13 : p1 ≠ p3.
Hypothesis p23 : p2 ≠ p3.

Let h0 := [stringsAt p1 ""; stringsAt p2 ""; stringsAt p3 ""].
Let h1 := [stringsAt p1 ""; stringsAt p2 "_strings"; stringsAt p3 ""].
Let h2 := [stringsAt p1 ""; stringsAt p2 "_strings"; stringsAt p3 "__strings"].
Let m1 : gmap string loc := <[p1 := 0%nat]> ∅.
Let m2 : gmap string loc := <[p2 := 1%nat]> m1.
Let m3 : gmap string loc := <[p3 := 2%nat]> m2.

Lemma first_is_free : leastFree h0 m1 0 "strings" 0.
Proof.
  split; [intros i Hi; lia|]. intros (p & l & Hp & Hhit).
  apply lookup_insert_Some in Hp as [[<- <-]|[_ Hp]]; [|by rewrite lookup_empty in Hp].
  by rewrite (hit_self h0 0 (stringsAt p1 "")) in Hhit.
Qed.

Lemma second_needs_one : leastFree h0 m2 1 "strings" 1.
Proof.
  split.
  - intros i Hi. assert (i = 0)%nat as -> by lia. exists p1, 0%nat. split.
    + unfold m2, m1. rewrite lookup_insert_ne by done. apply lookup_insert_eq.
    + by rewrite (hit_other h0 1 0 (stringsAt p1 "") (stringsAt p2 "")).
  - intros (p & l & Hp & Hhit).
    apply lookup_insert_Some in Hp as [[<- <-]|[_ Hp]].
    { by rewrite (hit_self h0 1 (stringsAt p2 "")) in Hhit. }
    apply lookup_insert_Some in Hp as [[<- <-]|[_ Hp]]; [|by rewrite lookup_empty in Hp].
    by rewrite (hit_other h0 1 0 (stringsAt p1 "") (stringsAt p2 "")) in Hhit.
Qed.

Lemma third_needs_two : leastFree h1 m3 2 "strings" 2.
Proof.
  split.
  - intros i Hi. assert (i = 0 ∨ i = 1)%nat as [-> | ->] by lia.
    + exists p1, 0%nat. split.
      * unfold m3, m2, m1. rewrite !lookup_insert_ne by done. apply lookup_insert_eq.
      * by rewrite (hit_other h1 2 0 (stringsAt p1 "") (stringsAt p3 "")).
    + exists p2, 1%nat. split.
      * unfold m3, m2. rewrite lookup_insert_ne by done. apply lookup_insert_eq.
      * by rewrite (hit_other h1 2 1 (stringsAt p2 "_strings") (stringsAt p3 "")).
  - intros (p & l & Hp & Hhit).
    apply lookup_insert_Some in Hp as [[<- <-]|[_ Hp]].
    { by rewrite (hit_self h1 2 (stringsAt p3 "")) in Hhit. }
    apply lookup_insert_Some in Hp as [[<- <-]|[_ Hp]].
    { by rewrite (hit_other h1 2 1 (stringsAt p2 "_strings") (stringsAt p3 "")) in Hhit. }
    apply lookup_insert_Some in Hp as [[<- <-]|[_ Hp]]; [|by rewrite lookup_empty in Hp].
    by rewrite (hit_other h1 2 0 (stringsAt p1 "") (stringsAt p3 "")) in Hhit.
Qed.

(** C3: when [AddStruct] calls on one package register, in this order,
    three package objects named [strings] under pairwise distinct paths
    and with no alias, the first keeps the empty alias, the second gets
    [_strings] and the third [__strings], whatever order the walks over the
    import map take. *)
Theorem three_strings_get_underscores calls path v1 v2 v3 n :
  Forall (fun c => c.1.1 = path) calls →
  calls ≫= (fun c => values c.2) = [v1; v2; v3] →
  TypePackage v1 = 0%nat → TypePackage v2 = 1%nat → TypePackage v3 = 2%nat →
  ∃ st',
    AddStructs R calls
      {| model := NewModel;
         store := [stringsAt p1 ""; stringsAt p2 ""; stringsAt p3 ""];
         ranges := n |} = Ok st' ∧
    store st' = [stringsAt p1 ""; stringsAt p2 "_strings"; stringsAt p3 "__strings"] ∧
    importsAt st' path = <[p3 := 2%nat]> (<[p2 := 1%nat]> (<[p1 := 0%nat]> ∅)).
Proof.
  intros Hpath Hvals Hv1 Hv2 Hv3.
  destruct (AddStructs_ok R calls {| model := NewModel; store := h0; ranges := n |})
    as (st' & Hrun & _ & Hreg).
  { split.
    - rewrite valueLocs_values, Hvals. simpl. rewrite Hv1, Hv2, Hv3. split.
      + apply (bool_decide_unpack _). vm_compute. exact I.
      + intros l Hl. repeat (apply elem_of_cons in Hl as [->|Hl]); [eexists; by split..|].
        by apply elem_of_nil in Hl.
    - intros p pkg Hp. simpl in Hp. by rewrite lookup_empty in Hp. }
  exists st'. split; [exact Hrun|].
  specialize (Hreg path Hpath). rewrite Hvals in Hreg.
  destruct Hreg as ([i1 s1] & (t1 & Ht1 & H1) & [i2 s2] & (t2 & Ht2 & H2)
                    & [i3 s3] & (t3 & Ht3 & H3) & Hend).
  simpl in *. rewrite Hv1 in *. rewrite Hv2 in *. rewrite Hv3 in *.
  change (importsAt {| model := NewModel; store := h0; ranges := n |} path)
    with (∅ : gmap string nat) in H1.
  assert (t1 = stringsAt p1 "") as -> by (unfold h0 in Ht1; simpl in Ht1; congruence).
  cbn [tp_Path tp_Name stringsAt] in H1. rewrite lookup_empty in H1.
  destruct H1 as [-> (d1 & Hd1 & ->)].
  pose proof (leastFree_unique _ _ _ _ _ _ Hd1 first_is_free) as ->. clear Hd1.
  assert (t2 = stringsAt p2 "") as -> by (unfold h0 in Ht2; simpl in Ht2; congruence).
  cbn [tp_Path tp_Name stringsAt] in H2.
  rewrite lookup_insert_ne, lookup_empty in H2 by done.
  destruct H2 as [-> (d2 & Hd2 & ->)].
  pose proof (leastFree_unique _ _ _ _ _ _ Hd2 second_needs_one) as ->. clear Hd2.
  change (<[1%nat := setAlias (stringsAt p2 "") (prefixed 1 "strings")]> h0) with h1 in *.
  assert (t3 = stringsAt p3 "") as -> by (unfold h1 in Ht3; simpl in Ht3; congruence).
  cbn [tp_Path tp_Name stringsAt] in H3.
  rewrite !lookup_insert_ne, lookup_empty in H3 by done.
  destruct H3 as [-> (d3 & Hd3 & ->)].
  pose proof (leastFree_unique _ _ _ _ _ _ Hd3 third_needs_two) as ->. clear Hd3.
  injection Hend as -> ->. split; reflexivity.
Qed.

End Strings.

Lemma three_strings_get_underscores_witness :
  ∃ st',
    AddStructs reversed
      [("pkg", "main", structWithValues "A" [0%nat; 1%nat]);
       ("pkg", "main", structWithValues "B" [2%nat])]
      {| model := NewModel; store := threeStrings; ranges := 0 |} = Ok st' ∧
    store st' = [stringsAt "strings" ""; stringsAt "a/strings" "_strings";
                 stringsAt "b/strings" "__strings"] ∧
    importsAt st' "pkg" =
      <["b/strings" := 2%nat]> (<["a/strings" := 1%nat]> (<["strings" := 0%nat]> ∅)).
Proof.
  apply (three_strings_get_underscores reversed "strings" "a/strings" "b/strings"
           ltac:(discriminate) ltac:(discriminate) ltac:(discriminate)
           [("pkg", "main", structWithValues "A" [0%nat; 1%nat]);
            ("pkg", "main", structWithValues "B" [2%nat])] "pkg"
           {| FieldName := "F"; TypeName := "strings.Builder"; TypePackage := 0 |}
           {| FieldName := "F"; TypeName := "strings.Builder"; TypePackage := 1 |}
           {| FieldName := "F"; TypeName := "strings.Builder"; TypePackage := 2 |} 0%nat);
    [repeat constructor|reflexivity..].
Defined.

Lemma imports_have_distinct_identifiers_witness :
  ∃ st',
    AddStructs inOrder
      [("pkg", "main", structWithValues "A" [0%nat; 1%nat]);
       ("lib", "lib", structWithValues "B" [2%nat])]
      {| model := NewModel; store := threeStrings; ranges := 0 |} = Ok st' ∧
    ∀ path pkg, Packages (model st') !! path = Some pkg →
      (∀ p l, pm_Imports pkg !! p = Some l →
              ∃ t, store st' !! l = Some t ∧ tp_Path t = p) ∧
      (∀ p1 p2 l1 l2 t1 t2,
         p1 ≠ p2 → pm_Imports pkg !! p1 = Some l1 → pm_Imports pkg !! p2 = Some l2 →
         store st' !! l1 = Some t1 → store st' !! l2 = Some t2 →
         effective t1 ≠ effective t2).
Proof.
  apply (imports_have_distinct_identifiers inOrder
           [("pkg", "main", structWithValues "A" [0%nat; 1%nat]);
            ("lib", "lib", structWithValues "B" [2%nat])] threeStrings 0%nat).
  - apply (bool_decide_unpack _). vm_compute. exact I.
  - intros l Hl. change (l ∈ [0%nat; 1%nat; 2%nat]) in Hl.
    repeat (apply elem_of_cons in Hl as [->|Hl]); [eexists; split; reflexivity..|].
    by apply elem_of_nil in Hl.
Defined.

(** ** The run over the files *)

Lemma retLocs_app rs1 rs2 : retLocs (rs1 ++ rs2) = (retLocs rs1 ++ retLocs rs2)%list.
Proof. unfold retLocs. by rewrite omap_app, fmap_app. Qed.

Lemma grown_refl h : grown h h.
Proof. exists []. by rewrite app_nil_r. Qed.

Lemma grown_snoc h0 h t : grown h0 h → tp_Alias t = "" → grown h0 (h ++ [t]).
Proof.
  intros (extra & -> & Hall) Ht. exists (extra ++ [t])%list. split; [by rewrite app_assoc|].
  apply Forall_app. split; [done|]. by constructor.
Qed.

Lemma added_snoc h0 h t ls :
  grown h0 h → added h0 h ls → added h0 (h ++ [t]) (ls ++ [List.length h]).
Proof.
  intros (extra & -> & _) [Hnd Hin]. split.
  - apply NoDup_app. split; [done|]. split; [|apply NoDup_singleton].
    intros l Hl ->%list_elem_of_singleton. apply Hin in Hl. lia.
  - intros l [Hl| ->%list_elem_of_singleton]%elem_of_app.
    + apply Hin in Hl. rewrite !length_app in *. simpl. lia.
    + rewrite !length_app. simpl. lia.
Qed.

Lemma added_weaken h0 h ls ls' : added h0 h (ls ++ ls') → added h0 h ls.
Proof.
  intros [Hnd Hin]. split.
  - by apply NoDup_app in Hnd as (? & _ & _).
  - intros l Hl. apply Hin, elem_of_app. by left.
Qed.

Section ScanTotal.

Variable W : World.
Variable R : RangeOrder.
Variable config : Config.

Lemma scanReturn_added filePath packageName field fieldName ret h0 sm returns sc st :
  grown h0 (store st) → added h0 (store st) (sm ++ retLocs returns) →
  ∃ returns' sc' st',
    scanReturn W filePath packageName field fieldName ret (returns, sc, st)
      = (returns', sc', st') ∧
    structModel sc' = structModel sc ∧
    grown h0 (store st') ∧ added h0 (store st') (sm ++ retLocs returns').
Proof.
  intros Hg Ha. unfold scanReturn, createValueOutput.
  destruct (Go.HasPrefix ret ":").
  - destruct (decide (ret = ":value")); [|by eexists _, _, _].
    destruct (resolveValue W filePath field fieldName packageName) as [[[t p] n]|];
      [|by eexists _, _, _].
    eexists _, _, _. split; [reflexivity|]. split; [done|]. simpl. split.
    + by apply grown_snoc.
    + rewrite retLocs_app, app_assoc. by apply added_snoc.
  - destruct (lookup2 (constantsByFieldAndElement sc) fieldName ret).
    { eexists _, _, _. split; [reflexivity|]. split; [done|]. split; [done|].
      rewrite retLocs_app. simpl. by rewrite app_nil_r. }
    destruct (lookup2 (noneByFieldAndElement sc) fieldName ret).
    { eexists _, _, _. split; [reflexivity|]. split; [done|]. split; [done|].
      rewrite retLocs_app. simpl. by rewrite app_nil_r. }
    destruct (lookup2 (structFieldByFieldAndElement sc) fieldName ret).
    { eexists _, _, _. split; [reflexivity|]. split; [done|]. split; [done|].
      rewrite retLocs_app. simpl. by rewrite app_nil_r. }
    by eexists _, _, _.
Qed.

Lemma scanReturns_added filePath packageName field fieldName h0 sm rets :
  ∀ returns sc st,
  grown h0 (store st) → added h0 (store st) (sm ++ retLocs returns) →
  ∃ returns' sc' st',
    foldl (fun gs ret => scanReturn W filePath packageName field fieldName ret gs)
      (returns, sc, st) rets = (returns', sc', st') ∧
    structModel sc' = structModel sc ∧
    grown h0 (store st') ∧ added h0 (store st') (sm ++ retLocs returns').
Proof.
  induction rets as [|ret rets IH]; intros returns sc st Hg Ha; cbn [foldl].
  - by eexists _, _, _.
  - destruct (scanReturn_added filePath packageName field fieldName ret h0 sm returns sc st
                Hg Ha) as (r1 & sc1 & st1 & -> & Hsm1 & Hg1 & Ha1).
    destruct (IH r1 sc1 st1 Hg1 Ha1) as (r2 & sc2 & st2 & -> & Hsm2 & Hg2 & Ha2).
    eexists _, _, _. split; [reflexivity|]. split; [congruence|]. by split.
Qed.

Lemma valueLocs_addGetter sm g :
  valueLocs (addGetter sm g) = (valueLocs sm ++ retLocs (go_Returns g))%list.
Proof.
  unfold valueLocs, values, returnValues, retLocs. simpl.
  rewrite bind_app, omap_app, fmap_app. simpl. by rewrite app_nil_r.
Qed.

Lemma scanGetter_ok filePath packageName field fieldName g h0 ss :
  scanOk h0 ss → scanOk h0 (scanGetter W filePath packageName field fieldName g ss).
Proof.
  destruct ss as [sc st]. intros [Hg Ha]. simpl in Hg, Ha. unfold scanGetter.
  destruct (scanReturns_added filePath packageName field fieldName h0
              (valueLocs (structModel sc)) (Returns g) [] sc st Hg)
    as (returns & sc1 & st1 & -> & Hsm & Hg1 & Ha1).
  { unfold retLocs. simpl. by rewrite app_nil_r. }
  destruct (decide _); split; simpl; try done.
  - rewrite valueLocs_addGetter, Hsm. exact Ha1.
  - rewrite Hsm. by apply added_weaken in Ha1.
Qed.

Lemma scanElement_getters packageName fieldName tagText el sc :
  sm_Getters (structModel (scanElement W packageName fieldName tagText el sc))
  = sm_Getters (structModel sc).
Proof.
  unfold scanElement. destruct (decide _); [done|].
  destruct (out_Mode (el_Output el)); try done.
  by destruct (structByElement sc !! el_Name el).
Qed.

Lemma scanIdent_ok filePath packageName field tagText fieldName h0 ss :
  scanOk h0 ss →
  scanOk h0 (scanIdent W config filePath packageName field tagText fieldName ss).
Proof.
  destruct ss as [sc st]. intros Hok. unfold scanIdent.
  apply (foldl_invariant (scanOk h0)).
  - intros g s _. apply scanGetter_ok.
  - destruct Hok as [Hg Ha]. split; [done|]. simpl in *.
    assert (sm_Getters (structModel
              (foldl (fun sc el => scanElement W packageName fieldName tagText el sc)
                 sc (Elements config))) = sm_Getters (structModel sc)) as Hsame.
    { apply (foldl_invariant (fun s => sm_Getters (structModel s) = sm_Getters (structModel sc)));
        [|done]. intros el s _ Hs. by rewrite scanElement_getters. }
    unfold valueLocs, values, returnValues in *. by rewrite Hsame.
Qed.

Lemma scanFields_ok filePath packageName typeSpec fields st :
  scanOk (store st) (scanFields W config filePath packageName typeSpec fields st).
Proof.
  unfold scanFields. apply (foldl_invariant (scanOk (store st))).
  - intros field ss _ Hss. unfold scanField.
    destruct (decide _); [done|]. destruct (negb _); [done|].
    apply (foldl_invariant (scanOk (store st))); [|done].
    intros fieldName s _. apply scanIdent_ok.
  - split; [apply grown_refl|]. split; [constructor|]. intros l Hl. by apply elem_of_nil in Hl.
Qed.

Lemma importsOk_grown h0 h imports : grown h0 h → importsOk h0 imports → importsOk h imports.
Proof.
  intros (extra & -> & _) [Hkey Hdist].
  assert (∀ p l, imports !! p = Some l → (h0 ++ extra)%list !! l = h0 !! l) as Hsame.
  { intros p l Hp. destruct (Hkey _ _ Hp) as (t & Ht & _).
    apply lookup_app_l. by eapply lookup_lt_Some. }
  split.
  - intros p l Hp. rewrite (Hsame _ _ Hp). by apply Hkey.
  - intros p1 p2 l1 l2 t1 t2 Hne Hp1 Hp2. rewrite (Hsame _ _ Hp1), (Hsame _ _ Hp2).
    by apply (Hdist p1 p2).
Qed.

Lemma mustIncludeStruct_Packages m genDecl typeSpec filePath b m' :
  mustIncludeStruct config m genDecl typeSpec filePath = (b, m') →
  Packages m' = Packages m.
Proof.
  unfold mustIncludeStruct. destruct (structDirectives genDecl typeSpec) as [i e].
  repeat case_match; by intros [= _ <-].
Qed.

Lemma scanSpec_total filePath packagePath packageName genDecl spec st :
  aggregatorOk st [] →
  ∃ st', scanSpec W R config filePath packagePath packageName genDecl spec st = Ok st' ∧
         aggregatorOk st' [].
Proof.
  intros Hok. unfold scanSpec. destruct spec as [typeSpec|]; [|by exists st].
  destruct (ts_Type typeSpec) as [fields|]; [|by exists st].
  destruct (mustIncludeStruct config (model st) genDecl typeSpec filePath) as [b m] eqn:Hm.
  apply mustIncludeStruct_Packages in Hm.
  assert (aggregatorOk (setModel st m) []) as Hok1.
  { destruct Hok as [Hfr Hpk]. split; [done|]. simpl. rewrite Hm. exact Hpk. }
  destruct b; simpl; [|by eexists].
  pose proof (scanFields_ok filePath packageName typeSpec fields (setModel st m)) as [Hg Ha].
  pose proof (scanFields_model W config filePath packageName typeSpec fields (setModel st m))
    as Hmod.
  destruct (scanFields _ _ _ _ _ _ _) as [sc s1]. simpl in Hg, Ha, Hmod.
  assert (∀ F, (∀ l, l ∈ F → l ∈ valueLocs (structModel sc)) → NoDup F →
               aggregatorOk s1 F) as Hagg.
  { intros F HF HndF. destruct Hok1 as [_ Hpk]. simpl in Hpk. split.
    - split; [done|]. intros l Hl. destruct Ha as [_ Hin]. apply HF, Hin in Hl.
      destruct Hg as (extra & Hs1 & Hall). rewrite Hs1 in Hl |- *.
      rewrite length_app in Hl.
      destruct (lookup_lt_is_Some_2 extra (l - List.length (store st))) as [t Ht]; [lia|].
      exists t. split.
      + rewrite lookup_app_r by lia. exact Ht.
      + by apply (Forall_lookup_1 _ _ _ _ Hall Ht).
    - intros path pkg Hp. rewrite Hmod in Hp. destruct (Hpk _ _ Hp) as [Hi _]. split.
      + by apply (importsOk_grown (store st)).
      + intros p l Hpl Hl. destruct Ha as [_ Hin]. apply HF, Hin in Hl.
        destruct Hi as [Hkey _]. destruct (Hkey _ _ Hpl) as (t & Ht & _).
        apply lookup_lt_Some in Ht. lia. }
  case_match.
  - destruct (AddStruct_ok R s1 packagePath packageName (structModel sc) []) as (st' & Hrun & Hok' & _).
    + rewrite app_nil_r. apply Hagg; [done|]. by destruct Ha.
    + by exists st'.
  - exists s1. split; [done|]. apply Hagg; [|constructor]. intros l Hl. by apply elem_of_nil in Hl.
Qed.

Lemma forEach_total {A S} (P : S → Prop) (xs : list A) (body : A → S → result S) :
  (∀ x s, P s → ∃ s', body x s = Ok s' ∧ P s') →
  ∀ s, P s → ∃ s', forEach xs body s = Ok s' ∧ P s'.
Proof.
  intros Hbody. induction xs as [|x xs IH]; intros s Hs; simpl; [by exists s|].
  destruct (Hbody x s Hs) as (s1 & -> & Hs1). simpl. by apply IH.
Qed.

Lemma scanFile_total filePath st :
  aggregatorOk st [] →
  ∃ st', scanFile W R config filePath st = Ok (None, st') ∧ aggregatorOk st' [].
Proof.
  intros Hok. unfold scanFile.
  assert (aggregatorOk (countFile st) []) as Hok1 by (by destruct Hok).
  destruct (ParseFile W filePath) as [err|node].
  - eexists. split; [reflexivity|]. by destruct Hok.
  - destruct (forEach_total (fun s => aggregatorOk s []) (file_Decls node)
                (scanDecl W R config filePath (extractPackagePath W filePath) (file_Name node)))
      with (s := countFile st) as (s' & Hrun & Hs'); [|done|].
    + intros genDecl s Hs. unfold scanDecl. destruct (gd_isType genDecl); [|by exists s].
      apply (forEach_total (fun s => aggregatorOk s [])); [|done].
      intros spec s0 Hs0. by apply scanSpec_total.
    + rewrite Hrun. by exists s'.
Qed.

Lemma scanAll_total files : ∀ st,
  aggregatorOk st [] →
  ∃ st', scanAll W R config files st = Ok (None, st') ∧ aggregatorOk st' [].
Proof.
  induction files as [|f files IH]; intros st Hok; simpl; [by exists st|].
  destruct (scanFile_total f st Hok) as (s1 & -> & Hs1). simpl. by apply IH.
Qed.

End ScanTotal.

(** C6: when a file fails to parse, [scanFile] returns no error and leaves
    the model with exactly one more [ScanError] (the file, the line of the
    first syntax error or 0, and a message); packages, the found-counters
    and the store are untouched, the files-scanned counter counts the file;
    the run goes on with the remaining files; and every run over any files,
    from a fresh model or any state the engine reaches, ends normally with
    no error returned and with the earlier errors kept in place at the
    front of the error list. *)
Theorem parse_failure_is_recorded W R config filePath err st rest :
  ParseFile W filePath = inl err →
  let recorded :=
    {| se_File := filePath; se_Line := parseErrorLine err;
       se_Message := "failed to parse file: " ++ errorText err |} in
  ∃ st',
    scanFile W R config filePath st = Ok (None, st') ∧
    Errors (model st') = (Errors (model st) ++ [recorded])%list ∧
    Packages (model st') = Packages (model st) ∧
    PackagesFound (model st') = PackagesFound (model st) ∧
    StructsFound (model st') = StructsFound (model st) ∧
    FieldsFound (model st') = FieldsFound (model st) ∧
    FilesScanned (model st') = incr (FilesScanned (model st)) ∧
    store st' = store st ∧
    scanAll W R config (filePath :: rest) st = scanAll W R config rest st' ∧
    (∀ files s, aggregatorOk s [] →
       ∃ s', scanAll W R config files s = Ok (None, s') ∧
             Errors (model s) `prefix_of` Errors (model s')) ∧
    (∀ files, ∃ s', scanAll W R config files emptyState = Ok (None, s')).
Proof.
  intros Hparse recorded. eexists. unfold scanFile. rewrite Hparse.
  split; [reflexivity|]. simpl.
  repeat (split; [reflexivity|]).
  split; [|split].
  - unfold scanFile. rewrite Hparse. reflexivity.
  - intros files s Hs. destruct (scanAll_total W R config files s Hs) as (s' & Hrun & _).
    exists s'. split; [exact Hrun|]. by apply scanAll_Errors in Hrun as [_ ?].
  - intros files. destruct (scanAll_total W R config files emptyState) as (s' & Hrun & _).
    + split; [split; [constructor|]|].
      * intros l Hl. by apply elem_of_nil in Hl.
      * intros path pkg Hp. simpl in Hp. by rewrite lookup_empty in Hp.
    + by exists s'.
Qed.

Lemma parse_failure_is_recorded_witness :
  ∃ st',
    scanFile (sampleWorld noFile noValue) inOrder
      (sampleConfig (flags false false) (fieldFlags false false) [] []) "x.go" emptyState
      = Ok (None, st') ∧
    Errors (model st') =
      [ {| se_File := "x.go"; se_Line := 7;
           se_Message := "failed to parse file: x.go:7:1: expected declaration" |} ].
Proof.
  destruct (parse_failure_is_recorded (sampleWorld noFile noValue) inOrder
              (sampleConfig (flags false false) (fieldFlags false false) [] [])
              "x.go" (ScannerErrorList [7%Z] "x.go:7:1: expected declaration")
              emptyState [] eq_refl) as (st' & Hrun & Herr & _).
  exists st'. split; [exact Hrun|exact Herr].
Defined.

(** ** What a run does to the model *)

Lemma registerImport_package R r pkg st pkg' st' :
  registerImport R r (pkg, st) = Ok (pkg', st') →
  pm_Name pkg' = pm_Name pkg ∧ pm_Path pkg' = pm_Path pkg ∧ pm_Structs pkg' = pm_Structs pkg.
Proof.
  unfold registerImport. destruct r as [| | |v]; try (by intros [= <- _]).
  destruct (store st !! TypePackage v) as [tp|]; simpl; [|discriminate].
  destruct (pm_Imports pkg !! tp_Path tp); [by intros [= <- _]|].
  simpl.
  match goal with |- context [setRecursiveAlias ?a ?b ?c ?d ?e ?f ?g] =>
    destruct (setRecursiveAlias a b c d e f g) as [s1| |] end; simpl; try discriminate.
  by intros [= <- _].
Qed.

Lemma registerImports_package R rs pkg st pkg' st' :
  forEach rs (registerImport R) (pkg, st) = Ok (pkg', st') →
  pm_Name pkg' = pm_Name pkg ∧ pm_Path pkg' = pm_Path pkg ∧
  pm_Structs pkg' = pm_Structs pkg ∧ model st' = model st.
Proof.
  intros Hrun.
  eapply (forEach_invariant
            (fun ps : PackageModel * State =>
               pm_Name ps.1 = pm_Name pkg ∧ pm_Path ps.1 = pm_Path pkg ∧
               pm_Structs ps.1 = pm_Structs pkg ∧ model ps.2 = model st)) in Hrun;
    [exact Hrun| |done].
  intros r [p s] [p' s'] _ (H1 & H2 & H3 & H4) Hr. simpl in *.
  pose proof (registerImport_model _ _ _ _ _ _ Hr) as Hm.
  apply registerImport_package in Hr as (? & ? & ?).
  repeat split; congruence.
Qed.

Lemma AddStruct_model R st path name sm st' :
  AddStruct R st path name sm = Ok st' →
  ∃ imports, model st' = withStruct (model st) path name sm imports.
Proof.
  unfold AddStruct, withStruct.
  destruct (Packages (model st) !! path) as [pkg0|] eqn:Hl.
  - destruct (forEach _ _ _) as [[pkg' s1]| |] eqn:Hrun; simpl; try discriminate.
    apply registerImports_package in Hrun as (Hn & Hp & Hs & Hm).
    intros [= <-]. exists (pm_Imports pkg'). simpl. by rewrite Hn, Hp, Hs, Hm.
  - destruct (forEach _ _ _) as [[pkg' s1]| |] eqn:Hrun; simpl; try discriminate.
    apply registerImports_package in Hrun as (Hn & Hp & Hs & Hm).
    intros [= <-]. exists (pm_Imports pkg'). simpl. by rewrite Hn, Hp, Hs, Hm.
Qed.

Section Changes.

Variable W : World.
Variable R : RangeOrder.
Variable config : Config.

Lemma scanSpec_changes file node genDecl spec st st' :
  ParseFile W file = inr node →
  genDecl ∈ file_Decls node →
  gd_isType genDecl = true →
  spec ∈ Specs genDecl →
  scanSpec W R config file (extractPackagePath W file) (file_Name node) genDecl spec st
    = Ok st' →
  rtc (change W config) (model st) (model st').
Proof.
  intros Hparse Hd Ht Hs. unfold scanSpec.
  destruct spec as [typeSpec|]; [|by intros [= <-]].
  destruct (ts_Type typeSpec) as [fields|] eqn:Hty; [|by intros [= <-]].
  pose proof (eq_refl (mustIncludeStruct config (model st) genDecl typeSpec file)) as Hm.
  unfold mustIncludeStruct at 2 in Hm.
  destruct (mustIncludeStruct config (model st) genDecl typeSpec file) as [b m] eqn:Hinc.
  assert (rtc (change W config) (model st) m ∧
          (b = true → m = model st)) as [Hstep Hsame].
  { destruct (structDirectives genDecl typeSpec) as [i e] eqn:Hdir.
    destruct i, e; simpl in Hm.
    - injection Hm as -> ->. split; [|done]. apply rtc_once.
      by eapply change_both.
    - revert Hm. repeat case_match; intros [= -> ->]; by split.
    - revert Hm. repeat case_match; intros [= -> ->]; by split.
    - revert Hm. repeat case_match; intros [= -> ->]; by split. }
  destruct b; simpl; [|by intros [= <-]].
  rewrite (Hsame eq_refl) in *. clear Hstep Hsame.
  assert (setModel st (model st) = st) as -> by (by destruct st).
  pose proof (scanFields_model W config file (file_Name node) typeSpec fields st) as Hmod.
  pose proof (eq_refl (hasOutput (structModel
      (scanFields W config file (file_Name node) typeSpec fields st).1))) as Hout.
  unfold hasOutput at 1 in Hout.
  destruct (scanFields W config file (file_Name node) typeSpec fields st) as [sc s1] eqn:Hsf.
  simpl in Hmod, Hout.
  rewrite Hout. destruct (hasOutput (structModel sc)) eqn:Hhas.
  - intros [imports Hadd]%AddStruct_model. rewrite Hadd, Hmod. apply rtc_once.
    replace sc with (scanFields W config file (file_Name node) typeSpec fields st).1
      by (by rewrite Hsf).
    eapply change_struct; try done.
    + by rewrite Hinc.
    + by rewrite Hsf.
  - intros [= <-]. by rewrite Hmod.
Qed.

Lemma scanFile_changes file st e st' :
  scanFile W R config file st = Ok (e, st') →
  rtc (change W config) (model st) (model st').
Proof.
  unfold scanFile. destruct (ParseFile W file) as [err|node] eqn:Hparse.
  - intros [= _ <-]. simpl. eapply rtc_l; [apply change_file|].
    apply rtc_once. by apply (change_parse_error W config (withFile (model st)) file err).
  - destruct (forEach _ _ _) as [s1| |] eqn:Hrun; simpl; try discriminate.
    intros [= _ <-]. eapply rtc_l; [apply change_file|].
    eapply (forEach_invariant (fun s => rtc (change W config) (withFile (model st)) (model s)))
      in Hrun; [exact Hrun| |done].
    intros genDecl s s' Hd Hs. unfold scanDecl.
    destruct (gd_isType genDecl) eqn:Ht; simpl; [|by intros [= <-]].
    apply (forEach_invariant (fun s => rtc (change W config) (withFile (model st)) (model s)));
      [|done].
    intros spec s0 s0' Hspec Hs0 Hstep. etrans; [exact Hs0|].
    by eapply scanSpec_changes.
Qed.

Lemma scanAll_changes files : ∀ st e st',
  scanAll W R config files st = Ok (e, st') →
  rtc (change W config) (model st) (model st').
Proof.
  induction files as [|f files IH]; intros st e st'; simpl.
  - by intros [= _ <-].
  - destruct (scanFile W R config f st) as [[e1 s1]| |] eqn:Hf; simpl; try discriminate.
    pose proof (scanFile_changes _ _ _ _ Hf) as H1.
    apply scanFile_Errors in Hf as [-> _].
    intros H2%IH. by etrans.
Qed.

End Changes.

(** ** The statistics of a run *)

Lemma incr_int z : incr (int z) = int (z + 1).
Proof.
  unfold incr, int.
  replace ((z + 2 ^ 63) mod 2 ^ 64 - 2 ^ 63 + 1 + 2 ^ 63)%Z
    with ((z + 2 ^ 63) mod 2 ^ 64 + 1)%Z by lia.
  rewrite Z.add_mod_idemp_l by lia. f_equal. f_equal. lia.
Qed.

Lemma incr_count (n : nat) : incr (int (Z.of_nat n)) = int (Z.of_nat (S n)).
Proof. rewrite incr_int. f_equal. lia. Qed.

Lemma structCount_insert (packages : gmap string PackageModel) path pkg :
  let count := map_fold (fun _ pkg n => (List.length (pm_Structs pkg) + n)%nat) 0%nat in
  (count (<[path := pkg]> packages)
   + from_option (fun old => List.length (pm_Structs old)) 0 (packages !! path)
   = List.length (pm_Structs pkg) + count packages)%nat.
Proof.
  intros count.
  assert (∀ (m : gmap string PackageModel) x, m !! path = None →
            count (<[path := x]> m) = (List.length (pm_Structs x) + count m)%nat) as Hnew.
  { intros m x Hm. unfold count.
    rewrite (map_fold_insert_L (fun _ pkg n => (List.length (pm_Structs pkg) + n)%nat));
      [done| |done].
    intros. lia. }
  destruct (packages !! path) as [old|] eqn:Hold; simpl.
  - rewrite <- (insert_delete_eq packages).
    rewrite <- (insert_delete_id packages path old Hold) at 2.
    rewrite !Hnew by apply lookup_delete_eq. lia.
  - rewrite Hnew by done. lia.
Qed.

Lemma emptyState_ok : aggregatorOk emptyState [].
Proof.
  split.
  - split; [constructor|]. intros l Hl. by apply elem_of_nil in Hl.
  - intros path pkg Hp. simpl in Hp. by rewrite lookup_empty in Hp.
Qed.

Lemma findFiles_model W R config st : model (findFiles W R config st).2 = model st.
Proof. unfold findFiles. repeat case_match; reflexivity. Qed.

Lemma findFiles_store W R config st : store (findFiles W R config st).2 = store st.
Proof. unfold findFiles. repeat case_match; reflexivity. Qed.

(** How [Build] ends: with the error of [findFiles], or with the model the
    scan of the files found leaves. *)
Lemma Build_run W R config :
  match (findFiles W R config emptyState).1 with
  | inl err => Build W R config = Ok (inl err)
  | inr files =>
      ∃ st', scanAll W R config files (findFiles W R config emptyState).2 = Ok (None, st') ∧
             Build W R config = Ok (inr (model st'))
  end.
Proof.
  unfold Build, scanFiles. change {| model := NewModel; store := []; ranges := 0 |} with emptyState.
  pose proof (findFiles_model W R config emptyState) as Hm.
  pose proof (findFiles_store W R config emptyState) as Hs.
  destruct (findFiles W R config emptyState) as [[err|files] st]; simpl in *; [done|].
  destruct (scanAll_total W R config files st) as (st' & Hrun & _).
  { destruct st as [m h n]. simpl in *. subst. apply emptyState_ok. }
  exists st'. by rewrite Hrun.
Qed.

Lemma rtc_invariant {A} (step : relation A) (P : A → Prop) :
  (∀ x y, step x y → P x → P y) → ∀ x y, rtc step x y → P x → P y.
Proof. intros Hstep x y Hrun. induction Hrun; eauto. Qed.

Section Statistics.

Variable W : World.
Variable R : RangeOrder.
Variable config : Config.

Lemma change_counters m m' :
  change W config m m' →
  PackagesFound m = int (Z.of_nat (size (Packages m))) ∧
  StructsFound m = int (Z.of_nat (structCount m)) →
  PackagesFound m' = int (Z.of_nat (size (Packages m'))) ∧
  StructsFound m' = int (Z.of_nat (structCount m')).
Proof.
  intros Hc [HP HS]. destruct Hc as [| | |file node genDecl typeSpec fields st imports];
    simpl; try done.
  set (sm := structModel _). unfold structCount. simpl. split.
  - rewrite map_size_insert.
    destruct (Packages m !! extractPackagePath W file); simpl; [done|].
    by rewrite HP, incr_count.
  - rewrite HS, incr_count. f_equal. f_equal.
    match goal with |- context [<[_ := ?p]> _] =>
      pose proof (structCount_insert (Packages m) (extractPackagePath W file) p) as Hins end.
    simpl in Hins. rewrite length_app in Hins. simpl in Hins. unfold structCount.
    destruct (Packages m !! extractPackagePath W file); simpl in *; lia.
Qed.

(** X1: When [Build] returns a model, the found-counters are the numbers of the
    packages and of the structs in the model (as Go [int]s). *)
Theorem found_counters_agree_with_model :
  match Build W R config with
  | Ok (inr m) =>
      PackagesFound m = int (Z.of_nat (size (Packages m))) ∧
      StructsFound m = int (Z.of_nat (structCount m))
  | Ok (inl _) => True
  | _ => False
  end.
Proof.
  pose proof (Build_run W R config) as H.
  pose proof (findFiles_model W R config emptyState) as Hm.
  destruct (findFiles W R config emptyState) as [[err|files] st]; simpl in *.
  - by rewrite H.
  - destruct H as (st' & Hrun & ->).
    apply scanAll_changes in Hrun. rewrite Hm in Hrun.
    apply (rtc_invariant (change W config)
             (fun m => PackagesFound m = int (Z.of_nat (size (Packages m))) ∧
                       StructsFound m = int (Z.of_nat (structCount m)))
             change_counters _ _ Hrun).
    split; reflexivity.
Qed.

Lemma scanSpec_FilesScanned filePath packagePath packageName genDecl spec st st' :
  scanSpec W R config filePath packagePath packageName genDecl spec st = Ok st' →
  FilesScanned (model st') = FilesScanned (model st) ∧
  FieldsFound (model st') = FieldsFound (model st).
Proof.
  unfold scanSpec. destruct spec as [typeSpec|]; [|by intros [= <-]].
  destruct (ts_Type typeSpec) as [fields|]; [|by intros [= <-]].
  destruct (mustIncludeStruct config (model st) genDecl typeSpec filePath) as [b m] eqn:Hm.
  assert (FilesScanned m = FilesScanned (model st) ∧
          FieldsFound m = FieldsFound (model st)) as [H1 H2].
  { revert Hm. unfold mustIncludeStruct. destruct (structDirectives genDecl typeSpec).
    repeat case_match; by intros [= _ <-]. }
  destruct b; simpl; [|by intros [= <-]].
  pose proof (scanFields_model W config filePath packageName typeSpec fields (setModel st m))
    as Hmod.
  destruct (scanFields _ _ _ _ _ _ _) as [sc s1]. simpl in Hmod.
  case_match.
  - intros [imports Hadd]%AddStruct_model. rewrite Hadd, Hmod. simpl. done.
  - intros [= <-]. by rewrite Hmod.
Qed.

Lemma scanFile_FilesScanned filePath st e st' :
  scanFile W R config filePath st = Ok (e, st') →
  FilesScanned (model st') = incr (FilesScanned (model st)) ∧
  FieldsFound (model st') = FieldsFound (model st).
Proof.
  unfold scanFile. destruct (ParseFile W filePath) as [err|node].
  - by intros [= _ <-].
  - destruct (forEach _ _ _) as [s1| |] eqn:Hrun; simpl; try discriminate.
    intros [= _ <-].
    eapply (forEach_invariant
              (fun s => FilesScanned (model s) = incr (FilesScanned (model st)) ∧
                        FieldsFound (model s) = FieldsFound (model st))) in Hrun;
      [exact Hrun| |done].
    intros genDecl s s' _ Hs. unfold scanDecl.
    destruct (gd_isType genDecl); simpl; [|by intros [= <-]].
    apply (forEach_invariant
             (fun s => FilesScanned (model s) = incr (FilesScanned (model st)) ∧
                       FieldsFound (model s) = FieldsFound (model st))); [|done].
    intros spec s0 s0' _ [H1 H2] [H3 H4]%scanSpec_FilesScanned. split; congruence.
Qed.

(** X2: When [Build] returns a model, [FilesScanned] is the number of files
    [findFiles] found, parsed or not, and [FieldsFound] is still 0: nothing
    in the engine counts fields. *)
Theorem every_file_is_counted_and_no_field :
  match (findFiles W R config emptyState).1, Build W R config with
  | inr files, Ok (inr m) =>
      FilesScanned m = int (Z.of_nat (List.length files)) ∧ FieldsFound m = 0%Z
  | inl err, Ok (inl err') => err' = err
  | _, _ => False
  end.
Proof.
  pose proof (Build_run W R config) as H.
  pose proof (findFiles_model W R config emptyState) as Hm.
  destruct (findFiles W R config emptyState) as [[err|files] st]; simpl in *.
  - by rewrite H.
  - destruct H as (st' & Hrun & ->).
    assert (∀ fs s s' e, scanAll W R config fs s = Ok (e, s') →
              ∀ n, FilesScanned (model s) = int (Z.of_nat n) →
                   FilesScanned (model s') = int (Z.of_nat (n + List.length fs)) ∧
                   FieldsFound (model s') = FieldsFound (model s)) as Hall.
    { induction fs as [|f fs IH]; intros s s' e; simpl.
      - intros [= _ <-] n Hn. rewrite Nat.add_0_r. done.
      - destruct (scanFile W R config f s) as [[e1 s1]| |] eqn:Hf; simpl; try discriminate.
        pose proof (scanFile_FilesScanned _ _ _ _ Hf) as [H1 H2].
        apply scanFile_Errors in Hf as [-> _].
        intros Hrest n Hn. destruct (IH _ _ _ Hrest (S n)) as [H3 H4].
        + by rewrite H1, Hn, incr_count.
        + split; [|congruence]. rewrite H3. f_equal. f_equal. lia. }
    destruct (Hall _ _ _ _ Hrun 0%nat) as [H1 H2]; [by rewrite Hm|].
    split; [exact H1|]. by rewrite H2, Hm.
Qed.

End Statistics.

(** ** The files of a run *)

Section Files.

Variable W : World.
Variable R : RangeOrder.
Variable config : Config.

Lemma expandAll_fold add patterns : ∀ set set',
  expandAll W config add patterns set = inr set' →
  set' = foldl (fun set p => add p set) set (allPaths W config patterns).
Proof.
  induction patterns as [|pattern rest IH]; intros set set' H; simpl in H.
  - by simplify_eq.
  - unfold allPaths. rewrite bind_cons, foldl_app.
    destruct (expandPattern W config pattern) as [paths [err|]]; [done|].
    by apply IH.
Qed.

Lemma fold_exclude paths : ∀ set : gmap string bool,
  (∀ p b, set !! p = Some b → b = true) →
  let set' := foldl (fun set p => <[p := true]> set) set paths in
  (∀ p b, set' !! p = Some b → b = true) ∧
  ∀ p, is_Some (set' !! p) ↔ is_Some (set !! p) ∨ p ∈ paths.
Proof.
  induction paths as [|q paths IH]; intros set Hset; simpl.
  - split; [done|]. intros p. rewrite elem_of_nil. tauto.
  - destruct (IH (<[q := true]> set)) as [H1 H2].
    { intros p b. destruct (decide (p = q)) as [->|Hne].
      - rewrite lookup_insert_eq. congruence.
      - rewrite lookup_insert_ne by done. apply Hset. }
    split; [done|]. intros p. rewrite H2, elem_of_cons.
    destruct (decide (p = q)) as [->|Hne].
    + rewrite lookup_insert_eq. split; [auto|]. intros _. left. by eexists.
    + rewrite lookup_insert_ne by done. intuition congruence.
Qed.

Lemma fold_include (mustExclude : gmap string bool) paths : ∀ set : gmap string bool,
  let set' := foldl (fun set p => if default false (mustExclude !! p) then set
                                  else <[p := true]> set) set paths in
  ∀ p, is_Some (set' !! p) ↔
       is_Some (set !! p) ∨ (p ∈ paths ∧ default false (mustExclude !! p) = false).
Proof.
  induction paths as [|q paths IH]; intros set; simpl.
  - intros p. rewrite elem_of_nil. tauto.
  - intros p. rewrite IH, elem_of_cons.
    destruct (default false (mustExclude !! q)) eqn:Hq.
    + split; [tauto|]. intros [?|[[->|?] ?]]; [auto|congruence|auto].
    + destruct (decide (p = q)) as [->|Hne].
      * rewrite lookup_insert_eq. split; [|intros _; left; by eexists]. auto.
      * rewrite lookup_insert_ne by done. intuition congruence.
Qed.

(** X3: When [findFiles] succeeds, the files it returns are, each once, the
    paths that some inclusion pattern expands to and no exclusion pattern
    expands to. *)
Theorem findFiles_is_include_minus_exclude st files st' :
  findFiles W R config st = (inr files, st') →
  NoDup files ∧
  ∀ p, p ∈ files ↔
       p ∈ allPaths W config (Include (Input config)) ∧
       p ∉ allPaths W config (Exclude (Input config)).
Proof.
  unfold findFiles. intros H.
  destruct (expandAll W config _ (Exclude (Input config)) ∅) as [err|mustExclude] eqn:HE;
    [done|].
  destruct (expandAll W config _ (Include (Input config)) ∅) as [err|includeSet] eqn:HI;
    [done|].
  simplify_eq.
  apply expandAll_fold in HE. apply expandAll_fold in HI.
  destruct (fold_exclude (allPaths W config (Exclude (Input config))) ∅) as [Ht Hk].
  { intros p b. by rewrite lookup_empty. }
  rewrite <- HE in Ht, Hk.
  pose proof (fold_include mustExclude (allPaths W config (Include (Input config))) ∅) as Hi.
  simpl in Hi. rewrite <- HI in Hi.
  assert (Hperm : (order R (ranges st) _ (map_to_list includeSet)).*1
                  ≡ₚ (map_to_list includeSet).*1).
  { apply fmap_Permutation, order_perm. }
  split.
  - rewrite Hperm. apply NoDup_fst_map_to_list.
  - intros p. rewrite Hperm. rewrite list_elem_of_fmap.
    transitivity (is_Some (includeSet !! p)).
    { split.
      - intros [[q b] [-> Hin]]. apply elem_of_map_to_list in Hin. by eexists.
      - intros [b Hb]. exists (p, b). split; [done|]. by apply elem_of_map_to_list. }
    rewrite Hi. rewrite lookup_empty.
    assert (default false (mustExclude !! p) = false ↔
            p ∉ allPaths W config (Exclude (Input config))) as ->.
    { specialize (Hk p). rewrite lookup_empty in Hk.
      destruct (mustExclude !! p) as [b|] eqn:Hb; simpl.
      - rewrite (Ht _ _ Hb). split; [done|]. intros Hn. destruct Hn.
        destruct (proj1 Hk) as [[? ?]|?]; [by eexists|done|done].
      - split; [|done]. intros _ Hin.
        destruct (proj2 Hk) as [? ?]; [by right|done]. }
    split; [intros [[? ?]|?]; [done|done]|auto].
Qed.

Lemma expandAll_firstFailure add patterns : ∀ set,
  match firstFailure W config patterns with
  | Some (pattern, err) =>
      expandAll W config add patterns set
      = inl (wrapError ("failed to expand pattern " ++ pattern) err)
  | None => ∃ set', expandAll W config add patterns set = inr set'
  end.
Proof.
  induction patterns as [|pattern rest IH]; intros set; simpl; [by eexists|].
  destruct (expandPattern W config pattern) as [paths [err|]]; simpl; [done|].
  apply IH.
Qed.

Lemma firstFailure_app ps qs :
  firstFailure W config (ps ++ qs) =
    match firstFailure W config ps with
    | Some f => Some f
    | None => firstFailure W config qs
    end.
Proof.
  induction ps as [|p ps IH]; simpl; [done|].
  by destruct ((expandPattern W config p).2).
Qed.

(** X4: [Build] fails exactly when a pattern fails to expand: it returns the
    error of the first such pattern, the exclusions being tried before the
    inclusions, with the pattern named in front; otherwise it returns a
    model, whatever the files hold. *)
Theorem Build_fails_on_the_first_bad_pattern_only :
  match firstFailure W config (Exclude (Input config) ++ Include (Input config)) with
  | Some (pattern, err) =>
      Build W R config = Ok (inl (wrapError ("failed to expand pattern " ++ pattern) err))
  | None => ∃ m, Build W R config = Ok (inr m)
  end.
Proof.
  pose proof (Build_run W R config) as H. rewrite firstFailure_app.
  unfold findFiles in H.
  pose proof (expandAll_firstFailure (fun p set => <[p := true]> set)
                (Exclude (Input config)) ∅) as HE.
  destruct (firstFailure W config (Exclude (Input config))) as [[p err]|].
  { by rewrite HE in H. }
  destruct HE as [mustExclude HE]. rewrite HE in H.
  pose proof (expandAll_firstFailure
                (fun p set => if default false (mustExclude !! p) then set
                              else <[p := true]> set)
                (Include (Input config)) ∅) as HI.
  destruct (firstFailure W config (Include (Input config))) as [[p err]|].
  { by rewrite HI in H. }
  destruct HI as [includeSet HI]. rewrite HI in H. simpl in H.
  destruct H as (st' & _ & H). by eexists.
Qed.

Lemma walkPackageFiles_spec packageName entries : ∀ files,
  walkPackageFiles W packageName entries files =
    ((files ++ (w_path <$> filter (fun e => inPackage W packageName e = true)
                             (beforeError entries)))%list,
     head (omap w_err entries)).
Proof.
  induction entries as [|e rest IH]; intros files; simpl.
  - by rewrite app_nil_r.
  - destruct (w_err e) as [err|] eqn:He; simpl; [by rewrite app_nil_r|].
    rewrite filter_cons, !IH.
    destruct (decide (inPackage W packageName e = true)) as [Hin|Hin];
      unfold inPackage in Hin;
      destruct (w_isDir e); simpl in Hin |- *; try done;
      destruct (Go.HasSuffix (w_path e) ".go"); simpl in Hin |- *; try done;
      destruct (ParsePackageClause W (w_path e)) as [name|]; simpl in Hin |- *; try done.
    + apply bool_decide_eq_true_1 in Hin as [= ->].
      destruct (decide _); [|done]. by rewrite <- app_assoc.
    + destruct (decide (name = packageName)) as [->|Hne]; [|done].
      by rewrite bool_decide_eq_true_2 in Hin.
Qed.

(** X5: [findPackageFiles] returns, in the order of the walk, the paths of the
    entries that are not directories, end in ".go" and whose package clause
    parses and names the package; files whose clause does not parse are
    passed over.  An entry the walk reports with an error ends the walk:
    that error is returned, with the files gathered before it. *)
Theorem findPackageFiles_gathers_the_package packageName :
  findPackageFiles W config packageName =
    (w_path <$> filter (fun e => inPackage W packageName e = true)
                  (beforeError (Walk W (Dir (Input config)))),
     head (omap w_err (Walk W (Dir (Input config))))).
Proof. unfold findPackageFiles. by rewrite walkPackageFiles_spec. Qed.

End Files.

Lemma findFiles_is_include_minus_exclude_witness :
  NoDup ["./a.go"; "./b.go"] ∧
  ∀ p, p ∈ ["./a.go"; "./b.go"] ↔
       p ∈ allPaths treeWorld treeConfig (Include (Input treeConfig)) ∧
       p ∉ allPaths treeWorld treeConfig (Exclude (Input treeConfig)).
Proof.
  apply (findFiles_is_include_minus_exclude treeWorld inOrder treeConfig emptyState
           ["./a.go"; "./b.go"] {| model := NewModel; store := []; ranges := 1 |}).
  vm_compute. reflexivity.
Defined.

(** ** The struct scan *)

Section StructScanning.

Variable W : World.
Variable config : Config.

Lemma scanElement_ok name filePath line packageName fieldName tagText el sc :
  structScanOk name filePath line packageName sc →
  structScanOk name filePath line packageName
    (scanElement W packageName fieldName tagText el sc).
Proof.
  intros Hok. pose proof Hok as (Hh & Hs & Hc & Hi). unfold scanElement.
  destruct (decide _) as [|Hv]; [exact Hok|].
  destruct (out_Mode (el_Output el)); [exact Hok| | |exact Hok].
  - (* struct *)
    destruct (structByElement sc !! el_Name el) as [i|] eqn:Hl.
    + pose proof (Hi _ _ Hl) as Hlt.
      destruct (lookup_lt_is_Some_2 _ _ Hlt) as [so Hso].
      split; [done|]. split; [|split; [done|]].
      2: { simpl. intros e j Hj. rewrite length_alter. by apply (Hi e). }
      simpl. rewrite Hso. simpl.
      apply Forall_alter; [done|]. intros x Hx. rewrite Hso in Hx. injection Hx as <-.
      intros (Hp & _ & Hf). split; [done|]. simpl. split.
      * by destruct (so_Fields so).
      * apply Forall_app. split; [done|]. by constructor.
    + split; [done|]. split; [|split; [done|]].
      * simpl. rewrite lookup_app_r by lia. rewrite Nat.sub_diag. simpl.
        rewrite <- (Nat.add_0_r (List.length (sm_Structs (structModel sc)))) at 1.
        rewrite alter_app_r. simpl. apply Forall_app. split; [done|].
        constructor; [|done]. split; [done|]. split; [done|]. simpl. by constructor.
      * simpl. intros e j. rewrite length_alter, length_app. simpl.
        destruct (decide (e = el_Name el)) as [->|Hne].
        -- rewrite lookup_insert_eq. intros [= <-]. lia.
        -- rewrite lookup_insert_ne by done. intros Hj%Hi. lia.
  - (* constant *)
    split; [done|]. split; [done|]. split; [|done]. simpl.
    apply Forall_app. split; [done|]. by constructor.
Qed.

Lemma scanReturn_scan filePath packageName field fieldName ret gs :
  structModel (scanReturn W filePath packageName field fieldName ret gs).1.2
    = structModel gs.1.2 ∧
  structByElement (scanReturn W filePath packageName field fieldName ret gs).1.2
    = structByElement gs.1.2.
Proof.
  destruct gs as [[returns sc] st]. unfold scanReturn.
  destruct (Go.HasPrefix ret ":").
  - destruct (decide _); [|done]. by destruct (createValueOutput _ _ _ _ _ _) as [[v|] s1].
  - repeat case_match; done.
Qed.

Lemma scanGetter_scanOk name filePath line packageName field fieldName g ss :
  structScanOk name filePath line packageName ss.1 →
  structScanOk name filePath line packageName
    (scanGetter W filePath packageName field fieldName g ss).1.
Proof.
  destruct ss as [sc st]. intros Hok. unfold scanGetter.
  assert (structModel (foldl (fun gs ret => scanReturn W filePath packageName field fieldName ret gs)
                   (([], sc, st) : GetterScan) (Returns g)).1.2 = structModel sc ∧
          structByElement (foldl (fun gs ret => scanReturn W filePath packageName field fieldName ret gs)
                   (([], sc, st) : GetterScan) (Returns g)).1.2 = structByElement sc) as H.
  { apply (foldl_invariant (fun gs : GetterScan =>
             structModel gs.1.2 = structModel sc ∧ structByElement gs.1.2 = structByElement sc));
      [|done].
    intros x s _ [H1 H2].
    destruct (scanReturn_scan filePath packageName field fieldName x s) as [H3 H4].
    split; congruence. }
  destruct (foldl _ _ _) as [[returns sc1] s1]. simpl in H. destruct H as [H1 H2].
  destruct Hok as (Hh & Hs & Hc & Hi).
  case_decide; simpl; unfold structScanOk; simpl; rewrite ?H1, ?H2; done.
Qed.

Lemma scanFields_scanOk filePath packageName typeSpec fields st :
  structScanOk (ts_Name typeSpec) filePath (ts_Line typeSpec) packageName
    (scanFields W config filePath packageName typeSpec fields st).1.
Proof.
  unfold scanFields.
  apply (foldl_invariant (fun ss : StructScan * State =>
           structScanOk (ts_Name typeSpec) filePath (ts_Line typeSpec) packageName ss.1)).
  - intros field ss _ Hss. unfold scanField.
    destruct (decide _); [done|]. destruct (negb _); [done|].
    apply (foldl_invariant (fun ss : StructScan * State =>
           structScanOk (ts_Name typeSpec) filePath (ts_Line typeSpec) packageName ss.1));
      [|done].
    intros fieldName [sc s] _ Hsc. unfold scanIdent.
    apply (foldl_invariant (fun ss : StructScan * State =>
           structScanOk (ts_Name typeSpec) filePath (ts_Line typeSpec) packageName ss.1)).
    + intros g ss0 _ Hss0. by apply scanGetter_scanOk.
    + simpl.
      apply (foldl_invariant (structScanOk (ts_Name typeSpec) filePath (ts_Line typeSpec)
                                packageName)); [|done].
      intros el sc0 _ Hsc0. by apply scanElement_ok.
  - simpl. split; [done|]. split; [constructor|]. split; [constructor|].
    intros el i. simpl. by rewrite lookup_empty.
Qed.

(** X6: In the struct model the scan of a struct declaration builds, every
    struct output belongs to the package of the file and holds one field
    at least; every field names the struct output that holds it; and no
    constant and no field has an empty value. *)
Theorem scanned_outputs_are_well_formed filePath packageName typeSpec fields st :
  let sm := structModel (scanFields W config filePath packageName typeSpec fields st).1 in
  (∀ so, so ∈ sm_Structs sm →
     so_Package so = packageName ∧ so_Fields so ≠ [] ∧
     ∀ f, f ∈ so_Fields so → f_StructName f = so_Name so ∧ f_Value f ≠ "") ∧
  (∀ c, c ∈ sm_Constants sm → c_Value c ≠ "").
Proof.
  destruct (scanFields_scanOk filePath packageName typeSpec fields st) as (_ & Hs & Hc & _).
  simpl. split.
  - intros so Hso. rewrite Forall_forall in Hs. destruct (Hs _ Hso) as (H1 & H2 & H3).
    split; [done|]. split; [done|]. intros f Hf. rewrite Forall_forall in H3. by apply H3.
  - intros c Hin. rewrite Forall_forall in Hc. by apply Hc.
Qed.

End StructScanning.

(** ** The content of the model *)

Lemma mustIncludeStruct_decision config m m' genDecl typeSpec filePath :
  (mustIncludeStruct config m genDecl typeSpec filePath).1
  = (mustIncludeStruct config m' genDecl typeSpec filePath).1.
Proof.
  unfold mustIncludeStruct. destruct (structDirectives genDecl typeSpec).
  repeat case_match; reflexivity.
Qed.

Section Content.

Variable W : World.
Variable R : RangeOrder.
Variable config : Config.

Lemma change_errors m m' :
  change W config m m' → Forall (knownError W) (Errors m) → Forall (knownError W) (Errors m').
Proof.
  intros Hc Hm. destruct Hc as [|file err Hp|file node genDecl typeSpec fields| ]; simpl;
    try done.
  - apply Forall_app. split; [done|]. constructor; [|done]. left. by exists err.
  - apply Forall_app. split; [done|]. constructor; [|done]. right.
    by exists node, genDecl, typeSpec, fields.
Qed.

(** X7: When [Build] returns a model, every error in it is of one of two
    kinds: a file that failed to parse, under its path, with the line of
    the syntax error and the parser's message; or a struct declaration of a
    parsed file that carries both directives, under its file and line. *)
Theorem errors_are_parse_failures_or_directive_clashes :
  match Build W R config with
  | Ok (inr m) => Forall (knownError W) (Errors m)
  | Ok (inl _) => True
  | _ => False
  end.
Proof.
  pose proof (Build_run W R config) as H.
  pose proof (findFiles_model W R config emptyState) as Hm.
  destruct (findFiles W R config emptyState) as [[err|files] st]; simpl in *.
  - by rewrite H.
  - destruct H as (st' & Hrun & ->).
    apply scanAll_changes in Hrun. rewrite Hm in Hrun.
    apply (rtc_invariant (change W config) (fun m => Forall (knownError W) (Errors m))
             change_errors _ _ Hrun).
    constructor.
Qed.

Lemma change_packages m m' :
  change W config m m' → packagesOk W config m → packagesOk W config m'.
Proof.
  intros Hc Hm.
  destruct Hc as [| | |file node genDecl typeSpec fields st imports Hp Hd Ht Hs Hty Hinc Hout];
    simpl; try done.
  intros path pkg. unfold withStruct. simpl.
  destruct (decide (path = extractPackagePath W file)) as [->|Hne].
  2: { rewrite lookup_insert_ne by done. apply Hm. }
  rewrite lookup_insert_eq. intros [= <-]. simpl.
  destruct (scanFields_scanOk W config file (file_Name node) typeSpec fields st)
    as ((Hn & Hf & Hl) & _).
  assert (declaredIn W config (extractPackagePath W file)
            (structModel (scanFields W config file (file_Name node) typeSpec fields st).1))
    as Hdecl.
  { exists file, node, genDecl, typeSpec, fields. repeat split; try done.
    by rewrite (mustIncludeStruct_decision config NewModel m). }
  destruct (Packages m !! extractPackagePath W file) as [old|] eqn:Hold; simpl.
  - destruct (Hm _ _ Hold) as (H1 & H2 & H3). split; [done|]. split.
    + intros Happ. by apply app_eq_nil in Happ as [_ ?].
    + intros sm [Hin| ->%list_elem_of_singleton]%elem_of_app; [by apply H3|done].
  - split; [done|]. split; [done|].
    intros sm ->%list_elem_of_singleton. done.
Qed.

(** X8: When [Build] returns a model, every package in it sits under its own
    path and holds one struct at least; and every struct in it has a
    constant, a struct output or a getter, and carries the name, the file
    and the line of a struct type which is declared in a file that parses
    and lies under the path of the package, and which the inclusion policy
    admits. *)
Theorem model_holds_only_admitted_structs_with_output :
  match Build W R config with
  | Ok (inr m) => packagesOk W config m
  | Ok (inl _) => True
  | _ => False
  end.
Proof.
  pose proof (Build_run W R config) as H.
  pose proof (findFiles_model W R config emptyState) as Hm.
  destruct (findFiles W R config emptyState) as [[err|files] st]; simpl in *.
  - by rewrite H.
  - destruct H as (st' & Hrun & ->).
    apply scanAll_changes in Hrun. rewrite Hm in Hrun.
    apply (rtc_invariant (change W config) (packagesOk W config) change_packages _ _ Hrun).
    intros path pkg Hl. simpl in Hl. by rewrite lookup_empty in Hl.
Qed.

End Content.

(** ** Adding to a package that is there *)

(** X9: [AddStruct] on a path the model has a package for: the call ends
    normally; the package keeps its name, whatever the package name
    given, and its path, and gains the struct at the end of its list; no
    other package changes; one more struct is counted and no package. *)
Theorem AddStruct_keeps_the_first_package_name R st path name sm F pkg :
  aggregatorOk st (valueLocs sm ++ F) →
  Packages (model st) !! path = Some pkg →
  ∃ st' imports,
    AddStruct R st path name sm = Ok st' ∧
    Packages (model st') =
      <[path := {| pm_Name := pm_Name pkg; pm_Path := pm_Path pkg;
                   pm_Imports := imports;
                   pm_Structs := (pm_Structs pkg ++ [sm])%list |}]> (Packages (model st)) ∧
    PackagesFound (model st') = PackagesFound (model st) ∧
    StructsFound (model st') = incr (StructsFound (model st)).
Proof.
  intros Hok Hl.
  destruct (AddStruct_ok R st path name sm F Hok) as (st' & Hrun & _).
  destruct (AddStruct_model _ _ _ _ _ _ Hrun) as [imports Hm].
  exists st', imports. split; [done|]. rewrite Hm. unfold withStruct. rewrite Hl. done.
Qed.

(** ** Inclusion policy: one directive, and fields without an override *)

(** X10: A struct whose comments carry one of the two directives and not the
    other is included if the directive is include and dropped if it is
    exclude, whatever the configuration and whether or not its name is
    exported; the model is left as it was. *)
Theorem a_single_directive_decides config m genDecl typeSpec filePath :
  xorb (existsb (hasDirective "constago:include") (comments genDecl typeSpec))
       (existsb (hasDirective "constago:exclude") (comments genDecl typeSpec)) = true →
  mustIncludeStruct config m genDecl typeSpec filePath =
    (existsb (hasDirective "constago:include") (comments genDecl typeSpec), m).
Proof.
  unfold mustIncludeStruct. rewrite structDirectives_spec.
  destruct (existsb (hasDirective "constago:include") _),
           (existsb (hasDirective "constago:exclude") _); simpl; try done.
  - intros _. by destruct (struct_isExplicit _).
Qed.

Lemma a_single_directive_decides_witness :
  mustIncludeStruct (sampleConfig (flags true false) (fieldFlags false false) [] [])
    NewModel declPlain (specUser "user" (Some ["// constago:include, please"]) []) "x.go"
  = (true, NewModel).
Proof.
  apply (a_single_directive_decides
           (sampleConfig (flags true false) (fieldFlags false false) [] [])
           NewModel declPlain (specUser "user" (Some ["// constago:include, please"]) [])
           "x.go").
  vm_compute. reflexivity.
Defined.

(** X11: A field whose reserved tag reads neither "exclude" nor "include": if
    the tag is absent or blank, the field is kept exactly when
    field-explicit mode is off and the export test passes; if the tag has
    any other text, explicit mode lets the field through and the export test
    alone decides.  The export test passes when unexported fields are
    included, or the first name of the field is exported: of the names of
    one field declaration only the first is looked at. *)
Theorem field_policy_without_override W config field :
  let v := StructTag_Get W (fieldTagText field) "constago" in
  let exportTest :=
    field_isIncludeUnexported (InField (Input config))
    || match Names field with
       | [] => true
       | name :: _ => IsExported name
       end in
  v ≠ "exclude" → v ≠ "include" →
  mustIncludeField W config field =
    if decide (Go.TrimSpace v = "")
    then negb (field_isExplicit (InField (Input config))) && exportTest
    else exportTest.
Proof.
  intros v exportTest Hex Hin. unfold mustIncludeField, lookupTag. fold v.
  destruct (decide (Go.TrimSpace v = "")) as [Hb|Hb]; simpl.
  - destruct (field_isExplicit _); simpl; [done|].
    unfold exportTest. destruct (field_isIncludeUnexported _); simpl; [done|].
    destruct (Names field) as [|n ns]; simpl; [done|by destruct (IsExported n)].
  - rewrite bool_decide_eq_false_2 by done. rewrite bool_decide_eq_false_2 by done.
    rewrite andb_false_r. simpl.
    unfold exportTest. destruct (field_isIncludeUnexported _); simpl; [done|].
    destruct (Names field) as [|n ns]; simpl; [done|by destruct (IsExported n)].
Qed.

Lemma field_policy_without_override_witness :
  mustIncludeField plainWorld
    (sampleConfig (flags false false) (fieldFlags true false) [] [])
    {| Names := ["Name"; "nick"]; Tag := Some (tagLiteral [tagPair "constago" "yes"]);
       Type_ := "string" |} = true.
Proof.
  apply (field_policy_without_override plainWorld
           (sampleConfig (flags false false) (fieldFlags true false) [] [])
           {| Names := ["Name"; "nick"]; Tag := Some (tagLiteral [tagPair "constago" "yes"]);
              Type_ := "string" |}); vm_compute; discriminate.
Defined.

Lemma AddStruct_keeps_the_first_package_name_witness :
  ∃ st' imports,
    AddStruct inOrder onePackage "pkg" "main_test" (structWithValues "B" []) = Ok st' ∧
    Packages (model st') =
      <[ "pkg" := {| pm_Name := "main"; pm_Path := "pkg"; pm_Imports := imports;
                     pm_Structs := [structWithValues "A" []; structWithValues "B" []] |} ]>
        (Packages (model onePackage)) ∧
    PackagesFound (model st') = 1%Z ∧
    StructsFound (model st') = 2%Z.
Proof.
  apply (AddStruct_keeps_the_first_package_name inOrder onePackage "pkg" "main_test"
           (structWithValues "B" []) []
           {| pm_Name := "main"; pm_Path := "pkg"; pm_Imports := ∅;
              pm_Structs := [structWithValues "A" []] |}).
  - split.
    + split; [constructor|]. intros l Hl. by apply elem_of_nil in Hl.
    + intros path pkg Hl. simpl in Hl.
      apply lookup_singleton_Some in Hl as [_ <-]. simpl.
      split; [split|]; intros ? *; by rewrite lookup_empty.
  - reflexivity.
Defined.

(** ** Words and identifiers *)

Lemma String_append c s : String c s = String c "" ++ s.
Proof. reflexivity. Qed.

Lemma append_cons c s t : String c s ++ t = String c (s ++ t).
Proof. reflexivity. Qed.

Lemma concatWords_app ws1 ws2 :
  concatWords (ws1 ++ ws2) = concatWords ws1 ++ concatWords ws2.
Proof.
  induction ws1 as [|w ws1 IH]; [reflexivity|].
  change (w ++ concatWords (ws1 ++ ws2) = (w ++ concatWords ws1) ++ concatWords ws2).
  by rewrite IH, append_assoc.
Qed.

Lemma concatWords_flush words cur : concatWords (flush words cur) = concatWords words ++ cur.
Proof.
  unfold flush. destruct cur as [|c cur]; simpl.
  - by rewrite append_nil_r.
  - rewrite concatWords_app. f_equal.
    change (String c cur ++ "" = String c cur). apply append_nil_r.
Qed.

Lemma splitLoop_concat s : ∀ prev words cur,
  concatWords (splitLoop prev s words cur) = concatWords words ++ cur ++ dropSeparators s.
Proof.
  induction s as [|r rest IH]; intros prev words cur.
  - change (concatWords (flush words cur) = concatWords words ++ cur ++ "").
    by rewrite concatWords_flush, append_nil_r.
  - simpl. destruct (isSeparator r) eqn:Hsep.
    + rewrite IH, concatWords_flush. change ("" ++ dropSeparators rest) with (dropSeparators rest).
      by rewrite append_assoc.
    + assert (∀ ws c, concatWords ws ++ (c ++ String r "") ++ dropSeparators rest
                      = concatWords ws ++ c ++ String r (dropSeparators rest)) as Hplain.
      { intros ws c. by rewrite (append_assoc c). }
      destruct (Go.IsUpper r); [|by rewrite IH, Hplain].
      destruct (_ && _); [|by rewrite IH, Hplain].
      rewrite IH, concatWords_app. rewrite append_assoc. f_equal.
      change (concatWords [cur]) with (cur ++ ""). by rewrite append_nil_r.
Qed.

Lemma allRunes_app P s t : allRunes P (s ++ t) = allRunes P s && allRunes P t.
Proof.
  induction s as [|c s IH]; [reflexivity|].
  change (P c && allRunes P (s ++ t) = P c && allRunes P s && allRunes P t).
  by rewrite IH, andb_assoc.
Qed.

(** A word: not empty, every byte of the kind [Q]. *)
Lemma splitLoop_words_of Q s : ∀ prev words cur,
  allRunes (fun c => isSeparator c || Q c) s = true →
  Forall (fun w => w ≠ "" ∧ allRunes Q w = true) words →
  allRunes Q cur = true →
  Forall (fun w => w ≠ "" ∧ allRunes Q w = true) (splitLoop prev s words cur).
Proof.
  assert (∀ words cur,
            Forall (fun w => w ≠ "" ∧ allRunes Q w = true) words →
            allRunes Q cur = true →
            Forall (fun w => w ≠ "" ∧ allRunes Q w = true) (flush words cur)) as Hflush.
  { intros words cur Hw Hc. unfold flush. destruct cur as [|c cur]; simpl; [done|].
    apply Forall_app. split; [done|]. by repeat constructor. }
  induction s as [|r rest IH]; intros prev words cur Hs Hw Hc; simpl.
  - by apply Hflush.
  - simpl in Hs. apply andb_true_iff in Hs as [Hr Hs].
    destruct (isSeparator r) eqn:Hsep; [apply IH; [done|by apply Hflush|done]|].
    simpl in Hr.
    assert (allRunes Q (cur ++ String r "") = true) as Hcur.
    { rewrite allRunes_app, Hc. simpl. by rewrite Hr. }
    destruct (Go.IsUpper r); [|by apply IH].
    destruct ((0 <? String.length cur)%nat) eqn:Hlen; simpl; [|by apply IH].
    destruct (negb _); [|by apply IH].
    apply IH; [done| |simpl; by rewrite Hr].
    apply Forall_app. split; [done|]. constructor; [|done]. split; [|done].
    by destruct cur.
Qed.

Lemma splitLoop_keeps_head s : ∀ prev w ws cur,
  ∃ more, splitLoop prev s (w :: ws) cur = w :: more.
Proof.
  induction s as [|r rest IH]; intros prev w ws cur; simpl.
  - unfold flush. destruct (_ <? _)%nat; by eexists.
  - destruct (isSeparator r).
    + unfold flush. destruct (_ <? _)%nat; apply IH.
    + destruct (Go.IsUpper r); [|apply IH]. destruct (_ && _); apply IH.
Qed.

Lemma splitLoop_begins s : ∀ prev c t,
  ∃ t' more, splitLoop prev s [] (String c t) = String c t' :: more.
Proof.
  induction s as [|r rest IH]; intros prev c t; simpl.
  - by eexists _, _.
  - destruct (isSeparator r).
    + change (flush [] (String c t)) with [String c t].
      destruct (splitLoop_keeps_head rest (Some r) (String c t) [] "") as [more ->].
      by eexists _, _.
    + destruct (Go.IsUpper r); [|apply IH].
      destruct (negb _); simpl; [|apply IH].
      destruct (splitLoop_keeps_head rest (Some r) (String c t) [] (String r "")) as [more ->].
      by eexists _, _.
Qed.

Lemma splitIntoWords_begins c s :
  isSeparator c = false → ∃ t more, splitIntoWords (String c s) = String c t :: more.
Proof.
  intros Hc. unfold splitIntoWords. simpl. rewrite Hc.
  destruct (Go.IsUpper c); apply splitLoop_begins.
Qed.

(** X12: The words [splitIntoWords] returns are not empty and hold no
    separator, and written one after the other they are the string without
    its separators: splitting loses the separators and nothing else. *)
Theorem splitIntoWords_loses_only_separators s :
  Forall (fun w => w ≠ "" ∧ allRunes (fun c => negb (isSeparator c)) w = true)
    (splitIntoWords s) ∧
  concatWords (splitIntoWords s) = dropSeparators s.
Proof.
  split.
  - apply splitLoop_words_of; [|constructor|reflexivity].
    induction s as [|c s IH]; simpl; [done|]. rewrite IH. by destruct (isSeparator c).
  - unfold splitIntoWords. by rewrite splitLoop_concat.
Qed.
Lemma alnum_runes c :
  isAlnum c = true →
  isAlnum (Go.lower_rune c) = true ∧ isAlnum (Go.upper_rune c) = true ∧
  isIdentPart c = true ∧
  (Go.IsLetter c = true →
   Go.IsLetter (Go.lower_rune c) = true ∧ Go.IsLetter (Go.upper_rune c) = true ∧
   isIdentStart c = true ∧ isSeparator c = false).
Proof. destruct c as [[] [] [] [] [] [] [] []]; vm_compute; intuition congruence. Qed.

Lemma identPart_runes c :
  isIdentPart c = true ∨ c = " "%char → isSeparator c || isAlnum c = true.
Proof.
  intros [H| ->]; [|reflexivity]. revert H.
  destruct c as [[] [] [] [] [] [] [] []]; vm_compute; congruence.
Qed.

Lemma allRunes_impl (P Q : ascii → bool) s :
  (∀ c, P c = true → Q c = true) → allRunes P s = true → allRunes Q s = true.
Proof.
  intros HPQ. induction s as [|c s IH]; simpl; [done|].
  intros [Hc Hs]%andb_true_iff. by rewrite (HPQ _ Hc), IH.
Qed.

Lemma map_runes_alnum f s :
  (∀ c, isAlnum c = true → isAlnum (f c) = true) →
  allRunes isAlnum s = true → allRunes isAlnum (Go.map_runes f s) = true.
Proof.
  intros Hf. induction s as [|c s IH]; simpl; [done|].
  intros [Hc Hs]%andb_true_iff. by rewrite (Hf _ Hc), IH.
Qed.

Lemma title_alnum s : ∀ b,
  allRunes isAlnum s = true → allRunes isAlnum (Go.title_from b s) = true.
Proof.
  induction s as [|c s IH]; intros b; simpl; [done|].
  intros [Hc Hs]%andb_true_iff. destruct (alnum_runes c Hc) as (_ & Hu & _).
  destruct (Go.IsLetter c); simpl.
  - destruct b; simpl; rewrite ?Hc, ?Hu; by apply IH.
  - destruct (Go.IsDigit c); simpl; rewrite Hc; by apply IH.
Qed.

Lemma titleWord_alnum w : allRunes isAlnum w = true → allRunes isAlnum (titleWord w) = true.
Proof.
  intros Hw. apply title_alnum, map_runes_alnum; [|done].
  intros c Hc. by destruct (alnum_runes c Hc).
Qed.

Lemma titleWord_begins c t :
  Go.IsLetter c = true → beginsWithLetter (titleWord (String c t)) = true.
Proof.
  intros Hc. unfold titleWord, Go.Title, Go.ToLower.
  cbn [Go.map_runes Go.title_from].
  assert (isAlnum c = true) as Ha by (unfold isAlnum; by rewrite Hc).
  destruct (alnum_runes c Ha) as (Hl & _ & _ & Hletter).
  destruct (Hletter Hc) as (Hll & _).
  rewrite Hll. cbn [beginsWithLetter].
  destruct (alnum_runes _ Hl) as (_ & _ & _ & Hletter'). by destruct (Hletter' Hll) as (_ & ? & _).
Qed.

Lemma arrayToPascalCase_alnum ws :
  Forall (fun w => w ≠ "" ∧ allRunes isAlnum w = true) ws →
  allRunes isAlnum (arrayToPascalCase ws) = true.
Proof.
  induction 1 as [|w ws [Hne Hw] _ IH]; simpl; [done|].
  destruct (decide (w = "")); [done|].
  by rewrite allRunes_app, titleWord_alnum, IH.
Qed.

Lemma Join_runes P sep ws :
  allRunes P sep = true → Forall (fun w => allRunes P w = true) ws →
  allRunes P (Go.Join ws sep) = true.
Proof.
  intros Hsep. induction 1 as [|w ws Hw Hws IH]; simpl; [done|].
  destruct ws as [|w' ws]; [done|].
  by rewrite !allRunes_app, Hw, Hsep, IH.
Qed.

Lemma Join_begins sep c t ws :
  beginsWithLetter (String c t) = true →
  beginsWithLetter (Go.Join (String c t :: ws) sep) = true.
Proof. intros H. simpl. by destruct ws. Qed.

Lemma beginsWithLetter_map f s :
  (∀ c, Go.IsLetter c = true → Go.IsLetter (f c) = true) →
  beginsWithLetter s = true → beginsWithLetter (Go.map_runes f s) = true.
Proof. intros Hf. destruct s as [|c s]; simpl; [done|]. apply Hf. Qed.

Lemma identifier_intro s :
  beginsWithLetter s = true → allRunes isIdentPart s = true → isValidGoIdentifier s = true.
Proof.
  destruct s as [|c s]; simpl; [done|]. intros Hc [_ Hs]%andb_true_iff.
  rewrite Hs, andb_true_r.
  assert (isAlnum c = true) as Ha by (unfold isAlnum; by rewrite Hc).
  destruct (alnum_runes c Ha) as (_ & _ & _ & Hletter). by destruct (Hletter Hc) as (_ & _ & ? & _).
Qed.

Lemma alnum_identPart s : allRunes isAlnum s = true → allRunes isIdentPart s = true.
Proof. apply allRunes_impl. intros c Hc. by destruct (alnum_runes c Hc) as (_ & _ & ? & _). Qed.

Lemma letter_lower c : Go.IsLetter c = true → Go.IsLetter (Go.lower_rune c) = true.
Proof. destruct c as [[] [] [] [] [] [] [] []]; vm_compute; congruence. Qed.

Lemma letter_upper c : Go.IsLetter c = true → Go.IsLetter (Go.upper_rune c) = true.
Proof. destruct c as [[] [] [] [] [] [] [] []]; vm_compute; congruence. Qed.

Lemma identPart_lower c : isIdentPart c = true → isIdentPart (Go.lower_rune c) = true.
Proof. destruct c as [[] [] [] [] [] [] [] []]; vm_compute; congruence. Qed.

Lemma identPart_upper c : isIdentPart c = true → isIdentPart (Go.upper_rune c) = true.
Proof. destruct c as [[] [] [] [] [] [] [] []]; vm_compute; congruence. Qed.

Lemma map_runes_identPart f s :
  (∀ c, isIdentPart c = true → isIdentPart (f c) = true) →
  allRunes isIdentPart s = true → allRunes isIdentPart (Go.map_runes f s) = true.
Proof.
  intros Hf. induction s as [|c s IH]; simpl; [done|].
  intros [Hc Hs]%andb_true_iff. by rewrite (Hf _ Hc), IH.
Qed.

(** The base [buildName] joins from its parts: it begins with a letter
    and holds identifier bytes and blanks only. *)
Lemma buildName_base prefix mid mid2 suffix :
  Forall (fun p => p = "" ∨ isValidGoIdentifier p = true) [prefix; mid; mid2; suffix] →
  beginsWithLetter (prefix ++ mid ++ mid2 ++ suffix) = true →
  let base := Go.Join (nonEmpty prefix ++ nonEmpty mid ++ nonEmpty mid2 ++ nonEmpty suffix) " " in
  beginsWithLetter base = true ∧
  allRunes (fun c => isSeparator c || isAlnum c) base = true.
Proof.
  intros Hparts Hletter base.
  assert (∀ p, p = "" ∨ isValidGoIdentifier p = true →
               allRunes (fun c => isSeparator c || isAlnum c) p = true) as Hpart.
  { intros p [->|Hp]; [done|]. destruct p as [|c p]; [done|].
    simpl in Hp. apply andb_true_iff in Hp as [Hc Hp]. simpl.
    rewrite (allRunes_impl isIdentPart _ p); [|intros x Hx; apply identPart_runes; by left|done].
    rewrite andb_true_r. apply identPart_runes. left. revert Hc.
    destruct c as [[] [] [] [] [] [] [] []]; vm_compute; congruence. }
  split.
  - subst base. revert Hletter. unfold nonEmpty.
    destruct (decide (prefix = "")) as [->|]; [|destruct prefix; [done|]; intros; by apply Join_begins].
    destruct (decide (mid = "")) as [->|]; [|destruct mid; [done|]; intros; by apply Join_begins].
    destruct (decide (mid2 = "")) as [->|]; [|destruct mid2; [done|]; intros; by apply Join_begins].
    destruct (decide (suffix = "")) as [->|]; [done|destruct suffix; [done|]; intros; by apply Join_begins].
  - apply Join_runes; [done|].
    apply Forall_cons in Hparts as [H1 Hparts]. apply Forall_cons in Hparts as [H2 Hparts].
    apply Forall_cons in Hparts as [H3 Hparts]. apply Forall_cons in Hparts as [H4 _].
    repeat apply Forall_app_2; unfold nonEmpty; case_decide; repeat constructor; by apply Hpart.
Qed.

(** X13: Built from parts that are empty or valid Go identifiers, the first one
    that is not empty beginning with a letter, a name is a valid Go
    identifier in every format. *)
Theorem buildName_is_an_identifier prefix mid mid2 suffix fmtType :
  Forall (fun p => p = "" ∨ isValidGoIdentifier p = true) [prefix; mid; mid2; suffix] →
  beginsWithLetter (prefix ++ mid ++ mid2 ++ suffix) = true →
  isValidGoIdentifier (buildName prefix mid mid2 suffix fmtType) = true.
Proof.
  intros Hparts Hletter.
  destruct (buildName_base prefix mid mid2 suffix Hparts Hletter) as [Hb Hr].
  unfold buildName.
  set (base := Go.Join _ " ") in *.
  destruct base as [|c rest] eqn:Hbase; [done|]. simpl in Hb.
  assert (isAlnum c = true) as Ha by (unfold isAlnum; by rewrite Hb).
  destruct (alnum_runes c Ha) as (_ & _ & _ & Hl). destruct (Hl Hb) as (_ & _ & _ & Hsep).
  destruct (splitIntoWords_begins c rest Hsep) as (t & more & Hwords).
  pose proof (splitLoop_words_of isAlnum (String c rest) None [] "" Hr) as Hall.
  fold (splitIntoWords (String c rest)) in Hall. rewrite Hwords in Hall.
  specialize (Hall (Forall_nil_2 _) eq_refl).
  assert (isValidGoIdentifier (toPascalCase (String c rest)) = true) as Hpascal.
  { unfold toPascalCase. destruct (decide _); [done|]. rewrite Hwords.
    apply identifier_intro.
    - cbn [arrayToPascalCase]. destruct (decide (String c t = "")); [done|].
      pose proof (titleWord_begins c t Hb) as Ht.
      by destruct (titleWord (String c t)).
    - by apply alnum_identPart, arrayToPascalCase_alnum. }
  assert (Forall (fun w => allRunes isIdentPart w = true) (String c t :: more)) as Hid.
  { eapply Forall_impl; [exact Hall|]. intros w [_ Hw]. by apply alnum_identPart. }
  destruct fmtType; try exact Hpascal.
  - (* camel *)
    unfold toCamelCase. destruct (decide _); [done|]. rewrite Hwords.
    apply Forall_cons in Hall as [[_ Hw] Hmore].
    apply identifier_intro.
    + simpl. by apply letter_lower.
    + unfold arrayToCamelCase. rewrite allRunes_app.
      rewrite (alnum_identPart _ (arrayToPascalCase_alnum _ Hmore)), andb_true_r.
      apply alnum_identPart, map_runes_alnum; [|done].
      intros x Hx. by destruct (alnum_runes x Hx).
  - (* snake *)
    rewrite Hwords. apply identifier_intro.
    + apply beginsWithLetter_map; [apply letter_lower|]. by apply Join_begins.
    + apply map_runes_identPart; [apply identPart_lower|]. by apply Join_runes.
  - (* snakeUpper *)
    rewrite Hwords. apply identifier_intro.
    + apply beginsWithLetter_map; [apply letter_upper|]. by apply Join_begins.
    + apply map_runes_identPart; [apply identPart_upper|]. by apply Join_runes.
Qed.

Lemma buildName_is_an_identifier_witness :
  isValidGoIdentifier (buildName "json" "user_account" "HTTPServer2" "" ConstantFormatSnakeUpper)
  = true.
Proof.
  apply (buildName_is_an_identifier "json" "user_account" "HTTPServer2" ""
           ConstantFormatSnakeUpper).
  - repeat constructor; (by left) || (by right).
  - reflexivity.
Defined.
(** ** Import paths *)

Lemma Split_nonempty s c : GoLib.Split s c ≠ [].
Proof. destruct s as [|x r]; simpl; [done|]. destruct (decide _); [done|]. by destruct (GoLib.Split r c). Qed.

Lemma Split_without s c : without c s = true → GoLib.Split s c = [s].
Proof.
  induction s as [|x r IH]; simpl; [done|].
  intros [Hx Hr]%andb_true_iff. apply negb_true_iff, bool_decide_eq_false in Hx.
  destruct (decide _); [done|]. by rewrite IH.
Qed.

Lemma Split_append s t c :
  without c s = true → GoLib.Split (s ++ String c t) c = s :: GoLib.Split t c.
Proof.
  induction s as [|x r IH]; intros Hs.
  - change (GoLib.Split (String c t) c = "" :: GoLib.Split t c). simpl.
    by destruct (decide _).
  - simpl in Hs. apply andb_true_iff in Hs as [Hx Hr].
    apply negb_true_iff, bool_decide_eq_false in Hx.
    change (GoLib.Split (String x (r ++ String c t)) c = String x r :: GoLib.Split t c).
    simpl. destruct (decide _); [done|]. by rewrite IH.
Qed.

Lemma Split_Join segs c :
  segs ≠ [] → Forall (fun seg => without c seg = true) segs →
  GoLib.Split (Go.Join segs (String c "")) c = segs.
Proof.
  intros Hne Hall. induction Hall as [|seg segs Hseg Hall IH]; [done|].
  destruct segs as [|seg' segs].
  - by apply Split_without.
  - apply Forall_cons in Hall as [Hseg' Hall'].
    change (Go.Join (seg :: seg' :: segs) (String c ""))
      with (seg ++ String c (Go.Join (seg' :: segs) (String c ""))).
    rewrite (Split_append seg _ c Hseg). f_equal. by apply IH.
Qed.

Lemma Join_Split s c : Go.Join (GoLib.Split s c) (String c "") = s.
Proof.
  induction s as [|x r IH]; simpl; [done|].
  destruct (decide (x = c)) as [->|Hne].
  - pose proof (Split_nonempty r c) as Hr. simpl.
    destruct (GoLib.Split r c) as [|w ws]; [done|]. by rewrite IH.
  - pose proof (Split_nonempty r c) as Hr.
    destruct (GoLib.Split r c) as [|w ws]; [done|].
    destruct ws as [|w' ws]; simpl in *; by rewrite <- IH.
Qed.

(** X14: [importPathHasSegment] finds whole path elements only: in a path made
    of elements joined by slashes, it holds of a segment exactly when the
    segment is not empty and is one of the elements. *)
Theorem importPathHasSegment_finds_whole_elements segs seg :
  segs ≠ [] → Forall (fun s => without "/" s = true) segs →
  importPathHasSegment (Go.Join segs "/") seg = bool_decide (seg ≠ "" ∧ seg ∈ segs).
Proof.
  intros Hne Hall. unfold importPathHasSegment. rewrite Split_Join by done.
  destruct (decide (seg = "")) as [->|Hseg].
  - symmetry. apply bool_decide_eq_false. tauto.
  - destruct (existsb _ segs) eqn:Hex.
    + symmetry. apply bool_decide_eq_true. split; [done|].
      apply existsb_exists in Hex as (p & Hin & Hp). apply bool_decide_eq_true in Hp as ->.
      by apply list_elem_of_In.
    + symmetry. apply bool_decide_eq_false. intros [_ Hin].
      assert (existsb (fun p => bool_decide (p = seg)) segs = true); [|congruence].
      apply existsb_exists. exists seg. split; [by apply list_elem_of_In|].
      by apply bool_decide_eq_true.
Qed.

Lemma importPathHasSegment_finds_whole_elements_witness :
  importPathHasSegment "gopkg.in/yaml.v3" "yaml" = false ∧
  importPathHasSegment "github.com/gofrs/uuid/v5" "uuid" = true.
Proof.
  split.
  - apply (importPathHasSegment_finds_whole_elements ["gopkg.in"; "yaml.v3"] "yaml");
      [done|by repeat constructor].
  - apply (importPathHasSegment_finds_whole_elements ["github.com"; "gofrs"; "uuid"; "v5"]
             "uuid"); [done|by repeat constructor].
Defined.

(** ** Configuration defaults *)

Lemma orFalse_orFalse p : orFalse (orFalse p) = orFalse p.
Proof. by destruct p. Qed.

Lemma blank_default (s d : string) :
  isStringBlank d = false →
  (if isStringBlank (if isStringBlank s then d else s) then d
   else if isStringBlank s then d else s)
  = if isStringBlank s then d else s.
Proof. intros Hd. destruct (isStringBlank s) eqn:Hs; by rewrite ?Hd, ?Hs. Qed.

Lemma elementDefaults_twice element :
  elementDefaults (elementDefaults element) = elementDefaults element.
Proof.
  destruct element as [name [mode prio] [omode [holder str prefix suffix] [tv vc vs]]].
  unfold elementDefaults. cbn [el_Name el_Input el_Output in_Mode TagPriority out_Mode Format
    Transform Holder fmt_Struct fmt_Prefix fmt_Suffix TagValues ValueCase ValueSeparator].
  rewrite orFalse_orFalse. f_equal; [f_equal|f_equal; [|f_equal|f_equal]].
  - destruct (decide (inputModeText mode = "")) as [H|H]; [done|]. by destruct (decide _).
  - destruct (decide (List.length prio = 0%nat)) as [H|H]; [done|]. by destruct (decide _).
  - destruct (decide (outputModeText omode = "")) as [H|H]; [done|]. by destruct (decide _).
  - destruct (decide (formatText holder = "")) as [H|H]; [done|]. by destruct (decide _).
  - destruct (decide (formatText str = "")) as [H|H]; [done|]. by destruct (decide _).
  - destruct (isStringBlank prefix) eqn:Hp; [|by rewrite Hp]. by destruct (isStringBlank name).
  - destruct (isStringBlank suffix) eqn:Hp; [done|by rewrite Hp].
  - destruct (decide (caseText vc = "")) as [H|H]; [done|]. by destruct (decide _).
  - destruct (decide (vs = "")) as [H|H]; [done|]. by destruct (decide _).
Qed.

Lemma getterDefaults_twice getter :
  getterDefaults (getterDefaults getter) = getterDefaults getter.
Proof.
  destruct getter as [name returns [prefix suffix format]].
  unfold getterDefaults. cbn [g_Name Returns g_Output g_Prefix g_Suffix g_Format].
  f_equal. f_equal.
  - destruct (isStringBlank prefix) eqn:Hp; [|by rewrite Hp]. by destruct (isStringBlank name).
  - destruct (isStringBlank (formatText format)) eqn:Hp; [done|by rewrite Hp].
Qed.

(** X15: [setDefaults] applied to its own result changes nothing: whatever
    the configuration, what it returns has every default in place. *)
Theorem setDefaults_is_idempotent config :
  setDefaults (setDefaults config) = setDefaults config.
Proof.
  destruct config as [[[inc exc dir [se su] [fe fu]] els gs] [file]].
  unfold setDefaults. cbn [cf_Scan cf_Output Input Include Exclude Dir InStruct InField
    cis_Explicit cis_IncludeUnexported cif_Explicit cif_IncludeUnexported Elements Getters
    FileName].
  rewrite !orFalse_orFalse. f_equal; [f_equal; [f_equal|..]|f_equal].
  - destruct (decide (List.length inc = 0%nat)) as [H|H]; [done|]. by destruct (decide _).
  - destruct (decide (List.length exc = 0%nat)) as [H|H]; [done|]. by destruct (decide _).
  - by apply blank_default.
  - rewrite <- list_fmap_compose. apply list_fmap_ext. intros i el _. apply elementDefaults_twice.
  - rewrite <- list_fmap_compose. apply list_fmap_ext. intros i g _. apply getterDefaults_twice.
  - by apply blank_default.
Qed.

(** ** Import resolution *)

Lemma Expr_induction (P : Resolver.Expr → Prop) :
  (∀ name, P (Resolver.Ident name)) →
  (∀ x sel, P x → P (Resolver.SelectorExpr x sel)) →
  (∀ len elt, P elt → P (Resolver.ArrayType len elt)) →
  (∀ key value, P key → P value → P (Resolver.MapType key value)) →
  (∀ x, P x → P (Resolver.StarExpr x)) →
  (∀ dir value, P value → P (Resolver.ChanType dir value)) →
  P Resolver.FuncType → P Resolver.InterfaceType → P Resolver.StructTypeExpr →
  (∀ x index, P x → P index → P (Resolver.IndexExpr x index)) →
  (∀ x indices, P x → Forall P indices → P (Resolver.IndexListExpr x indices)) →
  P Resolver.OtherExpr →
  ∀ e, P e.
Proof.
  intros Hid Hsel Harr Hmap Hstar Hchan Hfunc Hint Hstr Hidx Hlist Hoth.
  fix IH 1. intros e. destruct e as [name|x sel|len elt|key value|x|dir value| | | |x index|x indices|].
  - apply Hid.
  - apply Hsel, IH.
  - apply Harr, IH.
  - apply Hmap; apply IH.
  - apply Hstar, IH.
  - apply Hchan, IH.
  - apply Hfunc.
  - apply Hint.
  - apply Hstr.
  - apply Hidx; apply IH.
  - apply Hlist; [apply IH|].
    induction indices as [|i rest IHrest]; constructor; [apply IH|apply IHrest].
  - apply Hoth.
Qed.

Lemma bind_Ok {A B} (x : A) (f : A → result B) : Ok x ≫= f = f x.
Proof. reflexivity. Qed.

Lemma sameHeap_refl st : sameHeap st st.
Proof. by split. Qed.

Lemma sameHeap_trans st1 st2 st3 : sameHeap st1 st2 → sameHeap st2 st3 → sameHeap st1 st3.
Proof. intros [? ?] [? ?]. split; congruence. Qed.

Section ResolverFacts.

Variable W : World.
Variable E : Resolver.Env.
Variable R : RangeOrder.

Lemma rangeOver_entries {A} (m : gmap string A) st k x :
  (k, x) ∈ (Resolver.rangeOver R m st).1 ↔ m !! k = Some x.
Proof.
  unfold Resolver.rangeOver. simpl. rewrite (order_perm R). apply elem_of_map_to_list.
Qed.

Lemma rangeOver_heap {A} (m : gmap string A) st : sameHeap st (Resolver.rangeOver R m st).2.
Proof. by split. Qed.

Lemma firstImport_Some test entries k imp :
  Resolver.firstImport test entries = Some (k, imp) →
  (k, Some imp) ∈ entries ∧ test k imp = true.
Proof.
  induction entries as [|[k' [imp'|]] rest IH]; simpl; [done| |].
  - destruct (test k' imp') eqn:Ht.
    + intros [= <- <-]. split; [by left|done].
    + intros [? ?]%IH. split; [by right|done].
  - intros [? ?]%IH. split; [by right|done].
Qed.

Lemma bestMatchLoop_Some name entries : ∀ best b,
  Resolver.bestMatchLoop name entries best = Some b →
  best = Some b ∨ ∃ k, (k, Some b) ∈ entries ∧ tp_Name b = name.
Proof.
  induction entries as [|[k [imp|]] rest IH]; intros best b; simpl; [by left| |].
  - destruct (decide (tp_Name imp = name)) as [Hn|Hn].
    + destruct (decide (tp_Path imp = "")).
      * intros [Hb|(k' & Hin & Hk)]%IH.
        -- destruct best as [b0|]; [by left|]. injection Hb as <-. right. exists k.
           split; [by left|done].
        -- right. exists k'. split; [by right|done].
      * intros [= <-]. right. exists k. split; [by left|done].
    + intros [Hb|(k' & Hin & Hk)]%IH; [by left|]. right. exists k'. split; [by right|done].
  - intros [Hb|(k' & Hin & Hk)]%IH; [by left|]. right. exists k'. split; [by right|done].
Qed.

Lemma fromIndex_entry idx k imp :
  idx !! k = Some (Some imp) →
  fromIndex idx (Resolver.newPackage (tp_Path imp) (tp_Name imp)).
Proof. intros Hk. split; [done|]. right. by exists k, imp. Qed.

Lemma selectorOf_fromIndex idx ident sel k imp :
  idx !! k = Some (Some imp) →
  ∃ t, (Resolver.selectorOf ident sel imp).2 = Some t ∧ fromIndex idx t.
Proof.
  intros Hk. unfold Resolver.selectorOf.
  destruct (decide _); eexists; (split; [reflexivity|by eapply fromIndex_entry]).
Qed.

Lemma extractSelector_total ident sel idx st :
  noNil idx →
  ∃ typeName t st',
    Resolver.extractSelector R ident sel idx st = Ok (typeName, Some t, st') ∧
    sameHeap st st' ∧ fromIndex idx t.
Proof.
  intros Hnil. unfold Resolver.extractSelector.
  destruct (idx !! ident) as [[imp|]|] eqn:Hk.
  - destruct (selectorOf_fromIndex idx ident sel _ _ Hk) as (t & Ht & Hfrom).
    destruct (Resolver.selectorOf ident sel imp) as [typeName p]. simpl in Ht. subst p.
    exists typeName, t, st. split; [done|]. split; [apply sameHeap_refl|done].
  - by destruct (Hnil _ _ Hk).
  - pose proof (rangeOver_heap idx st) as Hh1.
    pose proof (fun k x => rangeOver_entries idx st k x) as He1.
    destruct (Resolver.rangeOver R idx st) as [entries st1]. simpl in Hh1, He1.
    destruct (Resolver.bestMatchLoop ident entries None) as [b|] eqn:Hb.
    + apply bestMatchLoop_Some in Hb as [?|(k & Hin & _)]; [done|].
      apply He1 in Hin.
      destruct (selectorOf_fromIndex idx ident sel _ _ Hin) as (t & Ht & Hfrom).
      destruct (Resolver.selectorOf ident sel b) as [typeName p]. simpl in Ht. subst p.
      by exists typeName, t, st1.
    + pose proof (rangeOver_heap idx st1) as Hh2.
      pose proof (fun k x => rangeOver_entries idx st1 k x) as He2.
      destruct (Resolver.rangeOver R idx st1) as [entries2 st2]. simpl in Hh2, He2.
      destruct (Resolver.firstImport _ entries2) as [[k imp]|] eqn:Hf.
      * apply firstImport_Some in Hf as [Hin _]. apply He2 in Hin.
        eexists _, _, st2. split; [reflexivity|]. split; [by eapply sameHeap_trans|].
        by eapply fromIndex_entry.
      * eexists _, _, st2. split; [reflexivity|]. split; [by eapply sameHeap_trans|].
        split; [done|by left].
Qed.

Lemma extractTypeInfo_total idx modulePath :
  noNil idx →
  ∀ expr st, ∃ typeName pkg st',
    Resolver.extractTypeInfo R expr idx modulePath st = Ok (typeName, pkg, st') ∧
    sameHeap st st' ∧ from_option (fromIndex idx) True pkg.
Proof.
  intros Hnil expr.
  induction expr as [name|x sel IHx|len elt IH|key value IHk IHv|x IH|dir value IH| | |
                     |x index IHx IHi|x indices IHx IHall|] using Expr_induction;
    intros st.
  - by exists name, None, st.
  - destruct x; try (by exists "", None, st).
    destruct (extractSelector_total Name sel idx st Hnil) as (t & p & st' & Hrun & Hh & Hf).
    by exists t, (Some p), st'.
  - destruct (IH st) as (t & p & st' & Hrun & Hh & Hf). simpl. rewrite Hrun. simpl.
    by eexists _, _, _.
  - destruct (IHk st) as (t1 & p1 & st1 & Hrun1 & Hh1 & Hf1).
    destruct (IHv st1) as (t2 & p2 & st2 & Hrun2 & Hh2 & Hf2).
    simpl. rewrite Hrun1. simpl. rewrite Hrun2. simpl.
    eexists _, _, _. split; [reflexivity|]. split; [by eapply sameHeap_trans|done].
  - destruct (IH st) as (t & p & st' & Hrun & Hh & Hf). simpl. rewrite Hrun. simpl.
    by eexists _, _, _.
  - destruct (IH st) as (t & p & st' & Hrun & Hh & Hf). simpl. rewrite Hrun. simpl.
    by eexists _, _, _.
  - by eexists _, _, _.
  - by eexists _, _, _.
  - by eexists _, _, _.
  - destruct (IHx st) as (t1 & p1 & st1 & Hrun1 & Hh1 & Hf1).
    destruct (IHi st1) as (t2 & p2 & st2 & Hrun2 & Hh2 & Hf2).
    simpl. rewrite Hrun1. simpl. rewrite Hrun2. simpl.
    eexists _, _, _. split; [reflexivity|]. split; [by eapply sameHeap_trans|done].
  - destruct (IHx st) as (t1 & p1 & st1 & Hrun1 & Hh1 & Hf1).
    assert (∀ s, ∃ ts s',
              Resolver.extractEach
                (fun index st => Resolver.extractTypeInfo R index idx modulePath st)
                indices s = Ok (ts, s') ∧ sameHeap s s') as Heach.
    { induction IHall as [|i rest Hi _ IHrest]; intros s; simpl.
      - by exists [], s.
      - destruct (Hi s) as (t & p & s1 & Hrun & Hh & _). rewrite Hrun. simpl.
        destruct (IHrest s1) as (ts & s2 & Hrest & Hh2). rewrite Hrest. simpl.
        eexists _, _. split; [reflexivity|]. by eapply sameHeap_trans. }
    destruct (Heach st1) as (ts & st2 & Hrun2 & Hh2).
    simpl. rewrite Hrun1. simpl. rewrite Hrun2. simpl.
    eexists _, _, _. split; [reflexivity|]. split; [by eapply sameHeap_trans|done].
  - by exists "", None, st.
Qed.

(** X16: On an index without nil entries [createValueOutput] ends normally.
    It returns nil and leaves the store alone, or it returns a value whose
    package object is the one new object of the store; that object has no
    alias, and its path is empty or the path of an entry of the index.
    The model is never touched. *)
Theorem createValueOutput_adds_one_package_of_the_index
    fieldType fieldName packageName idx modulePath moduleDir st :
  noNil idx →
  ∃ r st',
    Resolver.createValueOutput E R fieldType fieldName packageName idx modulePath moduleDir st
      = Ok (r, st') ∧
    model st' = model st ∧
    match r with
    | None => store st' = store st
    | Some v =>
        FieldName v = fieldName ∧ TypeName v ≠ "" ∧
        TypePackage v = List.length (store st) ∧
        ∃ t, store st' = (store st ++ [t])%list ∧ fromIndex idx t
    end.
Proof.
  intros Hnil. unfold Resolver.createValueOutput.
  destruct fieldType as [expr|]; [|by exists None, st].
  destruct (extractTypeInfo_total idx modulePath Hnil expr st)
    as (typeName & pkg & st1 & Hrun & Hh1 & Hf1).
  rewrite Hrun, bind_Ok. cbv beta iota.
  destruct (decide (typeName = "")) as [|Hname].
  { exists None, st1. destruct Hh1. by repeat split. }
  (* the first rescue *)
  set (first := match pkg with Some p => _ | None => _ end).
  assert (sameHeap st first.2 ∧ from_option (fromIndex idx) True first.1) as [Hh2 Hf2].
  { subst first. destruct pkg as [p|]; [|done].
    destruct (_ && _); [|done].
    pose proof (rangeOver_heap idx st1) as Hh.
    pose proof (fun k x => rangeOver_entries idx st1 k x) as He.
    destruct (Resolver.rangeOver R idx st1) as [entries s]. simpl in Hh, He.
    destruct (Resolver.firstImport _ entries) as [[k imp]|] eqn:Hfi; simpl.
    - apply firstImport_Some in Hfi as [Hin _]. apply He in Hin.
      split; [by eapply sameHeap_trans|by eapply fromIndex_entry].
    - split; [by eapply sameHeap_trans|done]. }
  destruct first as [pkg2 st2]. simpl in Hh2, Hf2.
  (* the second rescue *)
  set (second := if _ && Go.Contains typeName "." then _ else _).
  assert (sameHeap st second.2 ∧ from_option (fromIndex idx) True second.1) as [Hh3 Hf3].
  { subst second. destruct (_ && Go.Contains typeName "."); [|done].
    unfold Resolver.rescueByTypeName.
    pose proof (rangeOver_heap idx st2) as Hh.
    pose proof (fun k x => rangeOver_entries idx st2 k x) as He.
    destruct (Resolver.rangeOver R idx st2) as [entries s]. simpl in Hh, He.
    set (pkg3 := match Resolver.firstImport _ entries with Some _ => _ | None => _ end).
    assert (from_option (fromIndex idx) True pkg3) as Hf.
    { subst pkg3. destruct (Resolver.firstImport _ entries) as [[k imp]|] eqn:Hfi; [|done].
      apply firstImport_Some in Hfi as [Hin _]. apply He in Hin. by eapply fromIndex_entry. }
    clearbody pkg3.
    destruct (_ || _); [|split; [by eapply sameHeap_trans|done]].
    pose proof (rangeOver_heap idx s) as Hh'.
    pose proof (fun k x => rangeOver_entries idx s k x) as He'.
    destruct (Resolver.rangeOver R idx s) as [entries' s']. simpl in Hh', He'.
    assert (sameHeap st s') as Hs' by (eapply sameHeap_trans; [|exact Hh']; by eapply sameHeap_trans).
    destruct (Resolver.firstImport _ entries') as [[k imp]|] eqn:Hfi; simpl; [|done].
    split; [done|]. apply firstImport_Some in Hfi as [Hin Htest]. apply He' in Hin.
    split; [done|]. right. by exists k, imp. }
  destruct second as [pkg3 st3]. simpl in Hh3, Hf3. destruct Hh3 as [Hm Hs].
  eexists _, _. split; [reflexivity|]. simpl. split; [done|].
  split; [done|]. split; [done|]. split; [by rewrite Hs|].
  eexists. split; [by rewrite Hs|].
  destruct pkg3 as [t|]; simpl; [done|]. split; [done|by left].
Qed.

End ResolverFacts.
Lemma forEach_app {A S} (xs ys : list A) (body : A → S → result S) s :
  forEach (xs ++ ys) body s = forEach xs body s ≫= forEach ys body.
Proof.
  revert s. induction xs as [|x xs IH]; intros s; simpl; [done|].
  destruct (body x s) as [s1| |]; simpl; [apply IH|done|done].
Qed.

Section IndexFacts.

Variable W : World.
Variable E : Resolver.Env.
Variable moduleDir modulePath : string.

Lemma indexOk_noNil imports idx :
  indexOk W E moduleDir modulePath imports idx → noNil idx.
Proof. intros Hok k v Hk. destruct (Hok k v Hk) as (t & imp & -> & _). by eexists. Qed.

(** What one import does to the index. *)
Lemma indexImport_step imports imp idx :
  imp ∈ imports →
  indexOk W E moduleDir modulePath imports idx →
  ∃ idx',
    Resolver.indexImport W E moduleDir modulePath imp idx = Ok idx' ∧
    indexOk W E moduleDir modulePath imports idx' ∧
    (∀ k, k ≠ Resolver.importIdent imp →
          k ≠ Resolver.importRealName W E moduleDir modulePath imp →
          idx' !! k = idx !! k) ∧
    (Resolver.importIdent imp ≠ "_" → Resolver.importIdent imp ≠ "." →
     idx' !! Resolver.importIdent imp
     = Some (Some (Resolver.newPackage (GoText.Trim (Resolver.imp_Path imp) dquote)
                     (Resolver.importRealName W E moduleDir modulePath imp)))) ∧
    (∀ k t, idx !! k = Some (Some t) → tp_Path t ≠ "" →
            k ≠ Resolver.importIdent imp → idx' !! k = Some (Some t)).
Proof.
  intros Hin Hok. unfold Resolver.indexImport.
  set (ident := Resolver.importIdent imp).
  set (realName := Resolver.importRealName W E moduleDir modulePath imp).
  set (t0 := Resolver.newPackage (GoText.Trim (Resolver.imp_Path imp) dquote) realName).
  destruct (bool_decide (ident = "_") || bool_decide (ident = ".")) eqn:Hblank.
  { exists idx. split; [done|]. split; [done|]. split; [done|]. split; [|done].
    intros H1 H2. apply orb_true_iff in Hblank as [H|H]; by apply bool_decide_eq_true in H. }
  apply orb_false_iff in Hblank as [Hb1 Hb2].
  apply bool_decide_eq_false in Hb1, Hb2.
  (* the entry under the identifier *)
  assert (∀ idx1 : Resolver.ImportIndex,
            (∀ k, k ≠ ident → k ≠ realName → idx1 !! k = idx !! k) →
            (idx1 !! ident = Some (Some t0)) →
            (idx1 !! realName = Some (Some t0) ∨
             (realName ≠ ident ∧ idx1 !! realName = idx !! realName ∧
              is_Some (idx !! realName))) →
            indexOk W E moduleDir modulePath imports idx1) as Hbuild.
  { intros idx1 Hother Hident Hreal k v Hk.
    assert (is_Some (idx1 !! realName)) as HrealSome.
    { destruct Hreal as [->|(_ & -> & ?)]; [by eexists|done]. }
    assert (∀ name, is_Some (idx !! name) → is_Some (idx1 !! name)) as Hkeep.
    { intros name Hname. destruct (decide (name = ident)) as [->|]; [by rewrite Hident|].
      destruct (decide (name = realName)) as [->|]; [done|]. by rewrite Hother. }
    destruct (decide (k = ident)) as [->|Hki].
    - rewrite Hident in Hk. injection Hk as <-.
      exists t0, imp. repeat split; try done. by left.
    - destruct (decide (k = realName)) as [->|Hkr].
      + destruct Hreal as [Hr|(_ & Hr & _)].
        * rewrite Hr in Hk. injection Hk as <-.
          exists t0, imp. repeat split; try done. by right.
        * rewrite Hr in Hk. destruct (Hok _ _ Hk) as (t & imp' & -> & ? & ? & ? & ? & ? & ? & ? & ?).
          exists t, imp'. repeat split; try done. by apply Hkeep.
      + rewrite Hother in Hk by done.
        destruct (Hok _ _ Hk) as (t & imp' & -> & ? & ? & ? & ? & ? & ? & ? & ?).
        exists t, imp'. repeat split; try done. by apply Hkeep. }
  assert (∀ idx1 : Resolver.ImportIndex,
            (∀ k, k ≠ ident → k ≠ realName → idx1 !! k = idx !! k) →
            (idx1 !! ident = Some (Some t0)) →
            ((idx1 !! realName = Some (Some t0) ∧
              (realName = ident ∨ idx !! realName = None ∨
               ∃ existing, idx !! realName = Some (Some existing) ∧ tp_Path existing = "")) ∨
             (realName ≠ ident ∧ idx1 !! realName = idx !! realName ∧
              ∃ existing, idx !! realName = Some (Some existing) ∧ tp_Path existing ≠ "")) →
            ∃ idx', Ok idx1 = Ok idx' ∧
              indexOk W E moduleDir modulePath imports idx' ∧
              (∀ k, k ≠ ident → k ≠ realName → idx' !! k = idx !! k) ∧
              (ident ≠ "_" → ident ≠ "." → idx' !! ident = Some (Some t0)) ∧
              (∀ k t, idx !! k = Some (Some t) → tp_Path t ≠ "" → k ≠ ident →
                      idx' !! k = Some (Some t))) as Hdone.
  { intros idx1 Hother Hident Hreal. exists idx1. split; [done|]. split.
    { apply Hbuild; [done|done|]. destruct Hreal as [[? _]|(? & ? & e & He & _)]; [by left|].
      right. split; [done|]. split; [done|]. rewrite He. by eexists. }
    split; [done|]. split; [done|].
    intros k t Hk Hp Hki. destruct (decide (k = realName)) as [->|Hkr].
    - destruct Hreal as [[_ [Hr|[Hr|(e & Hr & He)]]]|(_ & Hr & _)].
      + by destruct Hki.
      + by rewrite Hr in Hk.
      + rewrite Hr in Hk. injection Hk as ->. by destruct Hp.
      + by rewrite Hr.
    - by rewrite Hother. }
  destruct (decide (ident = realName)) as [Heq|Hne].
  - apply Hdone.
    + intros k Hk _. by rewrite lookup_insert_ne.
    + by rewrite lookup_insert_eq.
    + left. split; [|by left]. rewrite <- Heq. by rewrite lookup_insert_eq.
  - rewrite lookup_insert_ne by done.
    destruct (idx !! realName) as [[existing|]|] eqn:Hr.
    + destruct (decide (tp_Path existing = "")) as [Hp|Hp].
      * apply Hdone.
        -- intros k Hk1 Hk2. by rewrite !lookup_insert_ne.
        -- by rewrite lookup_insert_ne, lookup_insert_eq.
        -- left. split; [by rewrite lookup_insert_eq|]. right. right. by exists existing.
      * apply Hdone.
        -- intros k Hk1 Hk2. by rewrite !lookup_insert_ne.
        -- by rewrite lookup_insert_eq.
        -- right. split; [done|]. split; [by rewrite lookup_insert_ne|]. by exists existing.
    + by destruct (indexOk_noNil _ _ Hok _ _ Hr).
    + apply Hdone.
      * intros k Hk1 Hk2. by rewrite !lookup_insert_ne.
      * by rewrite lookup_insert_ne, lookup_insert_eq.
      * left. split; [by rewrite lookup_insert_eq|]. right. by left.
Qed.

End IndexFacts.
Section IndexTheorems.

Variable W : World.
Variable E : Resolver.Env.

Lemma indexImports_run moduleDir modulePath imports : ∀ done idx,
  (∀ imp, imp ∈ imports → imp ∈ done) →
  indexOk W E moduleDir modulePath done idx →
  ∃ idx', forEach imports (Resolver.indexImport W E moduleDir modulePath) idx = Ok idx' ∧
          indexOk W E moduleDir modulePath done idx' ∧
          ∀ k t, idx !! k = Some (Some t) → tp_Path t ≠ "" →
                 Forall (fun imp => Resolver.importIdent imp ≠ k) imports →
                 idx' !! k = Some (Some t).
Proof.
  induction imports as [|imp imports IH]; intros all idx Hsub Hok; simpl.
  - by exists idx.
  - destruct (indexImport_step W E moduleDir modulePath all imp idx) as
      (idx1 & Hrun & Hok1 & _ & _ & Hkeep); [apply Hsub; by left|done|].
    rewrite Hrun. simpl.
    destruct (IH all idx1) as (idx' & Hrest & Hok' & Hkeep'); [intros; apply Hsub; by right|done|].
    exists idx'. split; [done|]. split; [done|].
    intros k t Hk Hp Hall. apply Forall_cons in Hall as [Hi Hall].
    apply Hkeep'; [|done|done]. apply Hkeep; [done|done|congruence].
Qed.

(** X17: Once the module of the file is located, [buildImportIndex] ends
    normally, with an index in which no entry is nil; every entry carries
    the path of an import of the file that is neither blank nor a dot
    import, with the real name found for it, under the identifier of the
    import or under that name; and the name of every entry is a key of the
    index. *)
Theorem buildImportIndex_makes_a_closed_index fuel imports file moduleDir modulePath :
  Resolver.locateGoModule W E fuel file = Ok (moduleDir, modulePath) →
  ∃ idx,
    Resolver.buildImportIndex W E fuel imports file = Ok (idx, modulePath) ∧
    indexOk W E moduleDir modulePath imports idx.
Proof.
  intros Hloc. unfold Resolver.buildImportIndex. rewrite Hloc, bind_Ok. cbv beta iota.
  destruct (indexImports_run moduleDir modulePath imports imports ∅) as (idx & Hrun & Hok & _);
    [done| |].
  { intros k v Hk. by rewrite lookup_empty in Hk. }
  exists idx. by rewrite Hrun.
Qed.

(** X18: A type [ident.Sel], [ident] being the identifier under which the file
    imports a package with a path, no later import of the file going by the
    same identifier: [buildImportIndex] ends normally, and on its index
    [createValueOutput] returns, in whatever order the maps are walked and
    without walking any, the value with the type name [ident.Sel] and a
    new package object with the path of the import and the real name found
    for it. *)
Theorem qualified_type_resolves_through_its_import
    fuel before imp after file moduleDir modulePath :
  Resolver.locateGoModule W E fuel file = Ok (moduleDir, modulePath) →
  Resolver.importIdent imp ≠ "_" → Resolver.importIdent imp ≠ "." →
  GoText.Trim (Resolver.imp_Path imp) dquote ≠ "" →
  Forall (fun later => Resolver.importIdent later ≠ Resolver.importIdent imp) after →
  ∃ idx,
    Resolver.buildImportIndex W E fuel (before ++ imp :: after) file = Ok (idx, modulePath) ∧
    ∀ R sel fieldName packageName st,
      Resolver.createValueOutput E R
        (Some (Resolver.SelectorExpr (Resolver.Ident (Resolver.importIdent imp)) sel))
        fieldName packageName idx modulePath moduleDir st
      = Ok (Some {| FieldName := fieldName;
                    TypeName := Resolver.importIdent imp ++ "." ++ sel;
                    TypePackage := List.length (store st) |},
            setStore st
              (store st ++
               [Resolver.newPackage (GoText.Trim (Resolver.imp_Path imp) dquote)
                  (Resolver.importRealName W E moduleDir modulePath imp)])%list).
Proof.
  intros Hloc Hb1 Hb2 Hpath Hafter.
  unfold Resolver.buildImportIndex. rewrite Hloc, bind_Ok. cbv beta iota.
  rewrite forEach_app.
  pose (imports := (before ++ imp :: after)%list).
  destruct (indexImports_run moduleDir modulePath before imports ∅) as (idx0 & Hrun0 & Hok0 & _).
  { intros i Hi. apply elem_of_app. by left. }
  { intros k v Hk. by rewrite lookup_empty in Hk. }
  rewrite Hrun0, bind_Ok. simpl.
  destruct (indexImport_step W E moduleDir modulePath imports imp idx0)
    as (idx1 & Hrun1 & Hok1 & _ & Hident & _); [|done|].
  { apply elem_of_app. right. by left. }
  rewrite Hrun1. simpl.
  destruct (indexImports_run moduleDir modulePath after imports idx1) as (idx & Hrun & Hok & Hkeep);
    [|done|].
  { intros i Hi. apply elem_of_app. right. by right. }
  rewrite Hrun. simpl. exists idx. split; [done|].
  specialize (Hkeep _ _ (Hident Hb1 Hb2) Hpath Hafter).
  intros R sel fieldName packageName st.
  unfold Resolver.createValueOutput. cbn [Resolver.extractTypeInfo].
  unfold Resolver.extractSelector. rewrite Hkeep, bind_Ok.
  unfold Resolver.selectorOf. cbn [tp_Path tp_Name Resolver.newPackage].
  destruct (decide (GoText.Trim (Resolver.imp_Path imp) dquote = "")); [done|].
  cbv beta iota.
  destruct (decide (Resolver.importIdent imp ++ "." ++ sel = "")) as [Hempty|_].
  { destruct (Resolver.importIdent imp); discriminate. }
  cbn [tp_Path tp_Name Resolver.newPackage].
  rewrite (bool_decide_eq_false_2 (GoText.Trim (Resolver.imp_Path imp) dquote = "")) by done.
  simpl.
  rewrite (bool_decide_eq_false_2 (GoText.Trim (Resolver.imp_Path imp) dquote = "")) by done.
  reflexivity.
Qed.

End IndexTheorems.
(** ** Plain types, the module of a file, and the module cache *)

Lemma Contains_byte s c : Go.Contains s (String c "") = negb (without c s).
Proof.
  induction s as [|x s IH]; [reflexivity|].
  simpl. rewrite IH.
  change (without c (String x s)) with (negb (bool_decide (x = c)) && without c s).
  destruct (decide (c = x)) as [->|Hne].
  - rewrite bool_decide_eq_true_2 by done. by destruct s.
  - by rewrite bool_decide_eq_false_2 by congruence.
Qed.

Lemma without_app c s t : without c (s ++ t) = without c s && without c t.
Proof. apply allRunes_app. Qed.

Lemma append_nonempty s t : s ≠ "" → s ++ t ≠ "".
Proof. by destruct s. Qed.

Lemma plainType_spelling e :
  plainType e = true → spelling e ≠ "" ∧ without "." (spelling e) = true.
Proof.
  induction e as [name|x sel IHx|len elt IH|key value IHk IHv|x IH|dir value IH| | |
                  |x index IHx IHi|x indices IHx IHall|] using Expr_induction;
    simpl; try done.
  - intros [Hn Hw]%andb_true_iff. split; [|done].
    by apply negb_true_iff, bool_decide_eq_false in Hn.
  - intros [_ Hw]%IH. split; [done|]. by rewrite without_app, Hw.
  - intros [[_ Hk]%IHk [_ Hv]%IHv]%andb_true_iff. split; [done|].
    by rewrite !without_app, Hk, Hv.
  - intros [_ Hw]%IH. split; [done|]. by rewrite without_app, Hw.
  - intros [_ Hw]%IH. split; [by destruct dir|]. rewrite without_app, Hw. by destruct dir.
  - intros [[Hx1 Hx2]%IHx [_ Hi]%IHi]%andb_true_iff. split; [by apply append_nonempty|].
    by rewrite !without_app, Hx2, Hi.
  - intros [[Hx1 Hx2]%IHx Hall]%andb_true_iff. split; [by apply append_nonempty|].
    rewrite !without_app, Hx2. simpl. rewrite andb_true_r.
    apply Join_runes; [done|]. apply Forall_fmap.
    rewrite Forall_forall in IHall. apply Forall_forall. intros i Hi. simpl.
    apply IHall; [done|]. rewrite forallb_forall in Hall. apply Hall. by apply list_elem_of_In.
Qed.

Section PlainTypes.

Variable W : World.
Variable E : Resolver.Env.
Variable R : RangeOrder.

Lemma extractTypeInfo_plain idx modulePath e :
  plainType e = true →
  ∀ st, Resolver.extractTypeInfo R e idx modulePath st = Ok (spelling e, None, st).
Proof.
  induction e as [name|x sel IHx|len elt IH|key value IHk IHv|x IH|dir value IH| | |
                  |x index IHx IHi|x indices IHx IHall|] using Expr_induction;
    simpl; try done.
  - intros Hp st. by rewrite IH.
  - intros [Hk Hv]%andb_true_iff st. by rewrite IHk, bind_Ok, IHv.
  - intros Hp st. by rewrite IH.
  - intros Hp st. rewrite IH by done. by destruct dir.
  - intros [Hx Hi]%andb_true_iff st. by rewrite IHx, bind_Ok, IHi.
  - intros [Hx Hall]%andb_true_iff st. rewrite IHx, bind_Ok by done. cbv beta iota.
    assert (∀ s, Resolver.extractEach
                   (fun index st => Resolver.extractTypeInfo R index idx modulePath st)
                   indices s = Ok (spelling <$> indices, s)) as ->; [|done].
    induction IHall as [|i rest Hi _ IHrest]; intros s; simpl; [done|].
    simpl in Hall. apply andb_true_iff in Hall as [Hi' Hrest].
    rewrite Hi by done. rewrite bind_Ok. cbv beta iota. by rewrite IHrest.
Qed.

(** X19: A field whose type names no package: [createValueOutput] returns,
    without walking any map, the value with the spelling of the type as
    its type name and a new package object that has the name of the
    package of the file and an empty path. *)
Theorem plain_type_belongs_to_the_package_of_the_file
    e fieldName packageName idx modulePath moduleDir st :
  plainType e = true →
  Resolver.createValueOutput E R (Some e) fieldName packageName idx modulePath moduleDir st
  = Ok (Some {| FieldName := fieldName; TypeName := spelling e;
                TypePackage := List.length (store st) |},
        setStore st (store st ++ [Resolver.newPackage "" packageName])%list).
Proof.
  intros Hp. destruct (plainType_spelling e Hp) as [Hne Hdot].
  unfold Resolver.createValueOutput. rewrite extractTypeInfo_plain, bind_Ok by done.
  cbv beta iota. destruct (decide (spelling e = "")); [done|].
  change "." with (String "."%char ""). rewrite Contains_byte, Hdot. reflexivity.
Qed.

(** X20: [locateGoModule] climbs from the directory of the file: if none of the
    first [k] directories holds a [go.mod] and each has a parent other than
    itself, and the next one holds a [go.mod] or is its own parent, then,
    given fuel for [k+1] directories, the result is that next directory
    with the module path read from its [go.mod] (the text after [module] on
    the first line that has it, empty if the file cannot be read or has no
    such line), or the pair of empty strings when there is no [go.mod]. *)
Theorem locateGoModule_finds_the_nearest_go_mod k fuel file :
  (∀ i, (i < k)%nat →
        Resolver.os_Stat E (filepath_Join W (dirAt W file i) "go.mod") = false ∧
        dirAt W file (S i) ≠ dirAt W file i) →
  Resolver.os_Stat E (filepath_Join W (dirAt W file k) "go.mod") = true
  ∨ dirAt W file (S k) = dirAt W file k →
  (k < fuel)%nat →
  Resolver.locateGoModule W E fuel file =
    if Resolver.os_Stat E (filepath_Join W (dirAt W file k) "go.mod")
    then Ok (dirAt W file k,
             from_option (fun data => Resolver.moduleLine (GoLib.Split data (ascii_of_nat 10)))
               "" (Resolver.os_ReadFile E (filepath_Join W (dirAt W file k) "go.mod")))
    else Ok ("", "").
Proof.
  unfold Resolver.locateGoModule, dirAt.
  generalize (filepath_Dir W file) as dir.
  revert fuel. induction k as [|k IH]; intros fuel dir Hnone Hstop Hfuel.
  - destruct fuel as [|fuel]; [lia|]. simpl in *.
    destruct (Resolver.os_Stat E (filepath_Join W dir "go.mod")).
    + by destruct (Resolver.os_ReadFile E _).
    + destruct Hstop as [|Hstop]; [done|]. by destruct (decide _).
  - destruct fuel as [|fuel]; [lia|].
    assert (∀ i, Nat.iter i (filepath_Dir W) (filepath_Dir W dir)
                 = Nat.iter (S i) (filepath_Dir W) dir) as Hshift.
    { intros i. symmetry. apply Nat.iter_succ_r. }
    destruct (Hnone 0%nat) as [Hs Hd]; [lia|].
    change (Nat.iter 0 (filepath_Dir W) dir) with dir in Hs, Hd.
    change (Nat.iter 1 (filepath_Dir W) dir) with (filepath_Dir W dir) in Hd.
    cbn [Resolver.locateFrom]. rewrite Hs. destruct (decide _) as [|_]; [done|].
    rewrite <- !Hshift. apply IH; [| |lia].
    + intros i Hi. rewrite !Hshift. apply Hnone. lia.
    + by rewrite !Hshift.
Qed.

(** X21: An import path of one element, as those of the standard library, is
    never looked up in the module cache: [readPackageNameFromImportPath]
    returns the empty string, whatever the environment and the disk hold. *)
Theorem one_element_path_is_not_in_the_module_cache importPath :
  without "/" importPath = true →
  Resolver.readPackageNameFromImportPath W E importPath = "".
Proof.
  intros Hw. unfold Resolver.readPackageNameFromImportPath.
  assert (∀ basePath, Resolver.packageNameUnder W E importPath basePath = "") as Hunder.
  { intros basePath. unfold Resolver.packageNameUnder. by rewrite Split_without. }
  generalize ((if decide (Resolver.os_Getenv E "GOMODCACHE" = "") then []
               else [Resolver.os_Getenv E "GOMODCACHE"]) ++
              (if decide (Resolver.os_Getenv E "GOPATH" = "") then []
               else [Resolver.filepath_Join3 E (Resolver.os_Getenv E "GOPATH") "pkg" "mod"]))%list.
  intros paths. induction paths as [|p paths IH]; [done|].
  rewrite Hunder. by destruct (decide _).
Qed.

End PlainTypes.
(** *** Examples *)

Lemma createValueOutput_adds_one_package_of_the_index_witness :
  ∃ r st',
    Resolver.createValueOutput moduleEnv reversed
      (Some (Resolver.StarExpr (Resolver.SelectorExpr (Resolver.Ident "yaml") "Node")))
      "Doc" "main" yamlIndex "example.com/m" "src" emptyState
      = Ok (r, st') ∧
    model st' = model emptyState ∧
    match r with
    | None => store st' = store emptyState
    | Some v =>
        FieldName v = "Doc" ∧ TypeName v ≠ "" ∧
        TypePackage v = List.length (store emptyState) ∧
        ∃ t, store st' = (store emptyState ++ [t])%list ∧ fromIndex yamlIndex t
    end.
Proof.
  apply (createValueOutput_adds_one_package_of_the_index moduleEnv reversed
           (Some (Resolver.StarExpr (Resolver.SelectorExpr (Resolver.Ident "yaml") "Node")))
           "Doc" "main" yamlIndex "example.com/m" "src" emptyState).
  intros k v Hk. unfold yamlIndex in Hk. apply lookup_singleton_Some in Hk as [_ <-]. by eexists.
Defined.

Lemma locateGoModule_finds_the_nearest_go_mod_witness :
  Resolver.locateGoModule moduleWorld moduleEnv 5 "src/app/main.go"
  = Ok ("src", "example.com/m").
Proof.
  apply (locateGoModule_finds_the_nearest_go_mod moduleWorld moduleEnv 1 5 "src/app/main.go").
  - intros i Hi. assert (i = 0%nat) as -> by lia. split; [reflexivity|].
    vm_compute. discriminate.
  - left. reflexivity.
  - lia.
Defined.

Lemma buildImportIndex_makes_a_closed_index_witness :
  ∃ idx,
    Resolver.buildImportIndex moduleWorld moduleEnv 5 twoImports "src/app/main.go"
      = Ok (idx, "example.com/m") ∧
    indexOk moduleWorld moduleEnv "src" "example.com/m" twoImports idx.
Proof.
  apply (buildImportIndex_makes_a_closed_index moduleWorld moduleEnv 5 twoImports
           "src/app/main.go" "src" "example.com/m").
  vm_compute. reflexivity.
Defined.

Lemma qualified_type_resolves_through_its_import_witness :
  ∃ idx,
    Resolver.buildImportIndex moduleWorld moduleEnv 5 twoImports "src/app/main.go"
      = Ok (idx, "example.com/m") ∧
    ∀ R sel fieldName packageName st,
      Resolver.createValueOutput moduleEnv R
        (Some (Resolver.SelectorExpr (Resolver.Ident "y") sel))
        fieldName packageName idx "example.com/m" "src" st
      = Ok (Some {| FieldName := fieldName; TypeName := "y" ++ "." ++ sel;
                    TypePackage := List.length (store st) |},
            setStore st (store st ++ [Resolver.newPackage "gopkg.in/yaml.v3" "yaml"])%list).
Proof.
  apply (qualified_type_resolves_through_its_import moduleWorld moduleEnv 5
           [ {| Resolver.imp_Name := None; Resolver.imp_Path := quoted "strings" |} ]
           {| Resolver.imp_Name := Some "y"; Resolver.imp_Path := quoted "gopkg.in/yaml.v3" |}
           [] "src/app/main.go" "src" "example.com/m").
  - vm_compute. reflexivity.
  - vm_compute. discriminate.
  - vm_compute. discriminate.
  - vm_compute. discriminate.
  - constructor.
Defined.

Lemma plain_type_belongs_to_the_package_of_the_file_witness :
  Resolver.createValueOutput moduleEnv inOrder
    (Some (Resolver.MapType (Resolver.Ident "string")
             (Resolver.ArrayType (Some Resolver.OtherExpr) (Resolver.Ident "User"))))
    "Users" "main" yamlIndex "example.com/m" "src" emptyState
  = Ok (Some {| FieldName := "Users"; TypeName := "map[string][]User"; TypePackage := 0 |},
        setStore emptyState [Resolver.newPackage "" "main"]).
Proof.
  apply (plain_type_belongs_to_the_package_of_the_file moduleEnv inOrder
           (Resolver.MapType (Resolver.Ident "string")
              (Resolver.ArrayType (Some Resolver.OtherExpr) (Resolver.Ident "User")))
           "Users" "main" yamlIndex "example.com/m" "src" emptyState).
  reflexivity.
Defined.

Lemma one_element_path_is_not_in_the_module_cache_witness :
  Resolver.readPackageNameFromImportPath moduleWorld moduleEnv "strings" = "".
Proof.
  apply (one_element_path_is_not_in_the_module_cache moduleWorld moduleEnv "strings").
  reflexivity.
Defined.

(** ** The snake formats *)

Lemma plainRune_lower c :
  isSeparator c = false → plainRune (Go.lower_rune c) = true.
Proof. destruct c as [[] [] [] [] [] [] [] []]; vm_compute; congruence. Qed.

Lemma lower_lower c : Go.lower_rune (Go.lower_rune c) = Go.lower_rune c.
Proof. by destruct c as [[] [] [] [] [] [] [] []]. Qed.

Lemma map_runes_app f s t : Go.map_runes f (s ++ t) = Go.map_runes f s ++ Go.map_runes f t.
Proof.
  induction s as [|c s IH]; [reflexivity|].
  change (String (f c) (Go.map_runes f (s ++ t)) = String (f c) (Go.map_runes f s ++ Go.map_runes f t)).
  by rewrite IH.
Qed.

Lemma map_runes_Join f ws sep :
  Go.map_runes f (Go.Join ws sep) = Go.Join (Go.map_runes f <$> ws) (Go.map_runes f sep).
Proof.
  induction ws as [|w ws IH]; [reflexivity|].
  destruct ws as [|w' ws]; [reflexivity|].
  change (Go.map_runes f (w ++ sep ++ Go.Join (w' :: ws) sep)
          = Go.map_runes f w ++ Go.map_runes f sep
            ++ Go.Join (Go.map_runes f <$> w' :: ws) (Go.map_runes f sep)).
  by rewrite !map_runes_app, IH.
Qed.

Lemma splitLoop_plain t : ∀ prev rest words cur,
  allRunes plainRune t = true →
  ∃ prev', splitLoop prev (t ++ rest) words cur = splitLoop prev' rest words (cur ++ t).
Proof.
  induction t as [|x t IH]; intros prev rest words cur Ht.
  - exists prev. by rewrite append_nil_r.
  - simpl in Ht. apply andb_true_iff in Ht as [Hx Ht].
    apply andb_true_iff in Hx as [Hsep Hup]. apply negb_true_iff in Hsep, Hup.
    change (String x t ++ rest) with (String x (t ++ rest)).
    cbn [splitLoop]. rewrite Hsep, Hup.
    destruct (IH (Some x) rest words (cur ++ String x "") Ht) as [prev' ->].
    exists prev'. by rewrite append_assoc.
Qed.

Lemma split_joined ws : ∀ prev words,
  Forall (fun w => w ≠ "" ∧ allRunes plainRune w = true) ws →
  splitLoop prev (Go.Join ws "_") words "" = (words ++ ws)%list.
Proof.
  induction ws as [|w ws IH]; intros prev words Hall.
  - simpl. by rewrite app_nil_r.
  - apply Forall_cons in Hall as [[Hne Hw] Hall].
    destruct ws as [|w' ws].
    + simpl. rewrite <- (append_nil_r w) at 1.
      destruct (splitLoop_plain w prev "" words "" Hw) as [prev' ->].
      simpl. unfold flush. change ("" ++ w) with w. by destruct w.
    + change (Go.Join (w :: w' :: ws) "_")
        with (w ++ String "_"%char (Go.Join (w' :: ws) "_")).
      destruct (splitLoop_plain w prev (String "_"%char (Go.Join (w' :: ws) "_")) words "" Hw)
        as [prev' ->].
      change ("" ++ w) with w. cbn [splitLoop].
      change (isSeparator "_") with true. cbv iota.
      rewrite IH by done. unfold flush. destruct w; [done|]. simpl. by rewrite <- app_assoc.
Qed.

Lemma ToLower_words ws :
  Forall (fun w => w ≠ "" ∧ allRunes (fun c => negb (isSeparator c)) w = true) ws →
  Forall (fun w => w ≠ "" ∧ allRunes plainRune w = true) (Go.ToLower <$> ws).
Proof.
  intros Hall. apply Forall_fmap. eapply Forall_impl; [exact Hall|].
  intros w [Hne Hw]. simpl. split; [by destruct w|].
  clear Hne. induction w as [|c w IH]; [done|].
  simpl in Hw. apply andb_true_iff in Hw as [Hc Hw]. apply negb_true_iff in Hc.
  change (plainRune (Go.lower_rune c) && allRunes plainRune (Go.ToLower w) = true).
  by rewrite (plainRune_lower c Hc), IH.
Qed.

Lemma ToLower_ToLower s : Go.ToLower (Go.ToLower s) = Go.ToLower s.
Proof.
  unfold Go.ToLower. induction s as [|c s IH]; [done|]. simpl. by rewrite lower_lower, IH.
Qed.

Lemma ToLower_Join ws : Go.ToLower (Go.Join ws "_") = Go.Join (Go.ToLower <$> ws) "_".
Proof. unfold Go.ToLower. by rewrite map_runes_Join. Qed.

Lemma snake_of_snake (base : string) :
  let name := Go.ToLower (Go.Join (splitIntoWords base) "_") in
  Go.ToLower (Go.Join (splitIntoWords name) "_") = name.
Proof.
  intros name. subst name. rewrite (ToLower_Join (splitIntoWords base)).
  assert (Forall (fun w => w ≠ "" ∧ allRunes plainRune w = true)
            (Go.ToLower <$> splitIntoWords base)) as Hws.
  { apply ToLower_words. apply splitLoop_words_of; [|constructor|done].
    induction base as [|c s IH]; simpl; [done|]. rewrite IH. by destruct (isSeparator c). }
  unfold splitIntoWords at 1. rewrite split_joined by done. rewrite app_nil_l.
  rewrite ToLower_Join. f_equal.
  rewrite <- list_fmap_compose. apply list_fmap_ext. intros i w _. apply ToLower_ToLower.
Qed.

Lemma base_of_one name :
  Go.Join (nonEmpty "" ++ nonEmpty name ++ nonEmpty "" ++ nonEmpty "") " " = name.
Proof. unfold nonEmpty. simpl. by destruct (decide (name = "")) as [->|]. Qed.

(** X22: A name in the snake format is left as it is by the snake format,
    whatever it was built from; the upper-case snake format lacks this
    property: it makes "A1B" of "a1b", and "A1_B" of "A1B". *)
Theorem snake_format_is_idempotent prefix mid mid2 suffix :
  buildName "" (buildName prefix mid mid2 suffix ConstantFormatSnake) "" ""
    ConstantFormatSnake
  = buildName prefix mid mid2 suffix ConstantFormatSnake
  ∧ buildName "" "a1b" "" "" ConstantFormatSnakeUpper = "A1B"
  ∧ buildName "" "A1B" "" "" ConstantFormatSnakeUpper = "A1_B".
Proof.
  split; [|by split].
  unfold buildName at 1. cbv zeta. rewrite base_of_one.
  unfold buildName. cbv zeta. apply snake_of_snake.
Qed.

(** ** Package identifiers that are not keys *)

Section ClosedIndex.

Variable R : RangeOrder.

Lemma bestMatchLoop_None name entries :
  (∀ k t, (k, Some t) ∈ entries → tp_Name t ≠ name) →
  Resolver.bestMatchLoop name entries None = None.
Proof.
  induction entries as [|[k [t|]] rest IH]; intros Hno; simpl; [done| |].
  - destruct (decide (tp_Name t = name)) as [Hn|_].
    + destruct (Hno k t); [by left|done].
    + apply IH. intros k' t' Hin. apply (Hno k'). by right.
  - apply IH. intros k' t' Hin. apply (Hno k'). by right.
Qed.

(** X23: On an index in which the name of every entry is a key, as
    [buildImportIndex] makes it, a package identifier that is not a key is
    the name of no entry: the search by name finds nothing, the type name
    is qualified, and the package is the first one in the order of the walk
    whose path has the identifier as an element, or else the unresolved
    package with that name and no path. *)
Theorem unknown_identifier_is_found_by_path_only idx ident sel st :
  closedIndex idx → idx !! ident = None →
  Resolver.extractSelector R ident sel idx st =
    let st1 := (Resolver.rangeOver R idx st).2 in
    let found :=
      Resolver.firstImport
        (fun _ imp => importPathHasSegment (tp_Path imp) ident
                      && negb (bool_decide (tp_Path imp = "")))
        (Resolver.rangeOver R idx st1).1 in
    Ok (ident ++ "." ++ sel,
        Some (from_option (fun e => Resolver.newPackage (tp_Path e.2) (tp_Name e.2))
                (Resolver.newPackage "" ident) found),
        (Resolver.rangeOver R idx st1).2).
Proof.
  intros Hclosed Hkey. unfold Resolver.extractSelector. rewrite Hkey.
  pose proof (fun k x => rangeOver_entries R idx st k x) as He.
  destruct (Resolver.rangeOver R idx st) as [entries st1]. simpl in He. cbv zeta.
  rewrite bestMatchLoop_None.
  - cbn [snd]. destruct (Resolver.rangeOver R idx st1) as [entries2 st2]. cbn [fst snd].
    by destruct (Resolver.firstImport _ entries2) as [[k imp]|].
  - intros k t Hin%He Hname. destruct (Hclosed _ _ Hin) as [v Hv].
    rewrite Hname, Hkey in Hv. done.
Qed.

End ClosedIndex.

Lemma unknown_identifier_is_found_by_path_only_witness :
  Resolver.extractSelector reversed "v3" "Node" closedYamlIndex emptyState =
    Ok ("v3.Node", Some (Resolver.newPackage "" "v3"),
        {| model := NewModel; store := []; ranges := 2 |}).
Proof.
  apply (unknown_identifier_is_found_by_path_only reversed closedYamlIndex "v3" "Node"
           emptyState).
  - intros k t Hk. unfold closedYamlIndex, yamlIndex in *.
    destruct (decide (k = "yaml")) as [->|Hne].
    + rewrite lookup_insert_eq in Hk. injection Hk as <-. by eexists.
    + rewrite lookup_insert_ne in Hk by done.
      apply lookup_singleton_Some in Hk as [_ [= <-]]. by eexists.
  - reflexivity.
Defined.

(** ** Source patterns *)

Lemma HasPrefix_append p s : Go.HasPrefix (p ++ s) p = true.
Proof.
  induction p as [|c p IH]; [by destruct s|].
  change (Go.HasPrefix (String c (p ++ s)) (String c p) = true). simpl.
  by destruct (decide (c = c)).
Qed.

Lemma TrimPrefix_append p s : Go.TrimPrefix (p ++ s) p = s.
Proof.
  unfold Go.TrimPrefix. rewrite HasPrefix_append.
  induction p as [|c p IH]; [by destruct s|]. exact IH.
Qed.

Lemma HasPrefix_split s p : Go.HasPrefix s p = true → s = p ++ Go.TrimPrefix s p.
Proof.
  intros H. unfold Go.TrimPrefix. rewrite H. revert s H.
  induction p as [|c p IH]; intros s H; [by destruct s|].
  destruct s as [|x s]; [done|]. simpl in H. destruct (decide (c = x)) as [->|]; [|done].
  change (String x s = String x (p ++ Go.drop_bytes (String.length p) s)).
  f_equal. by apply IH.
Qed.

(** X24: A source pattern passes [isValidSource] in two ways only: it reads
    [package:] followed by a valid Go identifier, and then [expandPattern]
    gathers the files of the package of that name; or it does not begin
    with [package:], ends in ".go" and is a valid glob pattern. *)
Theorem valid_sources_are_packages_or_go_globs cleanSlash ValidatePattern pattern :
  isValidSource cleanSlash ValidatePattern pattern = true →
  (∃ name, pattern = "package:" ++ name ∧ isValidGoIdentifier name = true ∧
           ∀ W config, expandPattern W config pattern = findPackageFiles W config name)
  ∨ (Go.HasPrefix pattern "package:" = false ∧ goFile pattern ∧
     ValidatePattern (cleanSlash pattern) = true).
Proof.
  unfold isValidSource. destruct (Go.HasPrefix pattern "package:") eqn:Hp.
  - intros Hid. left. exists (Go.TrimPrefix pattern "package:").
    split; [by apply HasPrefix_split|]. split; [done|].
    intros W config. unfold expandPattern. by rewrite Hp.
  - destruct (Go.HasSuffix pattern ".go") eqn:Hs; [|done]. simpl.
    destruct (ValidatePattern (cleanSlash pattern)) eqn:Hv; [|done].
    intros _. right. by repeat split.
Qed.

Lemma valid_sources_are_packages_or_go_globs_witness :
  (∃ name, "package:models" = "package:" ++ name ∧ isValidGoIdentifier name = true ∧
           ∀ W config, expandPattern W config "package:models"
                       = findPackageFiles W config name)
  ∨ (Go.HasPrefix "package:models" "package:" = false ∧ goFile "package:models" ∧
     true = true).
Proof.
  apply (valid_sources_are_packages_or_go_globs (fun p => p) (fun _ => true) "package:models").
  reflexivity.
Defined.

(** ** The constants of a struct *)

Lemma foldl_collect {A S B} (P : S → list B → Prop) (f : S → A → S) (g : A → list B) xs :
  (∀ x s l, x ∈ xs → P s l → P (f s x) (l ++ g x)%list) →
  ∀ s l, P s l → P (foldl f s xs) (l ++ (xs ≫= g))%list.
Proof.
  induction xs as [|x xs IH]; intros Hf s l HP.
  - simpl. by rewrite app_nil_r.
  - rewrite bind_cons, app_assoc. cbn [foldl]. apply IH.
    + intros y t k Hy. apply Hf. by right.
    + apply Hf; [by left|done].
Qed.

Section Constants.

Variable W : World.
Variable config : Config.

Lemma scanElement_constants name packageName fieldName tagText el sc l :
  collected name sc l →
  collected name (scanElement W packageName fieldName tagText el sc)
    (l ++ constantOf W name fieldName tagText el)%list.
Proof.
  intros [Hn Hl]. unfold scanElement, constantOf, collected.
  destruct (decide _); [by rewrite app_nil_r|].
  destruct (out_Mode (el_Output el)); simpl; rewrite ?app_nil_r; try done.
  - by destruct (structByElement sc !! el_Name el).
  - by rewrite Hn, Hl.
Qed.

Lemma scanGetter_constants name filePath packageName field fieldName g ss l :
  collected name ss.1 l →
  collected name (scanGetter W filePath packageName field fieldName g ss).1 l.
Proof.
  destruct ss as [sc st]. intros Hc. unfold scanGetter.
  assert (structModel (foldl (fun gs ret => scanReturn W filePath packageName field fieldName ret gs)
                   (([], sc, st) : GetterScan) (Returns g)).1.2 = structModel sc) as H.
  { apply (foldl_invariant (fun gs : GetterScan => structModel gs.1.2 = structModel sc));
      [|done].
    intros x s _ Hs. destruct (scanReturn_scan W filePath packageName field fieldName x s).
    congruence. }
  destruct (foldl _ _ _) as [[returns sc1] s1]. simpl in H.
  destruct Hc as [Hn Hl]. unfold collected.
  case_decide; simpl; by rewrite H.
Qed.

(** X25: The constants of the struct model the scan of a struct declaration
    builds are, in this order, those of each field the policy keeps, for
    each of its names, for each element of the configuration that is in
    constant mode and has a value for the name that is not empty: the name
    built from the prefix, the struct name, the field name and the suffix
    of the element in its struct format, with that value.  Getters and the
    other elements add and remove none. *)
Theorem constants_are_one_per_field_name_and_element
    filePath packageName typeSpec fields st :
  sm_Constants (structModel (scanFields W config filePath packageName typeSpec fields st).1)
  = constantsOf W config (ts_Name typeSpec) fields.
Proof.
  unfold scanFields, constantsOf.
  assert (collected (ts_Name typeSpec)
            (foldl (fun ss field => scanField W config filePath packageName field ss)
               (newStructScan (ts_Name typeSpec) filePath (ts_Line typeSpec), st) fields).1
            ([] ++ (fields ≫= fun field =>
                      if decide (mustIncludeField W config field = true)
                      then fieldName ← Names field; el ← Elements config;
                           constantOf W (ts_Name typeSpec) fieldName (fieldTagText field) el
                      else []))%list) as [_ ->].
  { apply (foldl_collect (fun (ss : StructScan * State) l => collected (ts_Name typeSpec) ss.1 l));
      [|done].
    intros field ss l _ Hss. unfold scanField.
    destruct (decide (List.length (Names field) = 0%nat)) as [Hlen|_].
    { destruct (Names field); [|done]. simpl. destruct (decide _); by rewrite app_nil_r. }
    destruct (mustIncludeField W config field); simpl; [|by rewrite app_nil_r].
    apply (foldl_collect (fun (ss : StructScan * State) l => collected (ts_Name typeSpec) ss.1 l));
      [|done].
    intros fieldName [sc s] l0 _ Hsc. unfold scanIdent.
    apply (foldl_invariant (fun ss : StructScan * State =>
             collected (ts_Name typeSpec) ss.1
               (l0 ++ (Elements config ≫= constantOf W (ts_Name typeSpec) fieldName
                                           (fieldTagText field)))%list)).
    - intros g ss0 _ Hss0. by apply scanGetter_constants.
    - simpl.
      apply (foldl_collect (fun (sc : StructScan) l => collected (ts_Name typeSpec) sc l));
        [|done].
      intros el sc0 l1 _ Hsc0. by apply scanElement_constants. }
  simpl. induction fields as [|field fields IH]; [done|].
  rewrite bind_cons, filter_cons, IH.
  destruct (decide (mustIncludeField W config field = true)); [by rewrite bind_cons|done].
Qed.

End Constants.
